(** * html-rewriter-readability: a shallow embedding and its verified properties

    The development follows the layout of the TypeScript sources:

    - [JsString]   the fragment of JavaScript strings the sources use
                   (UTF-16 code units, [trim], [split], [replace], ...);
    - [Constants]  constants.ts (tag sets and the class/id regular expressions);
    - [Types]      types.ts ([ElementInfo], [Metadata], options);
    - [Utils]      utils.ts (tree queries over the element store);
    - [Phase1]     phase1-handler.ts (the streaming tree builder);
    - [Phase2]     phase2-scorer.ts ([calculateScoresAndFindBestCandidate]);
    - [Markdown]   markdown-converter.ts ([convertNodeRecursive], [convert]);
    - [Readability] html-rewriter-readability.ts ([resetState], [process]).

    The model is followed by the vocabulary of the specifications (the tree
    invariant of the store, sample documents), the supporting lemmas, the
    theorems that settle the claims C1 to C10 about the program, and further
    properties of the builder, the tree queries, the scorer and the
    converter (X1 to X21).

    The tree walks of the sources recurse along parent and child links; they
    are modelled with a fuel argument and return [None] when it runs out.
    On every store the builder produces they are shown to complete, with a
    result that does not depend on the fuel.

    JavaScript numbers that hold identifiers, counters and lengths are modelled
    as [Z]; content scores are IEEE-754 binary64 values, modelled with the
    primitive [float] type, which is the same format. *)

From Stdlib Require Import ZArith NArith List Bool Lia Ascii String Floats
  Sorted Permutation.
From stdpp Require Import gmap.
Import ListNotations.

(* ===================================================================== *)
(** * JavaScript strings *)
(* ===================================================================== *)

Module JsString.

(** A JavaScript string is a sequence of UTF-16 code units. *)
Abbreviation char := N.
Abbreviation jsstring := (list N).

(** ASCII literals, for readability of the constants below. *)
Definition js (s : string) : jsstring :=
  List.map N_of_ascii (list_ascii_of_string s).

(** [s.length] *)
Definition length (s : jsstring) : Z := Z.of_nat (List.length s).

(** [a === b] on strings *)
Fixpoint eqb (a b : jsstring) : bool :=
  match a, b with
  | [], [] => true
  | x :: a', y :: b' => N.eqb x y && eqb a' b'
  | _, _ => false
  end.

(** Truthiness of a string: only the empty string is falsy. *)
Definition truthy (s : jsstring) : bool :=
  match s with [] => false | _ :: _ => true end.

(** White space as matched by [\s] and stripped by [trim()]: the ECMAScript
    WhiteSpace and LineTerminator code points. *)
Definition isWhiteSpace (c : char) : bool :=
  (N.eqb c 9 || N.eqb c 10 || N.eqb c 11 || N.eqb c 12 || N.eqb c 13
   || N.eqb c 32 || N.eqb c 160 || N.eqb c 0x1680
   || (N.leb 0x2000 c && N.leb c 0x200A)
   || N.eqb c 0x2028 || N.eqb c 0x2029 || N.eqb c 0x202F
   || N.eqb c 0x205F || N.eqb c 0x3000 || N.eqb c 0xFEFF)%N.

Fixpoint trimStart (s : jsstring) : jsstring :=
  match s with
  | [] => []
  | c :: r => if isWhiteSpace c then trimStart r else s
  end.

Definition trimEnd (s : jsstring) : jsstring := rev (trimStart (rev s)).

(** [s.trim()] *)
Definition trim (s : jsstring) : jsstring := trimEnd (trimStart s).

(** Case mapping of [String.prototype.toUpperCase] and [toLowerCase], which
    follow the Unicode case mappings: a character may map to several (the
    sharp s to [SS], the ligature [fi] to [FI]), and a few characters
    outside ASCII map to ASCII ones (the dotless i to [I], the long s to
    [S], the Kelvin sign to [k]). The tables are exact on the ASCII code
    units and on every code unit whose mapping contains an ASCII character.
    A code unit whose mapping holds no ASCII character is kept as it is,
    where JavaScript may replace it by other non-ASCII code units; the
    sources compare the results with ASCII names and keys only, and no such
    comparison tells the two apart. *)
Definition upperChar (c : char) : jsstring :=
  if (N.leb 97 c && N.leb c 122)%N then [(c - 32)%N]
  else if N.eqb c 0xDF then [83; 83]%N            (* sharp s: SS *)
  else if N.eqb c 0x131 then [73%N]                (* dotless i: I *)
  else if N.eqb c 0x17F then [83%N]                (* long s: S *)
  else if N.eqb c 0x149 then [0x2BC; 78]%N
  else if N.eqb c 0x1F0 then [74; 0x30C]%N
  else if N.eqb c 0x1E96 then [72; 0x331]%N
  else if N.eqb c 0x1E97 then [84; 0x308]%N
  else if N.eqb c 0x1E98 then [87; 0x30A]%N
  else if N.eqb c 0x1E99 then [89; 0x30A]%N
  else if N.eqb c 0x1E9A then [65; 0x2BE]%N
  else if N.eqb c 0xFB00 then [70; 70]%N           (* ligatures: FF *)
  else if N.eqb c 0xFB01 then [70; 73]%N           (* FI *)
  else if N.eqb c 0xFB02 then [70; 76]%N           (* FL *)
  else if N.eqb c 0xFB03 then [70; 70; 73]%N       (* FFI *)
  else if N.eqb c 0xFB04 then [70; 70; 76]%N       (* FFL *)
  else if (N.eqb c 0xFB05 || N.eqb c 0xFB06)%N then [83; 84]%N   (* ST *)
  else [c].
Definition lowerChar (c : char) : jsstring :=
  if (N.leb 65 c && N.leb c 90)%N then [(c + 32)%N]
  else if N.eqb c 0x212A then [107%N]              (* Kelvin sign: k *)
  else if N.eqb c 0x130 then [105; 0x307]%N        (* dotted capital I *)
  else [c].
Definition toUpperCase (s : jsstring) : jsstring := List.flat_map upperChar s.
Definition toLowerCase (s : jsstring) : jsstring := List.flat_map lowerChar s.

(** Canonicalisation of a code unit under the [i] flag of a regular
    expression without the [u] flag: the single-character upper-case
    mapping, except that a code unit outside ASCII is never mapped into
    ASCII. It is exact on the ASCII code units; a code unit outside ASCII is
    kept, where JavaScript may map it to another code unit outside ASCII. *)
Definition canonicalizeChar (c : char) : char :=
  if (N.leb 97 c && N.leb c 122)%N then (c - 32)%N else c.
Definition canonicalize (s : jsstring) : jsstring := List.map canonicalizeChar s.

(** [s.startsWith(p)] *)
Fixpoint startsWith (p s : jsstring) : bool :=
  match p, s with
  | [], _ => true
  | x :: p', y :: s' => N.eqb x y && startsWith p' s'
  | _ :: _, [] => false
  end.

(** [s.includes(p)] *)
Fixpoint includes (p s : jsstring) : bool :=
  startsWith p s ||
  match s with
  | [] => false
  | _ :: s' => includes p s'
  end.

(** Replacement of every maximal run of at least [n] characters satisfying
    [p] by [by_]; shorter runs are kept. [run] is the run read so far. *)
Definition flushRun (n : nat) (by_ run : jsstring) : jsstring :=
  if Nat.leb n (List.length run) then by_ else run.

Fixpoint replaceRuns (p : char -> bool) (n : nat) (by_ : jsstring)
    (run s : jsstring) : jsstring :=
  match s with
  | [] => match run with [] => [] | _ => flushRun n by_ run end
  | c :: r =>
      if p c then replaceRuns p n by_ (run ++ [c]) r
      else match run with
           | [] => c :: replaceRuns p n by_ [] r
           | _ => flushRun n by_ run ++ c :: replaceRuns p n by_ [] r
           end
  end.

(** [s.replace(/\s{2,}/g, " ")] *)
Definition collapseSpaces (s : jsstring) : jsstring :=
  replaceRuns isWhiteSpace 2 [32%N] [] s.

(** [s.replace(/\n{3,}/g, "\n\n")] *)
Definition collapseNewlines (s : jsstring) : jsstring :=
  replaceRuns (N.eqb 10) 3 [10%N; 10%N] [] s.

(** [s.split(sep)] for a separator matching exactly one code unit satisfying
    [p]; [cur] is the segment read so far. The result is never empty. *)
Fixpoint splitOn (p : char -> bool) (cur s : jsstring) : list jsstring :=
  match s with
  | [] => [cur]
  | c :: r => if p c then cur :: splitOn p [] r else splitOn p (cur ++ [c]) r
  end.

(** [parts.join(sep)] *)
Fixpoint join (sep : jsstring) (parts : list jsstring) : jsstring :=
  match parts with
  | [] => []
  | [x] => x
  | x :: rest => x ++ sep ++ join sep rest
  end.

(** [s.repeat(n)] *)
Fixpoint repeat (s : jsstring) (n : nat) : jsstring :=
  match n with
  | O => []
  | S n' => s ++ repeat s n'
  end.

(** [s.replace(/c/g, by_)] for a single character [c]. *)
Definition replaceChar (c : char) (by_ : jsstring) (s : jsstring) : jsstring :=
  List.concat (List.map (fun x => if N.eqb x c then by_ else [x]) s).

(** Decimal rendering of an integer, as in a template literal. *)
Fixpoint uintChars (u : Decimal.uint) : jsstring :=
  match u with
  | Decimal.Nil => []
  | Decimal.D0 u' => 48%N :: uintChars u'
  | Decimal.D1 u' => 49%N :: uintChars u'
  | Decimal.D2 u' => 50%N :: uintChars u'
  | Decimal.D3 u' => 51%N :: uintChars u'
  | Decimal.D4 u' => 52%N :: uintChars u'
  | Decimal.D5 u' => 53%N :: uintChars u'
  | Decimal.D6 u' => 54%N :: uintChars u'
  | Decimal.D7 u' => 55%N :: uintChars u'
  | Decimal.D8 u' => 56%N :: uintChars u'
  | Decimal.D9 u' => 57%N :: uintChars u'
  end.

Definition ofInteger (z : Z) : jsstring :=
  match z with
  | Z0 => [48%N]
  | Zpos p => uintChars (Pos.to_uint p)
  | Zneg p => 45%N :: uintChars (Pos.to_uint p)
  end.

End JsString.

Import JsString.

(* ===================================================================== *)
(** * constants.ts *)
(* ===================================================================== *)

Module Constants.

(** [set.has(x)] for a [Set] of strings given by its elements. *)
Definition has (set : list jsstring) (x : jsstring) : bool :=
  existsb (eqb x) set.

(** Set of HTML void elements *)
Definition VOID_ELEMENTS : list jsstring :=
  List.map js
    ["AREA"; "BASE"; "BR"; "COL"; "EMBED"; "HR"; "IMG"; "INPUT";
     "LINK"; "META"; "PARAM"; "SOURCE"; "TRACK"; "WBR"]%string.

(** Default tag names that Readability considers for scoring *)
Definition DEFAULT_TAGS_TO_SCORE : list jsstring :=
  List.map js
    ["SECTION"; "H2"; "H3"; "H4"; "H5"; "H6"; "P"; "TD"; "PRE"; "ARTICLE"]%string.

(** The class/id regular expressions are case-insensitive alternations of
    literals, some of them anchored with [^] or [$]. *)
Record Alt := { atStart : bool; lit : jsstring; atEnd : bool }.

Definition L (s : string) : Alt :=
  {| atStart := false; lit := js s; atEnd := false |}.
Definition anchored (b : bool) (s : string) (e : bool) : Alt :=
  {| atStart := b; lit := js s; atEnd := e |}.

(** Does alternative [a] match at the current position? [isStart] says that
    the position is the beginning of the input and [s] is the input from the
    position on. Under the [i] flag both sides are compared after
    canonicalisation, which for these ASCII patterns only identifies the
    ASCII letters. *)
Definition matchesHere (isStart : bool) (s : jsstring) (a : Alt) : bool :=
  (negb (atStart a) || isStart)
  && (if atEnd a then eqb (canonicalize (lit a)) s
      else startsWith (canonicalize (lit a)) s).

Fixpoint testFrom (alts : list Alt) (isStart : bool) (s : jsstring) : bool :=
  existsb (matchesHere isStart s) alts ||
  match s with
  | [] => false
  | _ :: r => testFrom alts false r
  end.

(** [regex.test(s)] *)
Definition test (alts : list Alt) (s : jsstring) : bool :=
  testFrom alts true (canonicalize s).

Definition POSITIVE_REGEX : list Alt :=
  List.map L
    ["article"; "body"; "content"; "entry"; "hentry"; "h-entry"; "main";
     "page"; "pagination"; "post"; "text"; "blog"; "story"]%string.

Definition NEGATIVE_REGEX : list Alt :=
  [L "-ad-"; L "hidden"; anchored true "hid" true; anchored false " hid" true;
   L " hid "; anchored true "hid " false]
  ++ List.map L
    ["banner"; "combx"; "comment"; "com-"; "contact"; "footer"; "gdpr";
     "masthead"; "media"; "meta"; "outbrain"; "promo"; "related"; "scroll";
     "share"; "shoutbox"; "sidebar"; "skyscraper"; "sponsor"; "shopping";
     "tags"; "widget"]%string.

Definition UNLIKELY_CANDIDATES_REGEX : list Alt :=
  List.map L
    ["-ad-"; "ai2html"; "banner"; "breadcrumbs"; "combx"; "comment";
     "community"; "cover-wrap"; "disqus"; "extra"; "footer"; "gdpr";
     "header"; "legends"; "menu"; "related"; "remark"; "replies"; "rss";
     "shoutbox"; "sidebar"; "skyscraper"; "social"; "sponsor";
     "supplemental"; "ad-break"; "agegate"; "pagination"; "pager"; "popup";
     "yom-remote"]%string.

Definition OK_MAYBE_ITS_A_CANDIDATE_REGEX : list Alt :=
  List.map L
    ["and"; "article"; "body"; "column"; "content"; "main"; "mathjax";
     "shadow"]%string.

(** Role attribute values that Readability is likely to consider unnecessary *)
Definition UNLIKELY_ROLES : list jsstring :=
  List.map js
    ["menu"; "menubar"; "complementary"; "navigation"; "alert";
     "alertdialog"; "dialog"]%string.

(** COMMAS_REGEX: a comma or one of its Unicode variants. *)
Definition isComma (c : char) : bool :=
  (N.eqb c 0x002C || N.eqb c 0x060C || N.eqb c 0xFE50 || N.eqb c 0xFE10
   || N.eqb c 0xFE11 || N.eqb c 0x2E41 || N.eqb c 0x2E34 || N.eqb c 0x2E32
   || N.eqb c 0xFF0C)%N.

Definition NB_TOP_CANDIDATES : Z := 5.
Definition CHAR_THRESHOLD : Z := 500.
Definition LINK_DENSITY_MODIFIER : Z := 0.

End Constants.

Import Constants.

(* ===================================================================== *)
(** * types.ts *)
(* ===================================================================== *)

Module Types.

(** Interface for storing HTML element attributes: an object used as a map
    from attribute names to values. *)
Abbreviation ElementAttributes := (gmap (list N) (list N)).

(** Interface for element information collected in Phase 1. [readability]
    holds the [contentScore] once the node score has been initialised. *)
Record ElementInfo := {
  id : Z;
  parentId : option Z;
  tagName : jsstring;
  attributes : ElementAttributes;
  textChunks : option (list jsstring);
  finalTextContent : option jsstring;
  isVisibleBasedOnAttrs : bool;
  role : option jsstring;
  isDataTableLikely : bool;
  isCodeBlock : bool;
  readability : option float
}.

(** Metadata collected in Phase 1. The [jsonLd] slot is never written by
    the sources. *)
Record Metadata := {
  title : option jsstring;
  byline : option jsstring;
  excerpt : option jsstring;
  siteName : option jsstring;
  publishedTime : option jsstring;
  lang : option jsstring;
  dir : option jsstring;
  jsonLd : option jsstring
}.

(** The empty object literal assigned to [metadataStore]. *)
Definition emptyMetadata : Metadata :=
  {| title := None; byline := None; excerpt := None; siteName := None;
     publishedTime := None; lang := None; dir := None; jsonLd := None |}.

(** Options for the HtmlRewriterReadability constructor. The options that
    no code path reads ([classesToPreserve], [keepClasses],
    [allowedVideoRegex], [debug], which only drives logging) are left out. *)
Record ReadabilityOptions := {
  maxElemsToParse : option Z;
  nbTopCandidates : option Z;
  charThreshold : option Z;
  linkDensityModifier : option Z
}.

(** The element store: a [Map<number, ElementInfo>], which iterates in
    insertion order. *)
Abbreviation ElementStore := (list (Z * ElementInfo)).

End Types.

Import Types.

(* ===================================================================== *)
(** * The host's parser interface *)
(* ===================================================================== *)

(** The HTMLRewriter element handed to the start-tag handler. Only what the
    handlers read is kept: the tag name, the attribute list in source order,
    and whether registering an end-tag handler on it throws (the host
    refuses elements that have no end tag). *)
Module Host.

Record Element := {
  tagName : jsstring;
  attributes : list (jsstring * jsstring);
  onEndTagThrows : bool
}.

(** [element.getAttribute(name)]: [None] stands for [null]. *)
Definition getAttribute (name : jsstring) (e : Element) : option jsstring :=
  snd <$> List.find (fun kv => eqb (fst kv) name) (attributes e).

End Host.

(* ===================================================================== *)
(** * utils.ts *)
(* ===================================================================== *)

Module Utils.

(** A small error monad for the recursive tree walks: [None] means that the
    walk did not finish within its fuel (in JavaScript: unbounded recursion
    on a store whose parent links form a cycle). *)
Fixpoint foldM {A B} (f : B -> A -> option B) (l : list A) (acc : B) : option B :=
  match l with
  | [] => Some acc
  | x :: r => acc' ← f acc x; foldM f r acc'
  end.

(** Conversion of an integer-valued number to its binary64 value (exact
    below 2^53). *)
Definition ofZ (z : Z) : float :=
  match z with
  | Z0 => 0%float
  | Zpos _ => PrimFloat.of_uint63 (Uint63.of_Z z)
  | Zneg p => PrimFloat.opp (PrimFloat.of_uint63 (Uint63.of_Z (Zpos p)))
  end.

(** [store.get(id)] and [store.set(id, info)] *)
Definition storeGet (k : Z) (store : ElementStore) : option ElementInfo :=
  snd <$> List.find (fun p => Z.eqb (fst p) k) store.

Fixpoint storeSet (k : Z) (v : ElementInfo) (store : ElementStore) : ElementStore :=
  match store with
  | [] => [(k, v)]
  | (k', v') :: r =>
      if Z.eqb k' k then (k, v) :: r else (k', v') :: storeSet k v r
  end.

(** In-place mutation of the record stored under [k]. *)
Definition storeUpdate (k : Z) (f : ElementInfo -> ElementInfo)
    (store : ElementStore) : ElementStore :=
  List.map (fun p => if Z.eqb (fst p) k then (fst p, f (snd p)) else p) store.

Definition withReadability (r : option float) (i : ElementInfo) : ElementInfo :=
  {| id := id i; parentId := parentId i; tagName := tagName i;
     attributes := attributes i; textChunks := textChunks i;
     finalTextContent := finalTextContent i;
     isVisibleBasedOnAttrs := isVisibleBasedOnAttrs i; role := role i;
     isDataTableLikely := isDataTableLikely i; isCodeBlock := isCodeBlock i;
     readability := r |}.

Definition withText (chunks : option (list jsstring)) (final : option jsstring)
    (i : ElementInfo) : ElementInfo :=
  {| id := id i; parentId := parentId i; tagName := tagName i;
     attributes := attributes i; textChunks := chunks;
     finalTextContent := final;
     isVisibleBasedOnAttrs := isVisibleBasedOnAttrs i; role := role i;
     isDataTableLikely := isDataTableLikely i; isCodeBlock := isCodeBlock i;
     readability := readability i |}.

(** Decode HTML entities. In the source text each replacement literal is the
    character its pattern matches. *)
Definition unescapeHtmlEntities (str : option jsstring) : option jsstring :=
  match str with
  | None => None
  | Some s =>
      if negb (truthy s) then None
      else Some (replaceChar 38 [38%N]
                (replaceChar 39 [39%N]
                (replaceChar 34 [34%N]
                (replaceChar 62 [62%N]
                (replaceChar 60 [60%N] s)))))
  end.

(** Escape special HTML characters (same remark). *)
Definition escapeHtml (unsafe : option jsstring) : jsstring :=
  match unsafe with
  | None => []
  | Some s =>
      if negb (truthy s) then []
      else replaceChar 39 [39%N]
          (replaceChar 34 [34%N]
          (replaceChar 62 [62%N]
          (replaceChar 60 [60%N]
          (replaceChar 38 [38%N] s))))
  end.

(** [a === "lit"] where [a] may be [undefined] *)
Definition isStr (a : option jsstring) (lit : string) : bool :=
  match a with Some s => eqb s (js lit) | None => false end.

(** Extract metadata from META element *)
Definition extractMetadataFromElement (element : Host.Element) : Metadata :=
  let name := toLowerCase <$> Host.getAttribute (js "name") element in
  let property := toLowerCase <$> Host.getAttribute (js "property") element in
  let content := Host.getAttribute (js "content") element in
  match content with
  | None => emptyMetadata
  | Some c =>
      if negb (truthy c) then emptyMetadata
      else
        {| title :=
             if isStr property "og:title" || isStr name "twitter:title"
             then Some c else None;
           byline :=
             if isStr property "og:article:author" || isStr name "author"
             then Some c else None;
           excerpt :=
             if isStr property "og:description" || isStr name "description"
             then Some c else None;
           siteName :=
             if isStr property "og:site_name" then Some c else None;
           publishedTime :=
             if isStr property "article:published_time"
                || isStr name "parsely-pub-date"
             then Some c else None;
           lang := None; dir := None; jsonLd := None |}
  end.

(** ** Helper functions for Phase 2 *)

Definition getElementInfo (k : Z) (store : ElementStore) : option ElementInfo :=
  storeGet k store.

Definition getParentId (k : Z) (store : ElementStore) : option Z :=
  match getElementInfo k store with
  | Some info => parentId info
  | None => None
  end.

(** The [while] loop of [getAncestorIds]; [depth] counts the ancestors
    already pushed. With [maxDepth <= 0] the walk is unbounded. *)
Fixpoint ancestorsLoop (fuel : nat) (store : ElementStore) (maxDepth : Z)
    (currentId : Z) (depth : Z) : option (list Z) :=
  if (maxDepth <=? 0)%Z || (depth <? maxDepth)%Z then
    match getParentId currentId store with
    | Some p =>
        match fuel with
        | O => None
        | S fuel' =>
            rest ← ancestorsLoop fuel' store maxDepth p (depth + 1);
            Some (p :: rest)
        end
    | None => Some []
    end
  else Some [].

Definition getAncestorIds (fuel : nat) (k : Z) (store : ElementStore)
    (maxDepth : Z) : option (list Z) :=
  ancestorsLoop fuel store maxDepth k 0.

(** [children.sort((a, b) => a - b)] *)
Fixpoint insertAsc (x : Z) (l : list Z) : list Z :=
  match l with
  | [] => [x]
  | y :: r => if (x <? y)%Z then x :: l else y :: insertAsc x r
  end.

Definition sortAsc (l : list Z) : list Z :=
  fold_left (fun acc x => insertAsc x acc) l [].

Definition getChildrenIds (parent : Z) (store : ElementStore) : list Z :=
  sortAsc
    (List.map fst
       (List.filter
          (fun p => match parentId (snd p) with
                    | Some q => Z.eqb q parent
                    | None => false
                    end) store)).

Fixpoint getDescendantIds (fuel : nat) (k : Z) (store : ElementStore)
    : option (list Z) :=
  match fuel with
  | O => None
  | S fuel' =>
      foldM (fun descendants childId =>
               sub ← getDescendantIds fuel' childId store;
               Some (descendants ++ childId :: sub))
            (getChildrenIds k store) []
  end.

Definition getInnerText (k : Z) (store : ElementStore) (normalizeSpaces : bool)
    : jsstring :=
  let text :=
    match getElementInfo k store with
    | Some info => default [] (finalTextContent info)
    | None => []
    end in
  if normalizeSpaces then trim (collapseSpaces text) else trim text.

Definition isVisible (info : option ElementInfo) : bool :=
  match info with Some i => isVisibleBasedOnAttrs i | None => false end.

Fixpoint getTotalVisibleInnerText (fuel : nat) (k : Z) (store : ElementStore)
    (normalizeSpaces : bool) : option jsstring :=
  match fuel with
  | O => None
  | S fuel' =>
      let info := getElementInfo k store in
      let own := if isVisible info then getInnerText k store normalizeSpaces
                 else [] in
      totalText ←
        foldM (fun totalText childId =>
                 sub ← getTotalVisibleInnerText fuel' childId store
                          normalizeSpaces;
                 Some (totalText ++ 32%N :: sub))
              (getChildrenIds k store) own;
      Some (if normalizeSpaces then trim (collapseSpaces totalText)
            else trim totalText)
  end.

(** The string [`${className} ${elementIdAttr}`] *)
Definition classAndId (info : ElementInfo) : jsstring :=
  default [] (attributes info !! js "class") ++ 32%N ::
  default [] (attributes info !! js "id").

(** Calculate weight based on class/ID *)
Definition getClassWeight (k : Z) (store : ElementStore) : Z :=
  match getElementInfo k store with
  | None => 0
  | Some info =>
      let weight := 0%Z in
      let weight := if test NEGATIVE_REGEX (classAndId info)
                    then (weight - 25)%Z else weight in
      let weight := if test POSITIVE_REGEX (classAndId info)
                    then (weight + 25)%Z else weight in
      weight
  end.

(** The literal [0.3], written as the binary64 value it denotes. *)
Definition coefficientFragment : float := 0x1.3333333333333p-2%float.

(** Calculate link density (considering only visible links) *)
Definition getLinkDensity (fuel : nat) (k : Z) (store : ElementStore)
    : option float :=
  text ← getTotalVisibleInnerText fuel k store true;
  let textLength := length text in
  if Z.eqb textLength 0 then Some 0%float
  else
    descendants ← getDescendantIds fuel k store;
    linkLength ←
      foldM (fun (linkLength : float) descendantId =>
               match getElementInfo descendantId store with
               | Some descInfo =>
                   if isVisibleBasedOnAttrs descInfo
                      && eqb (tagName descInfo) (js "A")
                   then
                     let coefficient :=
                       match attributes descInfo !! js "href" with
                       | Some href =>
                           if startsWith (js "#") href then coefficientFragment
                           else 1%float
                       | None => 1%float
                       end in
                     t ← getTotalVisibleInnerText fuel descendantId store
                            true;
                     Some (linkLength + ofZ (length t) * coefficient)%float
                   else Some linkLength
               | None => Some linkLength
               end)
            (k :: descendants) 0%float;
    Some (linkLength / ofZ textLength)%float.

(** The tag bias of [initializeNodeScore] as exported by utils.ts. *)
Definition tagBias (tag : jsstring) : float :=
  if has (List.map js ["ARTICLE"; "DIV"]%string) tag then 5%float
  else if has (List.map js ["PRE"; "TD"; "BLOCKQUOTE"]%string) tag then 3%float
  else if has (List.map js ["ADDRESS"; "OL"; "UL"; "DL"; "DD"; "DT"; "LI";
                            "FORM"]%string) tag then (-3)%float
  else if has (List.map js ["H1"; "H2"; "H3"; "H4"; "H5"; "H6"; "TH"]%string)
              tag then (-5)%float
  else 0%float.

(** Initialize node score (the exported function of utils.ts). *)
Definition initializeNodeScore (k : Z) (store : ElementStore) : ElementStore :=
  match getElementInfo k store with
  | None => store
  | Some info =>
      match readability info with
      | Some _ => store
      | None =>
          let score := (0 + tagBias (tagName info))%float in
          let score := (score + ofZ (getClassWeight k store))%float in
          storeUpdate k (withReadability (Some score)) store
      end
  end.

(** Check if it's an unlikely candidate *)
Definition isUnlikelyCandidate (k : Z) (store : ElementStore) : bool :=
  match getElementInfo k store with
  | None => true
  | Some info =>
      let matchString := classAndId info in
      if has UNLIKELY_ROLES (default [] (role info)) then true
      else if test UNLIKELY_CANDIDATES_REGEX matchString
              && negb (test OK_MAYBE_ITS_A_CANDIDATE_REGEX matchString)
              && negb (eqb (tagName info) (js "BODY"))
              && negb (eqb (tagName info) (js "ARTICLE"))
           then true
           else false
  end.

End Utils.

Import Utils.

(* ===================================================================== *)
(** * phase1-handler.ts *)
(* ===================================================================== *)

Module Phase1.

(** The handler's state. [elementStore], [metadataStore] and the counter
    behind [generateElementId] (the closure [() => ++this.elementCounter])
    are owned by the caller and shared with it. [elementStack] is kept with
    its top first. The [debugEnabled] flag only drives logging. *)
Record Phase1Handler := {
  elementStore : ElementStore;
  metadataStore : Metadata;
  elementCounter : Z;
  maxElemsToParse : Z;
  elementStack : list Z;
  elementCount : Z;
  lastTextChunkMap : gmap Z (list N)
}.

(** [new Phase1Handler(elementStore, metadataStore, idGenerator, debug, max)] *)
Definition new (store : ElementStore) (meta : Metadata) (counter : Z)
    (maxElems : option Z) : Phase1Handler :=
  {| elementStore := store; metadataStore := meta; elementCounter := counter;
     maxElemsToParse := default 0%Z maxElems;
     elementStack := []; elementCount := 0;
     lastTextChunkMap := ∅ |}.

(** Get the ID of the currently processing element (top of stack) *)
Definition getCurrentElementIdFromStack (h : Phase1Handler) : option Z :=
  match elementStack h with
  | [] => None
  | top :: _ => Some top
  end.

(** Truthiness of an optional string property. *)
Definition isSet (o : option jsstring) : bool :=
  match o with Some s => truthy s | None => false end.

(** One round of the [for (const key in extractedMeta)] loop: a key present
    in the extracted record is stored only while the slot is still falsy. *)
Definition mergeField (current extracted : option jsstring) : option jsstring :=
  match extracted with
  | None => current
  | Some _ => if isSet current then current
              else unescapeHtmlEntities extracted
  end.

Definition mergeMetadata (m extracted : Metadata) : Metadata :=
  {| title := mergeField (title m) (title extracted);
     byline := mergeField (byline m) (byline extracted);
     excerpt := mergeField (excerpt m) (excerpt extracted);
     siteName := mergeField (siteName m) (siteName extracted);
     publishedTime := mergeField (publishedTime m) (publishedTime extracted);
     lang := lang m; dir := dir m; jsonLd := jsonLd m |}.

Definition withLangDir (l d : option jsstring) (m : Metadata) : Metadata :=
  {| title := title m; byline := byline m; excerpt := excerpt m;
     siteName := siteName m; publishedTime := publishedTime m;
     lang := l; dir := d; jsonLd := jsonLd m |}.

Definition withTitle (t : option jsstring) (m : Metadata) : Metadata :=
  {| title := t; byline := byline m; excerpt := excerpt m;
     siteName := siteName m; publishedTime := publishedTime m;
     lang := lang m; dir := dir m; jsonLd := jsonLd m |}.

(** The [attributes] object built from the element's attribute list. *)
Definition collectAttributes (el : Host.Element) : ElementAttributes :=
  fold_left (fun attrs kv => <[toLowerCase (fst kv) := snd kv]> attrs)
            (Host.attributes el) ∅.

(** [attributes.style?.includes(needle) !== true] *)
Definition styleLacks (attrs : ElementAttributes) (needle : string) : bool :=
  match attrs !! js "style" with
  | Some st => negb (includes (js needle) st)
  | None => true
  end.

(** [a !== "lit"] where [a] may be [null] or [undefined] *)
Definition isNot (a : option jsstring) (lit : string) : bool :=
  negb (isStr a lit).

(** Tags that are not recorded at all. *)
Definition isSkipped (tag : jsstring) (el : Host.Element) : bool :=
  eqb tag (js "SCRIPT") || eqb tag (js "STYLE") || eqb tag (js "NOSCRIPT")
  || eqb tag (js "IFRAME")
  || (eqb tag (js "LINK")
      && isStr (Host.getAttribute (js "rel") el) "stylesheet").

(** The record written to the store for a start tag. *)
Definition newElementInfo (elementId : Z) (parent : option Z) (tag : jsstring)
    (el : Host.Element) : ElementInfo :=
  let attrs := collectAttributes el in
  {| id := elementId;
     parentId := parent;
     tagName := tag;
     attributes := attrs;
     textChunks := Some [];
     finalTextContent := Some [];
     isVisibleBasedOnAttrs :=
       match Host.getAttribute (js "hidden") el with
       | None => true | Some _ => false end
       && styleLacks attrs "display: none"
       && styleLacks attrs "visibility: hidden"
       && isNot (Host.getAttribute (js "aria-hidden") el) "true";
     role := Host.getAttribute (js "role") el;
     isDataTableLikely :=
       eqb tag (js "TABLE")
       && isNot (attrs !! js "role") "presentation"
       && isNot (attrs !! js "datatable") "0";
     isCodeBlock := eqb tag (js "PRE");
     readability := None |}.

Definition setCount (n : Z) (h : Phase1Handler) : Phase1Handler :=
  {| elementStore := elementStore h; metadataStore := metadataStore h;
     elementCounter := elementCounter h; maxElemsToParse := maxElemsToParse h;
     elementStack := elementStack h; elementCount := n;
     lastTextChunkMap := lastTextChunkMap h |}.

(** Process element start tag *)
Definition element (el : Host.Element) (h : Phase1Handler) : Phase1Handler :=
  if (0 <? maxElemsToParse h)%Z && (maxElemsToParse h <=? elementCount h)%Z
  then h
  else
    let h := setCount (elementCount h + 1)%Z h in
    let tag := toUpperCase (Host.tagName el) in
    (* Skip unnecessary elements *)
    if isSkipped tag el then h
    else
      (* Prepare and store element information *)
      let elementId := (elementCounter h + 1)%Z in
      let parent := getCurrentElementIdFromStack h in
      let store := storeSet elementId (newElementInfo elementId parent tag el)
                     (elementStore h) in
      let chunks := delete elementId (lastTextChunkMap h) in
      (* Process specific tags. For IMG, PICTURE and FIGURE only the host's
         element is rewritten (lazy-load promotion); the record keeps the
         attributes read above. *)
      let meta :=
        if eqb tag (js "IMG") || eqb tag (js "PICTURE") || eqb tag (js "FIGURE")
        then metadataStore h
        else if eqb tag (js "META")
        then mergeMetadata (metadataStore h) (extractMetadataFromElement el)
        else if eqb tag (js "HTML")
        then withLangDir (Host.getAttribute (js "lang") el)
                         (Host.getAttribute (js "dir") el) (metadataStore h)
        else metadataStore h in
      if negb (has VOID_ELEMENTS tag) then
        (* Push current element ID to stack and register the end tag handler;
           when the registration throws the element is popped again. *)
        if Host.onEndTagThrows el then
          {| elementStore := store; metadataStore := meta;
             elementCounter := elementId;
             maxElemsToParse := maxElemsToParse h;
             elementStack := elementStack h;
             elementCount := elementCount h;
             lastTextChunkMap := delete elementId chunks |}
        else
          {| elementStore := store; metadataStore := meta;
             elementCounter := elementId;
             maxElemsToParse := maxElemsToParse h;
             elementStack := elementId :: elementStack h;
             elementCount := elementCount h;
             lastTextChunkMap := chunks |}
      else
        (* Process void elements *)
        {| elementStore :=
             storeUpdate elementId
               (fun i => withText None (finalTextContent i) i) store;
           metadataStore := meta;
           elementCounter := elementId;
           maxElemsToParse := maxElemsToParse h;
           elementStack := elementStack h;
           elementCount := elementCount h;
           lastTextChunkMap := delete elementId chunks |}.

(** The end tag handler registered by [element]. *)
Definition onEndTag (h : Phase1Handler) : Phase1Handler :=
  match elementStack h with
  | [] => h
  | finishedElementId :: rest =>
      (* Delete from Map when finished *)
      let chunks := delete finishedElementId (lastTextChunkMap h) in
      match storeGet finishedElementId (elementStore h) with
      | Some info =>
          (* Combine text chunks and store in finalTextContent *)
          let final := List.concat (default [] (textChunks info)) in
          {| elementStore :=
               storeUpdate finishedElementId (withText None (Some final))
                 (elementStore h);
             metadataStore :=
               if eqb (tagName info) (js "TITLE")
                  && negb (isSet (title (metadataStore h)))
               then withTitle (unescapeHtmlEntities (Some (trim final)))
                              (metadataStore h)
               else metadataStore h;
             elementCounter := elementCounter h;
             maxElemsToParse := maxElemsToParse h;
             elementStack := rest;
             elementCount := elementCount h;
             lastTextChunkMap := chunks |}
      | None =>
          {| elementStore := elementStore h;
             metadataStore := metadataStore h;
             elementCounter := elementCounter h;
             maxElemsToParse := maxElemsToParse h;
             elementStack := rest;
             elementCount := elementCount h;
             lastTextChunkMap := chunks |}
      end
  end.

(** [lastChunk !== newChunk], where [lastChunk] is [undefined] when the map
    has no entry. *)
Definition differs (lastChunk : option jsstring) (newChunk : jsstring) : bool :=
  match lastChunk with
  | Some c => negb (eqb c newChunk)
  | None => true
  end.

(** Text chunk processing *)
Definition text (newChunk : jsstring) (h : Phase1Handler) : Phase1Handler :=
  let significantText := (0 <? length (trim newChunk))%Z in
  match getCurrentElementIdFromStack h with
  | Some currentElementId =>
      if significantText then
        match storeGet currentElementId (elementStore h) with
        | Some currentInfo =>
            if negb (has VOID_ELEMENTS (tagName currentInfo)) then
              (* Duplicate check *)
              let lastChunk := lastTextChunkMap h !! currentElementId in
              if differs lastChunk newChunk then
                {| elementStore :=
                     storeUpdate currentElementId
                       (fun i => withText
                                   (Some (default [] (textChunks i) ++ [newChunk]))
                                   (finalTextContent i) i)
                       (elementStore h);
                   metadataStore := metadataStore h;
                   elementCounter := elementCounter h;
                   maxElemsToParse := maxElemsToParse h;
                   elementStack := elementStack h;
                   elementCount := elementCount h;
                   lastTextChunkMap :=
                     <[currentElementId := newChunk]> (lastTextChunkMap h) |}
              else h
            else h
        | None => h
        end
      else h
  | None => h
  end.

(** Process document end *)
Definition end_ (h : Phase1Handler) : Phase1Handler :=
  {| elementStore := elementStore h; metadataStore := metadataStore h;
     elementCounter := elementCounter h; maxElemsToParse := maxElemsToParse h;
     elementStack := elementStack h; elementCount := elementCount h;
     lastTextChunkMap := ∅ |}.

(** The callbacks the host invokes, in document order. [EndTag] is the
    firing of an end tag handler registered by [element]. *)
Inductive Event :=
| StartTag (el : Host.Element)
| Text (chunk : jsstring)
| EndTag
| DocumentEnd.

Definition step (h : Phase1Handler) (e : Event) : Phase1Handler :=
  match e with
  | StartTag el => element el h
  | Text chunk => text chunk h
  | EndTag => onEndTag h
  | DocumentEnd => end_ h
  end.

Definition run (events : list Event) (h : Phase1Handler) : Phase1Handler :=
  fold_left step events h.

End Phase1.

(* ===================================================================== *)
(** * phase2-scorer.ts *)
(* ===================================================================== *)

Module Phase2.

Record ScoringOptions := {
  nbTopCandidates : option Z;      (* default 5 *)
  charThreshold : option Z;        (* default 500 *)
  linkDensityModifier : option Z   (* default 0 *)
}.

Record ScoringResult := {
  topCandidateId : option Z;
  elementsToKeepIds : list Z
}.

(** The result [{ topCandidateId: null, elementsToKeepIds: [] }] *)
Definition emptyResult : ScoringResult :=
  {| topCandidateId := None; elementsToKeepIds := [] |}.

(** Truthiness of a [number | null] that holds an identifier. *)
Definition truthyId (k : option Z) : bool :=
  match k with Some z => negb (Z.eqb z 0) | None => false end.

(** The tag bias of the scorer's own [initializeNodeScore]. *)
Definition tagBias (tag : jsstring) : float :=
  if eqb tag (js "ARTICLE") || eqb tag (js "DIV") then 5%float
  else if eqb tag (js "PRE") || eqb tag (js "TD") || eqb tag (js "BLOCKQUOTE")
  then 3%float
  else if eqb tag (js "ADDRESS") then (-3)%float
  else if eqb tag (js "H1") then (-5)%float
  else 0%float.

(** The score a node starts with. *)
Definition initialScore (k : Z) (info : ElementInfo) (store : ElementStore)
    : float :=
  ((0 + tagBias (tagName info)) + ofZ (getClassWeight k store))%float.

(** The scorer's [initializeNodeScore]: the store after the call and the
    score of the returned record ([None] for [undefined]). *)
Definition initializeNodeScore (k : Z) (store : ElementStore)
    : ElementStore * option float :=
  match getElementInfo k store with
  | None => (store, None)
  | Some info =>
      match readability info with
      | Some _ => (store, None)
      | None =>
          let score := initialScore k info store in
          (storeUpdate k (withReadability (Some score)) store, Some score)
      end
  end.

(** [contentScore] of a scored element with normalised own text [innerText] *)
Definition contentScore (innerText : jsstring) : Z :=
  1 + Z.of_nat (List.length (splitOn isComma [] innerText))
    + Z.min (length innerText / 100) 3.

(** ** 1. Identify elements to score *)
Definition elementsToScoreIds (store : ElementStore) : list Z :=
  List.filter
    (fun k =>
       match getElementInfo k store with
       | None => false
       | Some info =>
           isVisibleBasedOnAttrs info
           && negb (isUnlikelyCandidate k store)
           && has DEFAULT_TAGS_TO_SCORE (tagName info)
       end)
    (List.map fst store).

(** [set.add(x)] / [map.set(x, _)] on an insertion-ordered collection of
    identifiers given by its keys *)
Definition setAdd (x : Z) (l : list Z) : list Z :=
  if existsb (Z.eqb x) l then l else l ++ [x].

Definition scoreDivider (level : Z) : Z :=
  if Z.eqb level 0 then 1 else if Z.eqb level 1 then 2 else level * 3.

(** The body of [ancestorIds.forEach]: the state is the store and the keys
    of the [candidates] map, whose values alias the store's records. *)
Definition propagate (score : Z) (st : ElementStore * list Z)
    (ancestorId : Z) (level : Z) : ElementStore * list Z :=
  let '(store, candidates) := st in
  match getElementInfo ancestorId store with
  | None => st
  | Some ancestorInfo =>
      if negb (isVisibleBasedOnAttrs ancestorInfo)
         || isUnlikelyCandidate ancestorId store
      then st
      else
        let '(store, candidates) :=
          match readability ancestorInfo with
          | Some _ => (store, candidates)
          | None =>
              let '(store', s0) := initializeNodeScore ancestorId store in
              match s0 with
              | Some s =>
                  if (0 <=? s)%float
                  then (store', setAdd ancestorId candidates)
                  else (store', candidates)
              | None => (store', candidates)
              end
          end in
        let store :=
          storeUpdate ancestorId
            (fun i =>
               match readability i with
               | Some s =>
                   withReadability
                     (Some (s + ofZ score / ofZ (scoreDivider level))%float) i
               | None => i
               end) store in
        (store, candidates)
  end.

Fixpoint forEachLevel (score : Z) (st : ElementStore * list Z)
    (ancestorIds : list Z) (level : Z) : ElementStore * list Z :=
  match ancestorIds with
  | [] => st
  | a :: rest =>
      forEachLevel score (propagate score st a level) rest (level + 1)
  end.

(** ** 2. Score elements and propagate to ancestors *)
Definition scoreElement (fuel : nat) (st : ElementStore * list Z)
    (elementId : Z) : option (ElementStore * list Z) :=
  let store := fst st in
  match getElementInfo elementId store with
  | None => Some st
  | Some elementInfo =>
      if negb (isVisibleBasedOnAttrs elementInfo) then Some st
      else
        let innerText := getInnerText elementId store true in
        if (length innerText <? 25)%Z then Some st
        else
          ancestorIds ← getAncestorIds fuel elementId store 5;
          match ancestorIds with
          | [] => Some st
          | _ => Some (forEachLevel (contentScore innerText) st ancestorIds 0)
          end
  end.

Definition scoreElements (fuel : nat) (store : ElementStore)
    : option (ElementStore * list Z) :=
  foldM (scoreElement fuel) (elementsToScoreIds store) (store, []).

(** ** 3. Adjust candidate scores: the store and the entries of
    [candidateScores] *)
Definition adjustCandidate (fuel : nat)
    (st : ElementStore * list (Z * float)) (k : Z)
    : option (ElementStore * list (Z * float)) :=
  let '(store, scores) := st in
  match getElementInfo k store with
  | Some candidateInfo =>
      match readability candidateInfo with
      | Some s =>
          linkDensity ← getLinkDensity fuel k store;
          let finalScore := (s * (1 - linkDensity))%float in
          Some (storeUpdate k (withReadability (Some finalScore)) store,
                scores ++ [(k, finalScore)])
      | None => Some st
      end
  | None => Some st
  end.

Definition adjustCandidates (fuel : nat) (store : ElementStore)
    (candidates : list Z) : option (ElementStore * list (Z * float)) :=
  foldM (adjustCandidate fuel) candidates (store, []).

(** Steps 1 to 3 together. *)
Definition candidateScores (fuel : nat) (store : ElementStore)
    : option (ElementStore * list (Z * float)) :=
  st ← scoreElements fuel store;
  adjustCandidates fuel (fst st) (snd st).

(** ** 4. Select top candidate: [filter(score > 0).sort((a, b) => b[1] - a[1])],
    a stable sort. *)
Fixpoint insertDesc (x : Z * float) (l : list (Z * float)) : list (Z * float) :=
  match l with
  | [] => [x]
  | y :: r =>
      if (0 <? snd x - snd y)%float then x :: l else y :: insertDesc x r
  end.

Definition sortedCandidates (scores : list (Z * float)) : list (Z * float) :=
  fold_left (fun acc x => insertDesc x acc)
            (List.filter (fun e => (0 <? snd e)%float) scores) [].

(** The score an element currently holds, [-1] when it has none. *)
Definition scoreOr (dflt : float) (info : option ElementInfo) : float :=
  match info with
  | Some i => default dflt (readability i)
  | None => dflt
  end.

(** ** 5. Candidate improvement logic (traverse up to parent) *)
Fixpoint climbByScore (fuel : nat) (store : ElementStore)
    (currentCandidateId : Z) (currentScore : float) (parent : option Z)
    : option (Z * float) :=
  match parent with
  | Some p =>
      if negb (Z.eqb p 0) then
        let parentScore := scoreOr (-1)%float (getElementInfo p store) in
        if (parentScore <? currentScore / 3)%float
        then Some (currentCandidateId, currentScore)
        else if (currentScore <? parentScore)%float then
          match fuel with
          | O => None
          | S fuel' =>
              climbByScore fuel' store p parentScore (getParentId p store)
          end
        else Some (currentCandidateId, currentScore)
      else Some (currentCandidateId, currentScore)
  | None => Some (currentCandidateId, currentScore)
  end.

(** The single child loop. *)
Fixpoint climbSoleChild (fuel : nat) (store : ElementStore)
    (topCandidateId : Z) (parent : option Z)
    (topCandidateInfo : option ElementInfo) : option Z :=
  match parent, topCandidateInfo with
  | Some p, Some info =>
      if negb (Z.eqb p 0) && negb (eqb (tagName info) (js "BODY")) then
        let parentChildren := getChildrenIds p store in
        if Nat.eqb (List.length parentChildren) 1 then
          match fuel with
          | O => None
          | S fuel' =>
              climbSoleChild fuel' store p (getParentId p store)
                (getElementInfo p store)
          end
        else Some topCandidateId
      else Some topCandidateId
  | _, _ => Some topCandidateId
  end.

(** [Math.max(a, b)] *)
Definition fmax (a b : float) : float :=
  if PrimFloat.is_nan a || PrimFloat.is_nan b then nan
  else if (a <? b)%float then b else a.

(** The literal [0.2], written as the binary64 value it denotes. *)
Definition siblingFactor : float := 0x1.999999999999ap-3%float.

(** Adding an element and its descendants to [elementsToKeepIdsSet]. *)
Definition keepSubtree (fuel : nat) (store : ElementStore) (keep : list Z)
    (k : Z) : option (list Z) :=
  descendants ← getDescendantIds fuel k store;
  Some (fold_left (fun acc d => setAdd d acc) descendants (setAdd k keep)).

(** ** 6. Combine sibling elements *)
Definition combineSiblings (fuel : nat) (store : ElementStore)
    (topCandidateId : Z) (topCandidateScore : float) : option (list Z) :=
  let finalTopCandidateParentId := getParentId topCandidateId store in
  match finalTopCandidateParentId with
  | Some parent =>
      if negb (Z.eqb parent 0) && negb (Z.eqb topCandidateId 0) then
        let siblings := getChildrenIds parent store in
        let siblingScoreThreshold :=
          fmax 10%float (topCandidateScore * siblingFactor)%float in
        foldM (fun keep siblingId =>
                 match getElementInfo siblingId store with
                 | None => Some keep
                 | Some siblingInfo =>
                     if negb (isVisibleBasedOnAttrs siblingInfo) then Some keep
                     else
                       let append :=
                         if Z.eqb siblingId topCandidateId then true
                         else
                           let siblingScore :=
                             scoreOr 0%float (Some siblingInfo) in
                           let contentBonus := 0%float in
                           (siblingScoreThreshold <=?
                              siblingScore + contentBonus)%float in
                       if append then keepSubtree fuel store keep siblingId
                       else Some keep
                 end)
              siblings []
      else if negb (Z.eqb topCandidateId 0)
      then keepSubtree fuel store [] topCandidateId
      else Some []
  | None =>
      if negb (Z.eqb topCandidateId 0)
      then keepSubtree fuel store [] topCandidateId
      else Some []
  end.

(** ** 7. Check character count *)
Definition totalTextLength (store : ElementStore) (keep : list Z) : Z :=
  fold_left
    (fun total k =>
       if isVisible (getElementInfo k store)
       then (total + length (getInnerText k store true))%Z
       else total)
    keep 0%Z.

(** ** 4 to 6. Selection of the candidate and of the elements to keep from
    the adjusted scores; the inner [None] says that no candidate has a
    positive score. *)
Definition selectCandidate (fuel : nat) (store : ElementStore)
    (scores : list (Z * float)) : option (option (Z * list Z)) :=
  match sortedCandidates scores with
  | [] => Some None
  | (topId, topScore) :: _ =>
      climbed ← climbByScore fuel store topId topScore (getParentId topId store);
      let '(topCandidateId, topCandidateScore) := climbed in
      topCandidateId ←
        climbSoleChild fuel store topCandidateId
          (getParentId topCandidateId store)
          (getElementInfo topCandidateId store);
      keep ← combineSiblings fuel store topCandidateId topCandidateScore;
      Some (Some (topCandidateId, keep))
  end.

(** ** Main function. The result comes with the store, whose records the
    scorer has updated in place. *)
Definition calculateScoresAndFindBestCandidate (fuel : nat)
    (elementStore : ElementStore) (options : ScoringOptions)
    : option (ScoringResult * ElementStore) :=
  let threshold := default CHAR_THRESHOLD (charThreshold options) in
  st ← candidateScores fuel elementStore;
  let '(store, scores) := st in
  selected ← selectCandidate fuel store scores;
  match selected with
  | None => Some (emptyResult, store)
  | Some (topCandidateId, keep) =>
      if (totalTextLength store keep <? threshold)%Z
      then Some (emptyResult, store)
      else Some ({| topCandidateId := Some topCandidateId;
                    elementsToKeepIds := keep |}, store)
  end.

End Phase2.

(* ===================================================================== *)
(** * markdown-converter.ts *)
(* ===================================================================== *)

Module Markdown.

(** The host's [URL] object, as far as the converter uses it: [resolve rel]
    is [new URL(rel, this).href], [None] when the constructor throws. *)
Record URL := {
  href : jsstring;
  resolve : jsstring -> option jsstring
}.

(** The character class of the escaping regular expression:
    backslash, backtick, [*], [_], braces, brackets, parentheses, [#], [+],
    [.], [!] and [-]. *)
Definition isMarkdownSpecial (c : char) : bool :=
  existsb (N.eqb c)
    [92; 96; 42; 95; 123; 125; 91; 93; 40; 41; 35; 43; 46; 33; 45]%N.

(** [s.replace(/([\\`*_{}[\]()#+.!-])/g, '\\$1')] *)
Definition escapeMarkdown (s : jsstring) : jsstring :=
  List.concat
    (List.map (fun c => if isMarkdownSpecial c then [92%N; c] else [c]) s).

Fixpoint takeNonSpace (s : jsstring) : jsstring :=
  match s with
  | [] => []
  | c :: r => if isWhiteSpace c then [] else c :: takeNonSpace r
  end.

(** [s.match(/language-(\S+)/)]: the first capture group of the leftmost
    match, if any. *)
Fixpoint matchLanguage (s : jsstring) : option jsstring :=
  let here :=
    if startsWith (js "language-") s
    then match takeNonSpace (skipn 9 s) with
         | [] => None
         | cap => Some cap
         end
    else None in
  match here with
  | Some cap => Some cap
  | None =>
      match s with
      | [] => None
      | _ :: r => matchLanguage r
      end
  end.

(** [lines.map((line, index) => index > 0 ? indent + line.trim() : line.trim())] *)
Definition indentContinuation (itemIndent : jsstring) (lines : list jsstring)
    : list jsstring :=
  match lines with
  | [] => []
  | first :: rest => trim first :: List.map (fun l => itemIndent ++ trim l) rest
  end.

(** [children.forEach((childId, index) => ...)] accumulating the rendering *)
Fixpoint forEachChild (f : Z -> Z -> option jsstring) (children : list Z)
    (index : Z) (acc : jsstring) : option jsstring :=
  match children with
  | [] => Some acc
  | c :: rest =>
      md ← f c index;
      forEachChild f rest (index + 1) (acc ++ md)
  end.

Section Converter.

(** The fields of a [MarkdownConverter]; [elementsToKeepIdsSet] is given by
    its elements. *)
Variable elementStore : ElementStore.
Variable elementsToKeepIdsSet : list Z.
Variable baseURI : URL.

(** Resolution of a relative reference; on failure the value is kept. *)
Definition resolveOrKeep (ref : jsstring) : jsstring :=
  default ref (resolve baseURI ref).

Definition NL : jsstring := [10%N].

(** The [switch (tagName)] of [convertNodeRecursive], given the element's
    record, the rendering of its children and its escaped own text. *)
Definition renderTag (k : Z) (info : ElementInfo) (children : list Z)
    (childrenMarkdown elementText listIndent : jsstring)
    (isListOrdered : bool) (listItemNumber : Z) : jsstring :=
  let tag := tagName info in
  let heading (hashes : string) :=
    listIndent ++ js hashes ++ elementText ++ childrenMarkdown ++ NL ++ NL in
  if eqb tag (js "P") then
    let pContent := trim (elementText ++ childrenMarkdown) in
    if truthy pContent then listIndent ++ pContent ++ NL ++ NL else []
  else if eqb tag (js "H1") then heading "# "%string
  else if eqb tag (js "H2") then heading "## "%string
  else if eqb tag (js "H3") then heading "### "%string
  else if eqb tag (js "H4") then heading "#### "%string
  else if eqb tag (js "H5") then heading "##### "%string
  else if eqb tag (js "H6") then heading "###### "%string
  else if eqb tag (js "UL") || eqb tag (js "OL") then
    if startsWith NL childrenMarkdown then childrenMarkdown
    else NL ++ childrenMarkdown
  else if eqb tag (js "LI") then
    let marker := if isListOrdered then ofInteger listItemNumber ++ js "."
                  else js "*" in
    let liContent := trim (elementText ++ childrenMarkdown) in
    let itemIndent := listIndent ++ js "  " in
    let liContent :=
      join NL (indentContinuation itemIndent
                 (splitOn (N.eqb 10) [] liContent)) in
    listIndent ++ marker ++ js " " ++ liContent ++ NL
  else if eqb tag (js "A") then
    let href0 := default [] (attributes info !! js "href") in
    let href1 :=
      if truthy href0 && negb (startsWith (js "http") href0)
         && negb (startsWith (js "#") href0)
         && negb (startsWith (js "mailto:") href0)
         && negb (startsWith (js "tel:") href0)
      then resolveOrKeep href0 else href0 in
    let linkText := if truthy (trim childrenMarkdown)
                    then trim childrenMarkdown else elementText in
    js "[" ++ escapeMarkdown linkText ++ js "](" ++ href1 ++ js ")"
  else if eqb tag (js "IMG") then
    let src0 := default [] (attributes info !! js "src") in
    let src1 :=
      if truthy src0 && negb (startsWith (js "http") src0)
         && negb (startsWith (js "data:") src0)
      then resolveOrKeep src0 else src0 in
    let alt := default [] (attributes info !! js "alt") in
    let title :=
      match attributes info !! js "title" with
      | Some t => if truthy t
                  then [32%N; 34%N] ++ escapeHtml (Some t) ++ [34%N]
                  else []
      | None => []
      end in
    listIndent ++ js "![" ++ escapeMarkdown alt ++ js "](" ++ src1 ++ title
      ++ js ")" ++ NL ++ NL
  else if eqb tag (js "PRE") then
    (* Find CODE element within PRE *)
    let codeChild :=
      List.find (fun c => match c with
                          | Some cinfo => eqb (tagName cinfo) (js "CODE")
                          | None => false
                          end)
                (List.map (fun cid => storeGet cid elementStore) children) in
    let '(codeContent, lang) :=
      match codeChild with
      | Some (Some cinfo) =>
          (getInnerText (id cinfo) elementStore false,
           match attributes cinfo !! js "class" with
           | Some cls => default [] (matchLanguage cls)
           | None => []
           end)
      | _ => (getInnerText k elementStore false, [])
      end in
    listIndent ++ js "```" ++ lang ++ NL ++ trim codeContent ++ NL
      ++ listIndent ++ js "```" ++ NL ++ NL
  else if eqb tag (js "CODE") then
    if negb (isCodeBlock info)
    then js "`" ++ trim (elementText ++ childrenMarkdown) ++ js "`"
    else []
  else if eqb tag (js "STRONG") || eqb tag (js "B") then
    js "**" ++ elementText ++ childrenMarkdown ++ js "**"
  else if eqb tag (js "EM") || eqb tag (js "I") then
    js "*" ++ elementText ++ childrenMarkdown ++ js "*"
  else if eqb tag (js "BLOCKQUOTE") then
    let bqContent := trim (elementText ++ childrenMarkdown) in
    join NL (List.map (fun line => listIndent ++ js "> " ++ trim line)
                      (splitOn (N.eqb 10) [] bqContent))
      ++ NL ++ NL
  else if eqb tag (js "HR") then listIndent ++ js "---" ++ NL ++ NL
  else if eqb tag (js "BR") then js "  " ++ NL
  else if has (List.map js ["DIV"; "SPAN"; "SECTION"; "ARTICLE"; "FIGURE";
                            "FIGCAPTION"; "HEADER"; "FOOTER"; "ASIDE";
                            "NAV"]%string) tag
  then elementText ++ childrenMarkdown
  else if negb (has VOID_ELEMENTS tag) then elementText ++ childrenMarkdown
  else [].

(** Recursively converts the element with the specified ID and its
    descendants to a Markdown string. [listLevel] is the current nesting
    level of the list, [isListOrdered] says whether the direct parent is an
    OL and [listItemNumber] is the number of this LI inside an OL. *)
Fixpoint convertNodeRecursive (fuel : nat) (k : Z) (listLevel : Z)
    (isListOrdered : bool) (listItemNumber : Z) : option jsstring :=
  match fuel with
  | O => None
  | S fuel' =>
      match storeGet k elementStore with
      | None => Some []
      | Some info =>
          if negb (existsb (Z.eqb k) elementsToKeepIdsSet) then Some []
          else
            let tag := tagName info in
            (* Generate Markdown for child elements first *)
            let children := getChildrenIds k elementStore in
            let isList := eqb tag (js "UL") || eqb tag (js "OL")
                          || eqb tag (js "LI") in
            let nextLevel := if isList then (listLevel + 1)%Z else 0%Z in
            let isNextListOrdered := eqb tag (js "OL") in
            childrenMarkdown ←
              forEachChild
                (fun childId index =>
                   convertNodeRecursive fuel' childId nextLevel
                     isNextListOrdered
                     (if eqb tag (js "OL") then (index + 1)%Z else 1%Z))
                children 0%Z [];
            (* Get and escape the element's own direct text *)
            let rawDirectText := getInnerText k elementStore false in
            let elementText :=
              if truthy rawDirectText then escapeMarkdown rawDirectText
              else [] in
            (* List element indentation *)
            let listIndent :=
              repeat (js "  ")
                (Z.to_nat (if (0 <? listLevel)%Z then listLevel - 1 else 0)) in
            Some (renderTag k info children childrenMarkdown elementText
                    listIndent isListOrdered listItemNumber)
      end
  end.

(** [convert(rootElementId)] *)
Definition convert (fuel : nat) (rootElementId : option Z) : option jsstring :=
  match rootElementId with
  | None => Some []
  | Some root =>
      markdownOutput ←
        foldM (fun out childId =>
                 md ← convertNodeRecursive fuel childId 0%Z false 1%Z;
                 Some (out ++ md))
              (getChildrenIds root elementStore) [];
      Some (trim (collapseNewlines markdownOutput))
  end.

End Converter.

End Markdown.

(* ===================================================================== *)
(** * html-rewriter-readability.ts *)
(* ===================================================================== *)

Module Readability.

(** The mutable fields of an [HtmlRewriterReadability] instance together
    with its configuration. *)
Record HtmlRewriterReadability := {
  elementStore : ElementStore;
  metadataStore : Metadata;
  elementCounter : Z;
  elementsToKeepIdsSet : list Z;
  options : ReadabilityOptions;
  baseURI : Markdown.URL
}.

Definition defaultOptions : ReadabilityOptions :=
  {| maxElemsToParse := Some 0%Z;
     nbTopCandidates := Some 5%Z;
     charThreshold := Some 500%Z;
     linkDensityModifier := Some 0%Z |}.

(** The spread [{ ...defaultOptions, ...options }]: a key the caller does
    not supply keeps its default. *)
Definition mergeOptions (o : ReadabilityOptions) : ReadabilityOptions :=
  let pick (given dflt : option Z) :=
    match given with Some _ => given | None => dflt end in
  {| maxElemsToParse :=
       pick (maxElemsToParse o) (maxElemsToParse defaultOptions);
     nbTopCandidates :=
       pick (nbTopCandidates o) (nbTopCandidates defaultOptions);
     charThreshold := pick (charThreshold o) (charThreshold defaultOptions);
     linkDensityModifier :=
       pick (linkDensityModifier o) (linkDensityModifier defaultOptions) |}.

(** The constructor, for a base URI that parsed. *)
Definition new (base : Markdown.URL) (o : ReadabilityOptions)
    : HtmlRewriterReadability :=
  {| elementStore := []; metadataStore := emptyMetadata; elementCounter := 0;
     elementsToKeepIdsSet := []; options := mergeOptions o; baseURI := base |}.

Definition resetState (r : HtmlRewriterReadability) : HtmlRewriterReadability :=
  {| elementStore := []; metadataStore := emptyMetadata; elementCounter := 0;
     elementsToKeepIdsSet := []; options := options r; baseURI := baseURI r |}.

(** [runPhase1]: the handler works on the instance's store, metadata record
    and counter, so its final values are the instance's. *)
Definition runPhase1 (events : list Phase1.Event) (r : HtmlRewriterReadability)
    : HtmlRewriterReadability :=
  let r := resetState r in
  let h := Phase1.run events
             (Phase1.new (elementStore r) (metadataStore r) (elementCounter r)
                (maxElemsToParse (options r))) in
  {| elementStore := Phase1.elementStore h;
     metadataStore := Phase1.metadataStore h;
     elementCounter := Phase1.elementCounter h;
     elementsToKeepIdsSet := elementsToKeepIdsSet r;
     options := options r; baseURI := baseURI r |}.

Definition scoringOptions (o : ReadabilityOptions) : Phase2.ScoringOptions :=
  {| Phase2.nbTopCandidates := nbTopCandidates o;
     Phase2.charThreshold := charThreshold o;
     Phase2.linkDensityModifier := linkDensityModifier o |}.

Definition withStore (store : ElementStore) (keep : list Z)
    (r : HtmlRewriterReadability) : HtmlRewriterReadability :=
  {| elementStore := store; metadataStore := metadataStore r;
     elementCounter := elementCounter r; elementsToKeepIdsSet := keep;
     options := options r; baseURI := baseURI r |}.

Definition runPhase2 (fuel : nat) (r : HtmlRewriterReadability)
    : option (Phase2.ScoringResult * HtmlRewriterReadability) :=
  res ← Phase2.calculateScoresAndFindBestCandidate fuel (elementStore r)
          (scoringOptions (options r));
  Some (fst res, withStore (snd res) (elementsToKeepIdsSet r) r).

Definition convertToMarkdown (fuel : nat) (rootElementId : option Z)
    (r : HtmlRewriterReadability) : option jsstring :=
  match rootElementId with
  | None => Some []
  | Some _ =>
      Markdown.convert (elementStore r) (elementsToKeepIdsSet r) (baseURI r)
        fuel rootElementId
  end.

(** What [process] resolves to: [None] stands for [null]. *)
Record Output := { markdown : jsstring; metadata : Metadata }.

(** [process(response)], where the response is given by the callbacks the
    host makes while it streams it. The outer [option] is [None] when a
    tree walk runs out of fuel. *)
Definition process (fuel : nat) (events : list Phase1.Event)
    (r : HtmlRewriterReadability)
    : option (option Output * HtmlRewriterReadability) :=
  let r := runPhase1 events r in
  p2 ← runPhase2 fuel r;
  let '(result, r) := p2 in
  if negb (Phase2.truthyId (Phase2.topCandidateId result))
     || Nat.eqb (List.length (Phase2.elementsToKeepIds result)) 0
  then Some (None, r)
  else
    let r := withStore (elementStore r) (Phase2.elementsToKeepIds result) r in
    let rootBuildId :=
      match Phase2.topCandidateId result with
      | Some top =>
          match getParentId top (elementStore r) with
          | Some parent => Some parent
          | None => Some top
          end
      | None => None
      end in
    md ← convertToMarkdown fuel rootBuildId r;
    Some (Some {| markdown := md; metadata := metadataStore r |}, r).

End Readability.

(* ===================================================================== *)
(** * Vocabulary of the specifications *)
(* ===================================================================== *)

Section Vocabulary.
Import Phase1.

(** Every record has a positive key not above [M], keys are pairwise
    distinct, and a parent link points to a smaller positive key. *)
Definition WfStore (M : Z) (store : ElementStore) : Prop :=
  NoDup (List.map fst store)
  /\ forall k info, In (k, info) store ->
       (0 < k <= M)%Z
       /\ forall p, parentId info = Some p -> (0 < p < k)%Z.

(** Recursion depth left below [k] in a store whose keys are at most [M]. *)
Definition depthBelow (M k : Z) : nat := Z.to_nat (M + 1 - Z.max k 0).

(** Number of code units of [t] matched by COMMAS_REGEX. *)
Definition commaCount (t : jsstring) : Z :=
  Z.of_nat (List.length (List.filter isComma t)).

(** One round of the single-child loop: [c] is replaced by its parent [p]. *)
Definition soleChildStep (store : ElementStore) (c p : Z) : Prop :=
  getParentId c store = Some p
  /\ p <> 0%Z
  /\ (exists info, getElementInfo c store = Some info
                   /\ eqb (tagName info) (js "BODY") = false)
  /\ List.length (getChildrenIds p store) = 1%nat.

(** The tree-shape invariant of the builder: the store is well formed below
    the id counter and every open element has been created. *)
Definition phaseInv (h : Phase1Handler) : Prop :=
  WfStore (elementCounter h) (elementStore h)
  /\ Forall (fun k => (0 < k <= elementCounter h)%Z) (elementStack h)
  /\ (0 <= elementCounter h)%Z.

Definition capInv (N d : Z) (h : Phase1Handler) : Prop :=
  maxElemsToParse h = N
  /\ (Z.of_nat (List.length (elementStore h)) + d <= elementCount h)%Z
  /\ (elementCount h <= N)%Z.

Definition appendChunk (c : jsstring) (i : ElementInfo) : ElementInfo :=
  withText (Some (default [] (textChunks i) ++ [c])) (finalTextContent i) i.

(** The state in which [text] leaves the handler when it records a chunk. *)
Definition recorded (cur : Z) (c : jsstring) (h : Phase1Handler) : Phase1Handler :=
  {| elementStore :=
       storeUpdate cur (appendChunk c) (elementStore h);
     metadataStore := metadataStore h;
     elementCounter := elementCounter h;
     maxElemsToParse := maxElemsToParse h;
     elementStack := elementStack h;
     elementCount := elementCount h;
     lastTextChunkMap := <[cur := c]> (lastTextChunkMap h) |}.

Definition significant (c : jsstring) : bool := (0 <? length (trim c))%Z.

(** [m'] keeps every first-writer-wins field that is set in [m]. *)
Definition keepsSetFields (m m' : Metadata) : Prop :=
  (isSet (title m) = true -> title m' = title m)
  /\ (isSet (byline m) = true -> byline m' = byline m)
  /\ (isSet (excerpt m) = true -> excerpt m' = excerpt m)
  /\ (isSet (siteName m) = true -> siteName m' = siteName m)
  /\ (isSet (publishedTime m) = true -> publishedTime m' = publishedTime m)
  /\ jsonLd m' = jsonLd m.

(** A start tag that is handled (below the cap, not skipped). *)
Definition handled (el : Host.Element) (h : Phase1Handler) : bool :=
  negb ((0 <? maxElemsToParse h)%Z && (maxElemsToParse h <=? elementCount h)%Z)
  && negb (isSkipped (toUpperCase (Host.tagName el)) el).

Definition noneOrSet (o : option jsstring) : Prop := o = None \/ isSet o = true.

(** Every first-writer-wins field is either absent or a non-empty string. *)
Definition wellSet (m : Metadata) : Prop :=
  noneOrSet (title m) /\ noneOrSet (byline m) /\ noneOrSet (excerpt m)
  /\ noneOrSet (siteName m) /\ noneOrSet (publishedTime m).

(** Start tags that the handler would record if it handled them. *)
Definition recordable (e : Event) : bool :=
  match e with
  | StartTag el => negb (isSkipped (toUpperCase (Host.tagName el)) el)
  | _ => false
  end.

(** ** Sample documents *)

Definition attr (k v : string) : jsstring * jsstring := (js k, js v).

Definition tagWith (t : string) (attrs : list (jsstring * jsstring)) : Event :=
  StartTag {| Host.tagName := js t; Host.attributes := attrs;
              Host.onEndTagThrows := false |}.

Definition plainTag (t : string) : Event := tagWith t [].

Definition textOf (t : string) : Event := Text (js t).

(** A handler on an empty store, as [runPhase1] creates it. *)
Definition freshHandler : Phase1Handler := new [] emptyMetadata 0 None.

(** The store the builder leaves after a sequence of callbacks. *)
Definition storeOf (events : list Event) : ElementStore :=
  elementStore (run events freshHandler).

Definition exampleURL : Markdown.URL :=
  {| Markdown.href := js "https://example.com/";
     Markdown.resolve := fun _ => None |}.

Definition optionsWithThreshold (n : Z) : ReadabilityOptions :=
  {| Types.maxElemsToParse := None; Types.nbTopCandidates := None;
     Types.charThreshold := Some n; Types.linkDensityModifier := None |}.

(** [<html><body><div><p>The quick brown fox, ...</p></div></body></html>] *)
Definition articleDoc : list Event :=
  [plainTag "html"; plainTag "body"; plainTag "div"; plainTag "p";
   textOf "The quick brown fox, jumps over the lazy dog.";
   EndTag; EndTag; EndTag; EndTag; DocumentEnd].

(** [<div><a href="/x"><p>The quick brown fox, ...</p></a></div>]: all the
    text is link text. *)
Definition linkDoc : list Event :=
  [plainTag "div"; tagWith "a" [attr "href" "/x"]; plainTag "p";
   textOf "The quick brown fox, jumps over the lazy dog.";
   EndTag; EndTag; EndTag; DocumentEnd].

(** [<div><p>The quick brown fox jumps over the lazy dog.</p></div>]:
    a paragraph without a comma. *)
Definition plainDoc : list Event :=
  [plainTag "div"; plainTag "p";
   textOf "The quick brown fox jumps over the lazy dog.";
   EndTag; EndTag; DocumentEnd].

(** [<div><pre><code class="hljs language-js">let x = a*b;</code></pre></div>] *)
Definition codeDoc : list Event :=
  [plainTag "div"; plainTag "pre";
   tagWith "code" [attr "class" "hljs language-js"];
   textOf "let x = a*b;"; EndTag; EndTag; EndTag; DocumentEnd].

(** A three-level ordered list:
    [<div><ol><li>a<ol><li>b<ol><li>c</li></ol></li><li>b2</li></ol></li>
    <li>a2</li></ol></div>] *)
Definition nestedListDoc : list Event :=
  [plainTag "div"; plainTag "ol";
   plainTag "li"; textOf "a"; plainTag "ol";
   plainTag "li"; textOf "b"; plainTag "ol";
   plainTag "li"; textOf "c"; EndTag; EndTag; EndTag;
   plainTag "li"; textOf "b2"; EndTag; EndTag; EndTag;
   plainTag "li"; textOf "a2"; EndTag; EndTag; EndTag; DocumentEnd].

(** [m'] holds every value that a first-writer-wins field holds in [m]. *)
Definition keepsValues (m m' : Metadata) : Prop :=
  (forall t, title m = Some t -> title m' = Some t)
  /\ (forall t, byline m = Some t -> byline m' = Some t)
  /\ (forall t, excerpt m = Some t -> excerpt m' = Some t)
  /\ (forall t, siteName m = Some t -> siteName m' = Some t)
  /\ (forall t, publishedTime m = Some t -> publishedTime m' = Some t)
  /\ jsonLd m' = jsonLd m.

(** ** Vocabulary of the further properties *)

(** [s] does not begin with white space. *)
Definition startsClean (s : jsstring) : bool :=
  match s with
  | [] => true
  | c :: _ => negb (isWhiteSpace c)
  end.

(** [s] does not end with white space. *)
Definition endsClean (s : jsstring) : bool := startsClean (rev s).

(** No run of [n] or more consecutive characters satisfying [p] occurs in
    [s], given that [cur] such characters immediately precede [s]. *)
Fixpoint runsBelow (p : char -> bool) (n cur : nat) (s : jsstring) : bool :=
  match s with
  | [] => true
  | c :: r =>
      if p c then Nat.ltb (S cur) n && runsBelow p n (S cur) r
      else runsBelow p n 0 r
  end.

(** Removal of the escaping backslashes: a backslash makes the next
    character literal. *)
Fixpoint unescapeMarkdown (s : jsstring) : jsstring :=
  match s with
  | [] => []
  | c :: r =>
      if N.eqb c 92 then
        match r with
        | [] => [c]
        | d :: r' => d :: unescapeMarkdown r'
        end
      else c :: unescapeMarkdown r
  end.

(** No special character of [s] stands unescaped. *)
Fixpoint wellEscaped (s : jsstring) : bool :=
  match s with
  | [] => true
  | c :: r =>
      if N.eqb c 92 then
        match r with
        | [] => false
        | _ :: r' => wellEscaped r'
        end
      else negb (Markdown.isMarkdownSpecial c) && wellEscaped r
  end.

(** What holds of every record the builder has written: it carries its own
    key as id, it has no score yet, its final text is a string, and every
    chunk it still holds has a non-blank character. *)
Definition recordOk (p : Z * ElementInfo) : Prop :=
  id (snd p) = fst p
  /\ readability (snd p) = None
  /\ finalTextContent (snd p) <> None
  /\ Forall (fun c => significant c = true) (default [] (textChunks (snd p))).

(** The ids handed out so far are [1 .. elementCounter], in the order in
    which the store lists them. *)
Definition idsInv (h : Phase1Handler) : Prop :=
  (0 <= elementCounter h)%Z
  /\ List.map fst (elementStore h) = seqZ 1 (elementCounter h)
  /\ Forall recordOk (elementStore h).

(** The record of an element that is still open. *)
Definition openRecord (store : ElementStore) (k : Z) (parent : option Z) : Prop :=
  exists info,
    storeGet k store = Some info
    /\ parentId info = parent
    /\ has VOID_ELEMENTS (tagName info) = false
    /\ textChunks info <> None
    /\ finalTextContent info = Some [].

(** Every element of the stack is open and its parent is the element right
    below it; the bottom element has no parent. *)
Fixpoint openChain (store : ElementStore) (stack : list Z) : Prop :=
  match stack with
  | [] => True
  | k :: rest => openRecord store k (head rest) /\ openChain store rest
  end.

Definition openInv (h : Phase1Handler) : Prop :=
  openChain (elementStore h) (elementStack h)
  /\ (forall k c, lastTextChunkMap h !! k = Some c ->
        In k (elementStack h)
        /\ exists info, storeGet k (elementStore h) = Some info
                        /\ last (default [] (textChunks info)) = Some c)
  /\ (forall k info, storeGet k (elementStore h) = Some info ->
        ~ In k (elementStack h) ->
        textChunks info = None
        \/ (textChunks info = Some [] /\ finalTextContent info = Some [])).

(** The fields of a record that describe the element itself. *)
Definition sameShape (i j : ElementInfo) : Prop :=
  id i = id j /\ parentId i = parentId j /\ tagName i = tagName j
  /\ attributes i = attributes j
  /\ isVisibleBasedOnAttrs i = isVisibleBasedOnAttrs j
  /\ role i = role j /\ isDataTableLikely i = isDataTableLikely j
  /\ isCodeBlock i = isCodeBlock j.

(** The chunks of [cs] that [text] records for one element, [lastChunk]
    being the chunk recorded last. *)
Fixpoint dedupe (lastChunk : option jsstring) (cs : list jsstring)
    : list jsstring :=
  match cs with
  | [] => []
  | c :: r =>
      if significant c && differs lastChunk c
      then c :: dedupe (Some c) r
      else dedupe lastChunk r
  end.

(** [l] lists the parent of [k], the parent of that parent, and so on. *)
Fixpoint parentChain (store : ElementStore) (k : Z) (l : list Z) : Prop :=
  match l with
  | [] => True
  | p :: r => getParentId k store = Some p /\ parentChain store p r
  end.

(** The store with every score removed. *)
Definition eraseScores (st : ElementStore) : ElementStore :=
  List.map (fun p => (fst p, withReadability None (snd p))) st.


(** The tags that only the exported [initializeNodeScore] penalises. *)
Definition penalisedByUtilsOnly : list jsstring :=
  List.map js ["OL"; "UL"; "DL"; "DD"; "DT"; "LI"; "FORM";
               "H2"; "H3"; "H4"; "H5"; "H6"; "TH"]%string.

Definition elementOf (t : string) : Host.Element :=
  {| Host.tagName := js t; Host.attributes := [];
     Host.onEndTagThrows := false |}.

(** [<div><a href="/x">v1.0</a></div>] *)
Definition anchorDoc : list Phase1.Event :=
  [plainTag "div"; tagWith "a" [attr "href" "/x"]; textOf "v1.0";
   Phase1.EndTag; Phase1.EndTag; Phase1.DocumentEnd].

(** [<div><p>x</p>] with the [div] still open. *)
Definition openDoc : list Phase1.Event :=
  [plainTag "div"; plainTag "p"; textOf "x"; Phase1.EndTag].

End Vocabulary.

(* ===================================================================== *)
(** * Properties *)
(* ===================================================================== *)

Section JsStringExamples.

Example trim_ex : trim (js "  a b  ") = js "a b".
Proof. reflexivity. Qed.
Example collapse_ex : collapseSpaces (js "a   b c  ") = js "a b c ".
Proof. reflexivity. Qed.
Example split_ex : splitOn (N.eqb 44) [] (js "a,b,,c") = [js "a"; js "b"; js ""; js "c"].
Proof. reflexivity. Qed.
Example ofint_ex : ofInteger 120 = js "120".
Proof. reflexivity. Qed.
Example nl_ex : collapseNewlines (js "a" ++ [10;10;10;10;97;10;10;98]%N) = [97;10;10;97;10;10;98]%N.
Proof. reflexivity. Qed.
(** The dotless i and the sharp s upper-case into ASCII, the Kelvin sign
    lower-cases to [k]; under the [i] flag of a regular expression a code
    unit outside ASCII matches no ASCII letter. *)
Example upper_dotless_ex :
  toUpperCase [115; 99; 114; 0x131; 112; 116]%N = js "SCRIPT".
Proof. reflexivity. Qed.
Example upper_sharp_s_ex : toUpperCase (js "addre" ++ [0xDF%N]) = js "ADDRESS".
Proof. reflexivity. Qed.
Example lower_kelvin_ex : toLowerCase [0x212A%N] = js "k".
Proof. reflexivity. Qed.
Example canonicalize_ex : canonicalize [0x17F; 115]%N = [0x17F; 83]%N.
Proof. reflexivity. Qed.
Example skipped_ex :
  Phase1.isSkipped (toUpperCase [115; 99; 114; 0x131; 112; 116]%N)
    {| Host.tagName := [115; 99; 114; 0x131; 112; 116]%N;
       Host.attributes := []; Host.onEndTagThrows := false |} = true.
Proof. reflexivity. Qed.

End JsStringExamples.

Section StoreFacts.

Lemma length_storeUpdate k f (st : ElementStore) :
  List.length (storeUpdate k f st) = List.length st.
Proof. unfold storeUpdate. apply length_map. Qed.

Lemma length_storeSet k v (st : ElementStore) :
  (List.length (storeSet k v st) <= S (List.length st))%nat.
Proof.
  induction st as [|[k' v'] st IH]; simpl; [lia|].
  destruct (Z.eqb k' k); simpl; lia.
Qed.

Lemma storeGet_storeUpdate_eq k f (st : ElementStore) i :
  storeGet k st = Some i -> storeGet k (storeUpdate k f st) = Some (f i).
Proof.
  unfold storeGet, storeUpdate.
  induction st as [|[k' v'] st IH]; simpl; [discriminate|].
  destruct (Z.eqb k' k) eqn:E; simpl.
  - rewrite E. simpl. intros [= ->]. reflexivity.
  - rewrite E. exact IH.
Qed.

Lemma storeGet_storeUpdate_ne k k' f (st : ElementStore) :
  k <> k' -> storeGet k' (storeUpdate k f st) = storeGet k' st.
Proof.
  intros Hne. unfold storeGet, storeUpdate.
  induction st as [|[k0 v0] st IH]; simpl; [reflexivity|].
  destruct (Z.eqb k0 k) eqn:E; simpl.
  - apply Z.eqb_eq in E. subst k0.
    destruct (Z.eqb k k') eqn:E'; [apply Z.eqb_eq in E'; contradiction|].
    exact IH.
  - destruct (Z.eqb k0 k'); [reflexivity|exact IH].
Qed.

End StoreFacts.

Section Cap.

Import Phase1.

Lemma element_capInv N d el h :
  (0 < N)%Z -> capInv N d h -> capInv N d (element el h).
Proof.
  intros HN (Hm & Hlen & Hcnt). unfold capInv, element. rewrite Hm.
  destruct (Z.ltb_spec 0 N); [|lia]. simpl.
  destruct (Z.leb_spec N (elementCount h)); [auto|].
  cbn [setCount elementCount elementStore maxElemsToParse elementCounter
       elementStack lastTextChunkMap metadataStore].
  destruct (isSkipped _ _); [cbn; repeat split; auto; lia|].
  pose proof (length_storeSet (elementCounter h + 1)
    (newElementInfo (elementCounter h + 1) (getCurrentElementIdFromStack (setCount (elementCount h + 1) h))
       (toUpperCase (Host.tagName el)) el) (elementStore h)) as Hs.
  destruct (negb _); [destruct (Host.onEndTagThrows el)|]; cbn;
    rewrite ?length_storeUpdate; repeat split; auto; try lia.
  all: unfold getCurrentElementIdFromStack in Hs; cbn in Hs; lia.
Qed.

End Cap.

Section JsFacts.

Lemma eqb_refl (a : jsstring) : eqb a a = true.
Proof. induction a as [|x a IH]; simpl; [reflexivity|]. rewrite N.eqb_refl. exact IH. Qed.

Lemma eqb_eq (a b : jsstring) : eqb a b = true <-> a = b.
Proof.
  split; [|intros ->; apply eqb_refl].
  revert b. induction a as [|x a IH]; destruct b as [|y b]; simpl; try discriminate; auto.
  intros H. apply andb_true_iff in H as [H1 H2]. apply N.eqb_eq in H1.
  f_equal; auto.
Qed.

Lemma eqb_neq (a b : jsstring) : a <> b -> eqb a b = false.
Proof.
  intros H. destruct (eqb a b) eqn:E; [|reflexivity].
  apply eqb_eq in E. contradiction.
Qed.

End JsFacts.

Section StoreFacts2.

Lemma storeGet_storeSet_ne k k' v (st : ElementStore) :
  k <> k' -> storeGet k' (storeSet k v st) = storeGet k' st.
Proof.
  intros Hne. unfold storeGet.
  induction st as [|[k0 v0] st IH]; simpl.
  - destruct (Z.eqb_spec k k'); [contradiction|reflexivity].
  - destruct (Z.eqb_spec k0 k); simpl.
    + subst k0. destruct (Z.eqb_spec k k'); [contradiction|reflexivity].
    + destruct (Z.eqb k0 k'); [reflexivity|exact IH].
Qed.

Lemma storeGet_storeSet_eq k v (st : ElementStore) :
  storeGet k (storeSet k v st) = Some v.
Proof.
  unfold storeGet.
  induction st as [|[k0 v0] st IH]; simpl.
  - rewrite Z.eqb_refl. reflexivity.
  - destruct (Z.eqb_spec k0 k); simpl.
    + rewrite Z.eqb_refl. reflexivity.
    + destruct (Z.eqb_spec k0 k); [contradiction|exact IH].
Qed.

End StoreFacts2.

Section TextChunks.

Import Phase1.

(** [text] on an open, recorded, non-void element and a significant chunk. *)
Lemma text_open h cur rest info c :
  elementStack h = cur :: rest ->
  storeGet cur (elementStore h) = Some info ->
  has VOID_ELEMENTS (tagName info) = false ->
  significant c = true ->
  text c h = if differs (lastTextChunkMap h !! cur) c then recorded cur c h else h.
Proof.
  intros Hs Hg Hv Hc. unfold text, getCurrentElementIdFromStack.
  rewrite Hs. unfold significant in Hc. rewrite Hc, Hg, Hv.
  unfold recorded. rewrite Hs. reflexivity.
Qed.

Lemma text_cases h c :
  text c h = h \/
  exists cur rest info,
    elementStack h = cur :: rest /\ storeGet cur (elementStore h) = Some info /\
    has VOID_ELEMENTS (tagName info) = false /\ significant c = true /\
    text c h = recorded cur c h.
Proof.
  unfold text, getCurrentElementIdFromStack.
  destruct (elementStack h) as [|cur rest] eqn:Hs; [auto|].
  destruct (0 <? length (trim c))%Z eqn:Hc; [|auto].
  destruct (storeGet cur (elementStore h)) as [info|] eqn:Hg; [|auto].
  destruct (has VOID_ELEMENTS (tagName info)) eqn:Hv; [auto|]. simpl.
  destruct (differs _ _); [|auto].
  right. exists cur, rest, info. repeat split; auto.
  unfold recorded. rewrite Hs. reflexivity.
Qed.

Lemma text_idempotent h c : text c (text c h) = text c h.
Proof.
  destruct (text_cases h c) as [E|(cur & rest & info & Hs & Hg & Hv & Hc & E)].
  - rewrite E. exact E.
  - rewrite E.
    rewrite (text_open (recorded cur c h) cur rest (appendChunk c info) c); auto.
    + cbn [recorded lastTextChunkMap]. rewrite lookup_insert_eq.
      cbn. rewrite eqb_refl. reflexivity.
    + cbn [recorded elementStore]. apply storeGet_storeUpdate_eq. exact Hg.
Qed.

End TextChunks.

Section Phase1Facts.

Import Phase1.

Ltac element_cases h el :=
  unfold element;
  destruct ((0 <? maxElemsToParse h)%Z && (maxElemsToParse h <=? elementCount h)%Z);
  [|cbn [setCount elementCount elementStore maxElemsToParse elementCounter
          elementStack lastTextChunkMap metadataStore];
    destruct (isSkipped (toUpperCase (Host.tagName el)) el);
    [|destruct (has VOID_ELEMENTS (toUpperCase (Host.tagName el))) eqn:?;
      cbn [negb]; [|destruct (Host.onEndTagThrows el)]]].

(** A start tag touches neither the record nor the last chunk of any
    element other than the one it creates. *)
Lemma element_frame h el k :
  k <> (elementCounter h + 1)%Z ->
  storeGet k (elementStore (element el h)) = storeGet k (elementStore h)
  /\ lastTextChunkMap (element el h) !! k = lastTextChunkMap h !! k.
Proof.
  intros Hk. element_cases h el;
    cbn [elementStore lastTextChunkMap elementCounter]; auto.
  - rewrite storeGet_storeUpdate_ne, storeGet_storeSet_ne by auto.
    rewrite !lookup_delete_ne by auto. auto.
  - rewrite storeGet_storeSet_ne by auto.
    rewrite !lookup_delete_ne by auto. auto.
  - rewrite storeGet_storeSet_ne by auto.
    rewrite !lookup_delete_ne by auto. auto.
Qed.

Lemma element_stack_void h el :
  has VOID_ELEMENTS (toUpperCase (Host.tagName el)) = true ->
  elementStack (element el h) = elementStack h.
Proof.
  intros Hv. element_cases h el; cbn [elementStack]; auto; congruence.
Qed.

Lemma text_insignificant h w : significant w = false -> text w h = h.
Proof.
  unfold significant, text. intros ->.
  destruct (getCurrentElementIdFromStack h); reflexivity.
Qed.

Lemma tagName_appendChunk c i : tagName (appendChunk c i) = tagName i.
Proof. reflexivity. Qed.

(** After a significant chunk has been delivered to an open element, that
    chunk is the element's last recorded chunk. *)
Lemma text_open_post h cur rest info c :
  elementStack h = cur :: rest ->
  storeGet cur (elementStore h) = Some info ->
  has VOID_ELEMENTS (tagName info) = false ->
  significant c = true ->
  exists info1,
    elementStack (text c h) = cur :: rest
    /\ storeGet cur (elementStore (text c h)) = Some info1
    /\ tagName info1 = tagName info
    /\ lastTextChunkMap (text c h) !! cur = Some c
    /\ elementCounter (text c h) = elementCounter h.
Proof.
  intros Hs Hg Hv Hc. rewrite (text_open h cur rest info c) by auto.
  destruct (lastTextChunkMap h !! cur) as [l|] eqn:Hl; cbn [differs].
  - destruct (eqb l c) eqn:E; cbn [negb].
    + apply eqb_eq in E. subst l. exists info. auto.
    + exists (appendChunk c info). cbn. rewrite lookup_insert_eq.
      repeat split; auto. apply storeGet_storeUpdate_eq; auto.
  - exists (appendChunk c info). cbn. rewrite lookup_insert_eq.
    repeat split; auto. apply storeGet_storeUpdate_eq; auto.
Qed.

Lemma text_open_new h cur rest info c l :
  elementStack h = cur :: rest ->
  storeGet cur (elementStore h) = Some info ->
  has VOID_ELEMENTS (tagName info) = false ->
  significant c = true ->
  lastTextChunkMap h !! cur = Some l -> l <> c ->
  text c h = recorded cur c h.
Proof.
  intros Hs Hg Hv Hc Hl Hne. rewrite (text_open h cur rest info c) by auto.
  rewrite Hl. cbn. rewrite eqb_neq by auto. reflexivity.
Qed.

End Phase1Facts.

Section C4.
Import Phase1.



End C4.

Section C8.
Import Phase1.

Lemma keepsSetFields_refl m : keepsSetFields m m.
Proof. unfold keepsSetFields. tauto. Qed.

Lemma keepsSetFields_trans m1 m2 m3 :
  keepsSetFields m1 m2 -> keepsSetFields m2 m3 -> keepsSetFields m1 m3.
Proof.
  unfold keepsSetFields.
  intros (A1 & A2 & A3 & A4 & A5 & A6) (B1 & B2 & B3 & B4 & B5 & B6).
  repeat split; try congruence; intros H.
  - rewrite <- (A1 H). apply B1. rewrite (A1 H). exact H.
  - rewrite <- (A2 H). apply B2. rewrite (A2 H). exact H.
  - rewrite <- (A3 H). apply B3. rewrite (A3 H). exact H.
  - rewrite <- (A4 H). apply B4. rewrite (A4 H). exact H.
  - rewrite <- (A5 H). apply B5. rewrite (A5 H). exact H.
Qed.

Lemma mergeField_set cur ext : isSet cur = true -> mergeField cur ext = cur.
Proof. intros H. unfold mergeField. destruct ext; [rewrite H|]; reflexivity. Qed.

Lemma mergeMetadata_keeps m ext : keepsSetFields m (mergeMetadata m ext).
Proof.
  unfold keepsSetFields, mergeMetadata; cbn.
  repeat split; try apply mergeField_set.
Qed.

Lemma withLangDir_keeps l d m : keepsSetFields m (withLangDir l d m).
Proof. unfold keepsSetFields; cbn. tauto. Qed.

Lemma element_keeps h el :
  keepsSetFields (metadataStore h) (metadataStore (element el h)).
Proof.
  unfold element.
  destruct ((0 <? maxElemsToParse h)%Z && (maxElemsToParse h <=? elementCount h)%Z);
    [apply keepsSetFields_refl|].
  cbn [setCount elementCount elementStore maxElemsToParse elementCounter
       elementStack lastTextChunkMap metadataStore].
  destruct (isSkipped _ _); [apply keepsSetFields_refl|].
  assert (K : keepsSetFields (metadataStore h)
    (if eqb (toUpperCase (Host.tagName el)) (js "IMG")
        || eqb (toUpperCase (Host.tagName el)) (js "PICTURE")
        || eqb (toUpperCase (Host.tagName el)) (js "FIGURE")
     then metadataStore h
     else if eqb (toUpperCase (Host.tagName el)) (js "META")
     then mergeMetadata (metadataStore h) (extractMetadataFromElement el)
     else if eqb (toUpperCase (Host.tagName el)) (js "HTML")
     then withLangDir (Host.getAttribute (js "lang") el)
            (Host.getAttribute (js "dir") el) (metadataStore h)
     else metadataStore h)).
  { destruct (_ || _); [apply keepsSetFields_refl|].
    destruct (eqb _ (js "META")); [apply mergeMetadata_keeps|].
    destruct (eqb _ (js "HTML")); [apply withLangDir_keeps|apply keepsSetFields_refl]. }
  destruct (negb _); [destruct (Host.onEndTagThrows el)|]; exact K.
Qed.

Lemma onEndTag_keeps h :
  keepsSetFields (metadataStore h) (metadataStore (onEndTag h)).
Proof.
  unfold onEndTag. destruct (elementStack h); [apply keepsSetFields_refl|].
  destruct (storeGet _ _); cbn [metadataStore]; [|apply keepsSetFields_refl].
  destruct (eqb _ _); cbn [andb]; [|apply keepsSetFields_refl].
  destruct (isSet (title (metadataStore h))) eqn:E; cbn [negb];
    [apply keepsSetFields_refl|].
  unfold keepsSetFields; cbn. repeat split; auto. congruence.
Qed.

Lemma text_metadata c h : metadataStore (text c h) = metadataStore h.
Proof.
  destruct (text_cases h c) as [E|(cur & rest & info & _ & _ & _ & _ & E)];
    rewrite E; reflexivity.
Qed.

Lemma step_keeps h e :
  keepsSetFields (metadataStore h) (metadataStore (step h e)).
Proof.
  destruct e; cbn [step].
  - apply element_keeps.
  - rewrite text_metadata. apply keepsSetFields_refl.
  - apply onEndTag_keeps.
  - apply keepsSetFields_refl.
Qed.

Lemma run_keeps events : forall h,
  keepsSetFields (metadataStore h) (metadataStore (run events h)).
Proof.
  induction events as [|e events IH]; intros h; cbn [run fold_left].
  - apply keepsSetFields_refl.
  - eapply keepsSetFields_trans; [apply step_keeps|apply IH].
Qed.

Lemma element_html h el :
  handled el h = true ->
  toUpperCase (Host.tagName el) = js "HTML" ->
  lang (metadataStore (element el h)) = Host.getAttribute (js "lang") el
  /\ dir (metadataStore (element el h)) = Host.getAttribute (js "dir") el.
Proof.
  unfold handled. intros Hh Ht. apply andb_true_iff in Hh as [H1 H2].
  apply negb_true_iff in H1. apply negb_true_iff in H2.
  unfold element. rewrite H1.
  cbn [setCount elementCount elementStore maxElemsToParse elementCounter
       elementStack lastTextChunkMap metadataStore].
  rewrite H2, Ht.
  change (has VOID_ELEMENTS (js "HTML")) with false.
  change (eqb (js "HTML") (js "IMG")) with false.
  change (eqb (js "HTML") (js "PICTURE")) with false.
  change (eqb (js "HTML") (js "FIGURE")) with false.
  change (eqb (js "HTML") (js "META")) with false.
  change (eqb (js "HTML") (js "HTML")) with true.
  cbn [orb negb].
  destruct (Host.onEndTagThrows el); cbn; auto.
Qed.



End C8.

Section C8b.
Import Phase1.

Lemma truthy_replaceChar c c' s :
  truthy s = true -> truthy (replaceChar c [c'] s) = true.
Proof.
  destruct s as [|x s]; [discriminate|]. intros _.
  unfold replaceChar. cbn. destruct (N.eqb x c); reflexivity.
Qed.

Lemma unescape_noneOrSet o : noneOrSet (unescapeHtmlEntities o).
Proof.
  unfold noneOrSet, unescapeHtmlEntities. destruct o as [s|]; [|auto].
  destruct (truthy s) eqn:E; cbn [negb]; [|auto].
  right. cbn [isSet]. repeat apply truthy_replaceChar. exact E.
Qed.

Lemma mergeField_noneOrSet cur ext :
  noneOrSet cur -> noneOrSet (mergeField cur ext).
Proof.
  intros H. unfold mergeField. destruct ext; [|exact H].
  destruct (isSet cur) eqn:E; [right; exact E|apply unescape_noneOrSet].
Qed.

Lemma step_wellSet h e : wellSet (metadataStore h) -> wellSet (metadataStore (step h e)).
Proof.
  intros W. destruct e; cbn [step].
  - unfold element.
    destruct (_ && _); [exact W|].
    cbn [setCount elementCount elementStore maxElemsToParse elementCounter
         elementStack lastTextChunkMap metadataStore].
    destruct (isSkipped _ _); [exact W|].
    match goal with |- context [negb (has VOID_ELEMENTS ?t)] => set (tg := t) end.
    assert (K : wellSet
      (if eqb tg (js "IMG") || eqb tg (js "PICTURE") || eqb tg (js "FIGURE")
       then metadataStore h
       else if eqb tg (js "META")
       then mergeMetadata (metadataStore h) (extractMetadataFromElement el)
       else if eqb tg (js "HTML")
       then withLangDir (Host.getAttribute (js "lang") el)
              (Host.getAttribute (js "dir") el) (metadataStore h)
       else metadataStore h)).
    { destruct (_ || _); [exact W|].
      destruct (eqb tg (js "META")).
      - destruct W as (W1 & W2 & W3 & W4 & W5).
        unfold wellSet, mergeMetadata; cbn.
        repeat split; apply mergeField_noneOrSet; assumption.
      - destruct (eqb tg (js "HTML")); exact W. }
    destruct (negb _); [destruct (Host.onEndTagThrows el)|]; exact K.
  - rewrite text_metadata. exact W.
  - unfold onEndTag. destruct (elementStack h); [exact W|].
    destruct (storeGet _ _); cbn [metadataStore]; [|exact W].
    destruct (_ && _); [|exact W].
    destruct W as (W1 & W2 & W3 & W4 & W5).
    unfold wellSet; cbn [withTitle title byline excerpt siteName publishedTime].
    repeat split; auto. apply unescape_noneOrSet.
  - exact W.
Qed.

Lemma run_wellSet events : forall h,
  wellSet (metadataStore h) -> wellSet (metadataStore (run events h)).
Proof.
  induction events as [|e events IH]; intros h W; cbn [run fold_left]; auto.
  apply IH. apply step_wellSet. exact W.
Qed.

Lemma wellSet_empty : wellSet emptyMetadata.
Proof. unfold wellSet, noneOrSet; cbn. tauto. Qed.

Lemma noneOrSet_Some o t : noneOrSet o -> o = Some t -> isSet o = true.
Proof. intros [H|H] E; congruence. Qed.

Lemma keepsValues_of_set m m' :
  wellSet m -> keepsSetFields m m' -> keepsValues m m'.
Proof.
  intros (W1 & W2 & W3 & W4 & W5) (K1 & K2 & K3 & K4 & K5 & K6).
  repeat split; auto; intros t Ht.
  - rewrite K1; eauto using noneOrSet_Some.
  - rewrite K2; eauto using noneOrSet_Some.
  - rewrite K3; eauto using noneOrSet_Some.
  - rewrite K4; eauto using noneOrSet_Some.
  - rewrite K5; eauto using noneOrSet_Some.
Qed.

Lemma run_keepsValues events1 events2 store counter maxElems :
  keepsValues
    (metadataStore (run events1 (new store emptyMetadata counter maxElems)))
    (metadataStore
       (run events2 (run events1 (new store emptyMetadata counter maxElems)))).
Proof.
  apply keepsValues_of_set.
  - apply run_wellSet. apply wellSet_empty.
  - apply run_keeps.
Qed.

End C8b.

Section C10.
Import Phase1.

Lemma step_capInv N d h e :
  (0 < N)%Z -> capInv N d h -> capInv N d (step h e).
Proof.
  intros HN Hi. destruct e; cbn [step].
  - apply element_capInv; auto.
  - destruct (text_cases h chunk) as [E|(cur & rest & info & _ & _ & _ & _ & E)];
      rewrite E; auto.
    destruct Hi as (A & B & C). unfold capInv; cbn.
    rewrite length_storeUpdate. auto.
  - destruct Hi as (A & B & C). unfold capInv, onEndTag.
    destruct (elementStack h); [auto|].
    destruct (storeGet _ _); cbn; rewrite ?length_storeUpdate; auto.
  - exact Hi.
Qed.

Lemma run_capInv N d events : forall h,
  (0 < N)%Z -> capInv N d h -> capInv N d (run events h).
Proof.
  induction events as [|e events IH]; intros h HN Hi; cbn [run fold_left]; auto.
  apply IH; auto. apply step_capInv; auto.
Qed.

Lemma filter_recordable_repeat n :
  List.filter recordable (List.repeat (plainTag "p") n) = List.repeat (plainTag "p") n.
Proof. induction n as [|n IH]; cbn [List.repeat List.filter]; [reflexivity|].
  change (recordable (plainTag "p")) with true. cbn. f_equal. exact IH. Qed.



End C10.


Section FoldFacts.

Lemma foldM_invariant {A B} (P : B -> Prop) (f : B -> A -> option B) l :
  forall acc,
    P acc ->
    (forall acc x, In x l -> P acc -> exists acc', f acc x = Some acc' /\ P acc') ->
    exists r, foldM f l acc = Some r /\ P r.
Proof.
  induction l as [|x l IH]; intros acc HP Hstep; cbn [foldM].
  - eauto.
  - destruct (Hstep acc x (or_introl eq_refl) HP) as (acc' & E & HP').
    rewrite E. cbn. apply IH; auto.
    intros a y Hy. apply Hstep. right. exact Hy.
Qed.

Lemma foldM_Some_invariant {A B} (P : B -> Prop) (f : B -> A -> option B) l :
  forall acc r,
    foldM f l acc = Some r ->
    P acc ->
    (forall acc x acc', P acc -> f acc x = Some acc' -> P acc') ->
    P r.
Proof.
  induction l as [|x l IH]; intros acc r E HP Hstep; cbn [foldM] in E.
  - congruence.
  - destruct (f acc x) as [acc'|] eqn:Ef; cbn in E; [|discriminate].
    eapply IH; eauto.
Qed.

End FoldFacts.

Section SortFacts.

Lemma In_insertAsc x y l : In y (insertAsc x l) <-> y = x \/ In y l.
Proof.
  induction l as [|z l IH]; cbn [insertAsc].
  - cbn. intuition.
  - destruct (x <? z)%Z; cbn [In]; [intuition|]. rewrite IH. intuition.
Qed.

Lemma In_fold_insertAsc l : forall acc y,
  In y (fold_left (fun acc x => insertAsc x acc) l acc) <-> In y l \/ In y acc.
Proof.
  induction l as [|x l IH]; intros acc y; cbn [fold_left].
  - cbn. intuition.
  - rewrite IH, In_insertAsc. cbn. intuition.
Qed.

Lemma In_sortAsc y l : In y (sortAsc l) <-> In y l.
Proof. unfold sortAsc. rewrite In_fold_insertAsc. cbn. intuition. Qed.

End SortFacts.

Section StoreShape.

Lemma storeGet_In k (st : ElementStore) i : storeGet k st = Some i -> In (k, i) st.
Proof.
  unfold storeGet. induction st as [|[k0 v0] st IH]; cbn; [discriminate|].
  destruct (Z.eqb_spec k0 k); cbn.
  - intros [= ->]. left. congruence.
  - intros H. right. apply IH. exact H.
Qed.

Lemma In_getChildrenIds c k (st : ElementStore) :
  In c (getChildrenIds k st) <->
  exists info, In (c, info) st /\ parentId info = Some k.
Proof.
  unfold getChildrenIds. rewrite In_sortAsc, in_map_iff. split.
  - intros ([c' info] & E & Hin). cbn in E. subst c'.
    apply filter_In in Hin as [Hin Hp]. cbn in Hp.
    exists info. split; auto.
    destruct (parentId info) as [q|]; [|discriminate].
    apply Z.eqb_eq in Hp. congruence.
  - intros (info & Hin & Hp). exists (c, info). split; auto.
    apply filter_In. split; auto. cbn. rewrite Hp. apply Z.eqb_refl.
Qed.

Lemma WfStore_child M st k c :
  WfStore M st -> In c (getChildrenIds k st) -> (0 < k < c)%Z /\ (c <= M)%Z.
Proof.
  intros [_ W] Hc. apply In_getChildrenIds in Hc as (info & Hin & Hp).
  destruct (W c info Hin) as [Hr Hpar]. specialize (Hpar k Hp). lia.
Qed.

Lemma WfStore_parent M st k p :
  WfStore M st -> getParentId k st = Some p -> (0 < p < k)%Z /\ (k <= M)%Z.
Proof.
  intros [_ W]. unfold getParentId, getElementInfo.
  destruct (storeGet k st) as [info|] eqn:E; [|discriminate].
  intros Hp. apply storeGet_In in E. destruct (W k info E) as [Hr Hpar].
  specialize (Hpar p Hp). lia.
Qed.

Lemma storeUpdate_fst k f (st : ElementStore) :
  List.map fst (storeUpdate k f st) = List.map fst st.
Proof.
  unfold storeUpdate. rewrite map_map. apply map_ext.
  intros [k0 v0]. cbn. destruct (Z.eqb k0 k); reflexivity.
Qed.

Lemma In_storeUpdate k f (st : ElementStore) k' i' :
  In (k', i') (storeUpdate k f st) ->
  exists i, In (k', i) st /\ (i' = i \/ i' = f i).
Proof.
  unfold storeUpdate. rewrite in_map_iff. intros ([k0 v0] & E & Hin).
  cbn in E. destruct (Z.eqb k0 k); inversion E; subst; eauto.
Qed.

Lemma WfStore_storeUpdate M k f st :
  (forall i, parentId (f i) = parentId i) ->
  WfStore M st -> WfStore M (storeUpdate k f st).
Proof.
  intros Hf [Hnd W]. split.
  - rewrite storeUpdate_fst. exact Hnd.
  - intros k' i' Hin. apply In_storeUpdate in Hin as (i & Hin & [->| ->]).
    + apply W; auto.
    + rewrite Hf. apply W; auto.
Qed.

Lemma WfStore_mono M M' st : (M <= M')%Z -> WfStore M st -> WfStore M' st.
Proof.
  intros Hle [Hnd W]. split; auto. intros k i Hin.
  destruct (W k i Hin) as [Hr Hp]. split; auto. lia.
Qed.

End StoreShape.

Section Termination.

Variable M : Z.
Variable st : ElementStore.
Hypothesis Hwf : WfStore M st.

Lemma depthBelow_child k c :
  In c (getChildrenIds k st) -> (depthBelow M c < depthBelow M k)%nat.
Proof.
  intros Hc. destruct (WfStore_child M st k c Hwf Hc). unfold depthBelow. lia.
Qed.

Lemma depthBelow_le k : (depthBelow M k <= Z.to_nat (M + 1))%nat.
Proof. unfold depthBelow. lia. Qed.

Lemma getDescendantIds_total : forall fuel k,
  (depthBelow M k < fuel)%nat -> exists l, getDescendantIds fuel k st = Some l.
Proof.
  induction fuel as [|fuel IH]; intros k Hf; [lia|].
  cbn [getDescendantIds].
  destruct (foldM_invariant (fun _ => True)
    (fun descendants childId =>
       sub ← getDescendantIds fuel childId st; Some (descendants ++ childId :: sub))
    (getChildrenIds k st) [] I) as (r & E & _); [|eauto].
  intros acc x Hx _.
  destruct (IH x) as (sub & Es).
  { pose proof (depthBelow_child k x Hx). lia. }
  rewrite Es. cbn. eauto.
Qed.

Lemma getTotalVisibleInnerText_total norm : forall fuel k,
  (depthBelow M k < fuel)%nat ->
  exists t, getTotalVisibleInnerText fuel k st norm = Some t.
Proof.
  induction fuel as [|fuel IH]; intros k Hf; [lia|].
  cbn [getTotalVisibleInnerText].
  match goal with |- context [foldM ?f ?l ?a] =>
    destruct (foldM_invariant (fun _ => True) f l a I) as (r & E & _) end.
  { intros acc x Hx _.
    destruct (IH x) as (sub & Es).
    { pose proof (depthBelow_child k x Hx). lia. }
    rewrite Es. cbn. eauto. }
  rewrite E. cbn. eauto.
Qed.

Lemma getLinkDensity_total fuel k :
  (Z.to_nat (M + 1) < fuel)%nat -> exists d, getLinkDensity fuel k st = Some d.
Proof.
  intros Hf. unfold getLinkDensity.
  destruct (getTotalVisibleInnerText_total true fuel k) as (t & Et).
  { pose proof (depthBelow_le k). lia. }
  rewrite Et. cbn [mbind option_bind].
  destruct (Z.eqb (length t) 0); [eauto|].
  destruct (getDescendantIds_total fuel k) as (ds & Ed).
  { pose proof (depthBelow_le k). lia. }
  rewrite Ed. cbn [mbind option_bind].
  match goal with |- context [foldM ?f ?l ?a] =>
    destruct (foldM_invariant (fun _ => True) f l a I) as (r & E & _) end.
  { intros acc x _ _.
    destruct (getElementInfo x st) as [info|]; [|eauto].
    destruct (_ && _); [|eauto].
    destruct (getTotalVisibleInnerText_total true fuel x) as (tx & Etx).
    { pose proof (depthBelow_le x). lia. }
    rewrite Etx. cbn. eauto. }
  rewrite E. cbn. eauto.
Qed.

End Termination.

Section Ancestors.

Lemma ancestorsLoop_total (st : ElementStore) : forall fuel k depth,
  (5 <= Z.of_nat fuel + depth)%Z ->
  exists l, ancestorsLoop fuel st 5 k depth = Some l.
Proof.
  induction fuel as [|fuel IH]; intros k depth Hf.
  - cbn [ancestorsLoop]. change (5 <=? 0)%Z with false. cbn [orb].
    destruct (Z.ltb_spec depth 5); [lia|eauto].
  - cbn [ancestorsLoop]. change (5 <=? 0)%Z with false. cbn [orb].
    destruct (Z.ltb_spec depth 5); [|eauto].
    destruct (getParentId k st) as [p|]; [|eauto].
    destruct (IH p (depth + 1)%Z) as (l & E); [lia|].
    rewrite E. cbn. eauto.
Qed.

Lemma getAncestorIds_total (st : ElementStore) fuel k :
  (5 <= fuel)%nat -> exists l, getAncestorIds fuel k st 5 = Some l.
Proof. intros Hf. apply ancestorsLoop_total. lia. Qed.

End Ancestors.

Section ScorerInvariants.
Import Phase2.

Variable M : Z.

Lemma parentId_withReadability r i : parentId (withReadability r i) = parentId i.
Proof. reflexivity. Qed.

Lemma initializeNodeScore_wf k st :
  WfStore M st -> WfStore M (fst (initializeNodeScore k st)).
Proof.
  intros W. unfold initializeNodeScore.
  destruct (getElementInfo k st) as [info|]; [|exact W].
  destruct (readability info); [exact W|]. cbn [fst].
  apply WfStore_storeUpdate; auto.
Qed.

Lemma propagate_wf score st a level :
  WfStore M (fst st) -> WfStore M (fst (propagate score st a level)).
Proof.
  destruct st as [store cands]. cbn [fst]. intros W. unfold propagate.
  destruct (getElementInfo a store) as [info|]; [|exact W].
  destruct (_ || _); [exact W|].
  match goal with |- WfStore M (fst (let '(s, c) := ?x in _)) =>
    assert (Wx : WfStore M (fst x));
    [|destruct x as [s1 c1]; cbn [fst] in *; apply WfStore_storeUpdate; auto;
      intros i; destruct (readability i); reflexivity] end.
  destruct (readability info); [exact W|].
  pose proof (initializeNodeScore_wf a store W) as Wi.
  destruct (initializeNodeScore a store) as [store' s0]. cbn [fst] in Wi.
  destruct s0 as [s|]; [destruct (0 <=? s)%float|]; exact Wi.
Qed.

Lemma forEachLevel_wf score ancestors : forall st level,
  WfStore M (fst st) -> WfStore M (fst (forEachLevel score st ancestors level)).
Proof.
  induction ancestors as [|a rest IH]; intros st level W; cbn [forEachLevel]; auto.
  apply IH. apply propagate_wf. exact W.
Qed.

Lemma scoreElement_total fuel st k :
  (5 <= fuel)%nat -> WfStore M (fst st) ->
  exists st', scoreElement fuel st k = Some st' /\ WfStore M (fst st').
Proof.
  intros Hf W. unfold scoreElement.
  destruct (getElementInfo k (fst st)) as [info|]; [|eauto].
  destruct (negb _); [eauto|].
  destruct (length _ <? 25)%Z; [eauto|].
  destruct (getAncestorIds_total (fst st) fuel k Hf) as (l & E).
  rewrite E. cbn [mbind option_bind].
  destruct l as [|a l]; [eauto|].
  eexists. split; [reflexivity|]. apply forEachLevel_wf. exact W.
Qed.

Lemma scoreElements_total fuel store :
  (5 <= fuel)%nat -> WfStore M store ->
  exists st', scoreElements fuel store = Some st' /\ WfStore M (fst st').
Proof.
  intros Hf W. unfold scoreElements.
  apply (foldM_invariant (fun st => WfStore M (fst st))); auto.
  intros acc x _ Wacc. apply scoreElement_total; auto.
Qed.

Lemma adjustCandidate_total fuel st k :
  (Z.to_nat (M + 1) < fuel)%nat -> WfStore M (fst st) ->
  exists st', adjustCandidate fuel st k = Some st' /\ WfStore M (fst st').
Proof.
  intros Hf W. destruct st as [store scores]. cbn [fst] in W.
  unfold adjustCandidate.
  destruct (getElementInfo k store) as [info|]; [|eauto].
  destruct (readability info) as [s|]; [|eauto].
  destruct (getLinkDensity_total M store W fuel k Hf) as (d & E).
  rewrite E. cbn [mbind option_bind].
  eexists. split; [reflexivity|]. cbn [fst]. apply WfStore_storeUpdate; auto.
Qed.

Lemma adjustCandidates_total fuel store cands :
  (Z.to_nat (M + 1) < fuel)%nat -> WfStore M store ->
  exists st', adjustCandidates fuel store cands = Some st' /\ WfStore M (fst st').
Proof.
  intros Hf W. unfold adjustCandidates.
  apply (foldM_invariant (fun st => WfStore M (fst st))); auto.
  intros acc x _ Wacc. apply adjustCandidate_total; auto.
Qed.

Lemma candidateScores_total fuel store :
  (5 <= fuel)%nat -> (Z.to_nat (M + 1) < fuel)%nat -> WfStore M store ->
  exists store' scores,
    candidateScores fuel store = Some (store', scores) /\ WfStore M store'.
Proof.
  intros H5 Hf W. unfold candidateScores.
  destruct (scoreElements_total fuel store H5 W) as (st1 & E1 & W1).
  rewrite E1. cbn [mbind option_bind].
  destruct (adjustCandidates_total fuel (fst st1) (snd st1) Hf W1)
    as ([store' scores] & E2 & W2).
  exists store', scores. auto.
Qed.

End ScorerInvariants.

Section Selection.
Import Phase2.

Lemma sortedCandidates_none scores :
  (forall e, In e scores -> (0 <? snd e)%float = false) ->
  sortedCandidates scores = [].
Proof.
  intros H. unfold sortedCandidates.
  replace (List.filter (fun e => (0 <? snd e)%float) scores) with (@nil (Z * float));
    [reflexivity|].
  symmetry. induction scores as [|e scores IH]; [reflexivity|].
  cbn [List.filter]. rewrite (H e (or_introl eq_refl)).
  apply IH. intros e' He'. apply H. right. exact He'.
Qed.

Lemma scorer_no_positive fuel store opts store' scores :
  candidateScores fuel store = Some (store', scores) ->
  (forall e, In e scores -> (0 <? snd e)%float = false) ->
  calculateScoresAndFindBestCandidate fuel store opts = Some (emptyResult, store').
Proof.
  intros E H. unfold calculateScoresAndFindBestCandidate.
  rewrite E. cbn [mbind option_bind].
  unfold selectCandidate.
  rewrite (sortedCandidates_none scores H). reflexivity.
Qed.

End Selection.

Section Gate.
Import Phase2.

Lemma gate_result fuel store opts res store' :
  calculateScoresAndFindBestCandidate fuel store opts = Some (res, store') ->
  res = emptyResult
  \/ exists c, topCandidateId res = Some c
       /\ (default CHAR_THRESHOLD (charThreshold opts)
           <= totalTextLength store' (elementsToKeepIds res))%Z.
Proof.
  unfold calculateScoresAndFindBestCandidate.
  destruct (candidateScores fuel store) as [[s1 scores]|]; cbn [mbind option_bind];
    [|discriminate].
  destruct (selectCandidate fuel s1 scores) as [[[top keep]|]|];
    cbn [mbind option_bind]; try discriminate.
  - destruct (Z.ltb_spec (totalTextLength s1 keep)
                (default CHAR_THRESHOLD (charThreshold opts))).
    + intros [= <- <-]. left. reflexivity.
    + intros [= <- <-]. right. exists top. cbn. split; auto.
  - intros [= <- <-]. left. reflexivity.
Qed.

Lemma gate_discards fuel store opts store' scores top keep :
  candidateScores fuel store = Some (store', scores) ->
  selectCandidate fuel store' scores = Some (Some (top, keep)) ->
  (totalTextLength store' keep < default CHAR_THRESHOLD (charThreshold opts))%Z ->
  calculateScoresAndFindBestCandidate fuel store opts = Some (emptyResult, store').
Proof.
  intros E1 E2 Hlt. unfold calculateScoresAndFindBestCandidate.
  rewrite E1. cbn [mbind option_bind]. rewrite E2. cbn [mbind option_bind].
  destruct (Z.ltb_spec (totalTextLength store' keep)
              (default CHAR_THRESHOLD (charThreshold opts))); [reflexivity|lia].
Qed.

End Gate.

Section ContentScore.
Import Phase2.

Lemma splitOn_length p s : forall cur,
  List.length (splitOn p cur s) = S (List.length (List.filter p s)).
Proof.
  induction s as [|c s IH]; intros cur; cbn [splitOn List.filter]; [reflexivity|].
  destruct (p c); cbn [List.length]; rewrite IH; reflexivity.
Qed.

Lemma contentScore_formula t :
  contentScore t = (1 + (commaCount t + 1) + Z.min (length t / 100) 3)%Z.
Proof.
  unfold contentScore, commaCount. rewrite splitOn_length. lia.
Qed.

End ContentScore.

Section ContentScore2.
Import Phase2.

Lemma scoreElement_scores fuel store cands k info a rest :
  getElementInfo k store = Some info ->
  isVisibleBasedOnAttrs info = true ->
  (25 <= length (getInnerText k store true))%Z ->
  getAncestorIds fuel k store 5 = Some (a :: rest) ->
  scoreElement fuel (store, cands) k
  = Some (forEachLevel
            (2 + commaCount (getInnerText k store true)
             + Z.min (length (getInnerText k store true) / 100) 3)
            (store, cands) (a :: rest) 0).
Proof.
  intros Hi Hv Hlen Ha. unfold scoreElement. cbn [fst]. rewrite Hi, Hv. cbn [negb].
  destruct (Z.ltb_spec (length (getInnerText k store true)) 25); [lia|].
  rewrite Ha. cbn [mbind option_bind]. rewrite contentScore_formula.
  do 2 f_equal. lia.
Qed.

Lemma propagate_adds score store cands a level info :
  getElementInfo a store = Some info ->
  isVisibleBasedOnAttrs info = true ->
  isUnlikelyCandidate a store = false ->
  getElementInfo a (fst (propagate score (store, cands) a level))
  = Some (withReadability
            (Some (match readability info with
                   | Some s => s
                   | None => initialScore a info store
                   end + ofZ score / ofZ (scoreDivider level))%float) info).
Proof.
  intros Hi Hv Hu. unfold propagate. rewrite Hi, Hv, Hu. cbn [negb orb].
  destruct (readability info) as [s|] eqn:Hr.
  - cbn [fst]. unfold getElementInfo in *.
    rewrite (storeGet_storeUpdate_eq a _ store info Hi). rewrite Hr. reflexivity.
  - unfold initializeNodeScore. rewrite Hi, Hr.
    assert (G : storeGet a (storeUpdate a
                 (withReadability (Some (initialScore a info store))) store)
                = Some (withReadability (Some (initialScore a info store)) info))
      by (apply storeGet_storeUpdate_eq; exact Hi).
    destruct (0 <=? initialScore a info store)%float; cbn [fst];
      unfold getElementInfo;
      rewrite (storeGet_storeUpdate_eq a _ _ _ G); reflexivity.
Qed.

End ContentScore2.

Section SoleChild.
Import Phase2.

Variable store : ElementStore.

Lemma climbSoleChild_unfold fuel c parent info :
  climbSoleChild fuel store c parent info =
  match parent, info with
  | Some p, Some i =>
      if negb (Z.eqb p 0) && negb (eqb (tagName i) (js "BODY")) then
        if Nat.eqb (List.length (getChildrenIds p store)) 1 then
          match fuel with
          | O => None
          | S fuel' =>
              climbSoleChild fuel' store p (getParentId p store)
                (getElementInfo p store)
          end
        else Some c
      else Some c
  | _, _ => Some c
  end.
Proof. destruct fuel; reflexivity. Qed.

Lemma climbSoleChild_sound : forall fuel c r,
  climbSoleChild fuel store c (getParentId c store) (getElementInfo c store)
  = Some r ->
  rtc (soleChildStep store) c r /\ forall p, ~ soleChildStep store r p.
Proof.
  induction fuel as [|fuel IH]; intros c r; rewrite climbSoleChild_unfold;
    destruct (getParentId c store) as [p|] eqn:Hp;
    try (intros [= <-]; split; [apply rtc_refl|];
         intros q (Hq & _); congruence);
    destruct (getElementInfo c store) as [i|] eqn:Hi;
    try (intros [= <-]; split; [apply rtc_refl|];
         intros q (_ & _ & (i' & Hi' & _) & _); congruence);
    destruct (Z.eqb_spec p 0); cbn [negb andb];
    try (intros [= <-]; split; [apply rtc_refl|];
         intros q (Hq & Hq0 & _); congruence);
    destruct (eqb (tagName i) (js "BODY")) eqn:Hb; cbn [negb];
    try (intros [= <-]; split; [apply rtc_refl|];
         intros q (_ & _ & (i' & Hi' & Hb') & _); congruence);
    destruct (Nat.eqb_spec (List.length (getChildrenIds p store)) 1);
    try (intros [= <-]; split; [apply rtc_refl|];
         intros q (Hq & _ & _ & Hl); congruence);
    try discriminate.
  intros E. destruct (IH p r E) as [Hrtc Hstuck]. split; auto.
  eapply rtc_l; [|exact Hrtc].
  repeat split; eauto.
Qed.

Lemma climbSoleChild_total M :
  WfStore M store ->
  forall fuel c, (c <= Z.of_nat fuel)%Z ->
  exists r, climbSoleChild fuel store c (getParentId c store)
              (getElementInfo c store) = Some r.
Proof.
  intros W. induction fuel as [|fuel IH]; intros c Hc;
    rewrite climbSoleChild_unfold;
    destruct (getParentId c store) as [p|] eqn:Hp; eauto;
    destruct (getElementInfo c store) as [i|]; eauto;
    destruct (_ && _); eauto; destruct (Nat.eqb _ _); eauto;
    destruct (WfStore_parent M store c p W Hp).
  - lia.
  - apply IH. lia.
Qed.

Lemma climbSoleChild_into_body fuel c p info pinfo :
  getParentId c store = Some p -> p <> 0%Z ->
  eqb (tagName info) (js "BODY") = false ->
  List.length (getChildrenIds p store) = 1%nat ->
  getElementInfo p store = Some pinfo ->
  tagName pinfo = js "BODY" ->
  climbSoleChild (S fuel) store c (Some p) (Some info) = Some p.
Proof.
  intros Hp Hp0 Hb Hl Hpi Hpt. rewrite climbSoleChild_unfold.
  destruct (Z.eqb_spec p 0); [contradiction|]. rewrite Hb, Hl. cbn [negb andb Nat.eqb].
  rewrite climbSoleChild_unfold, Hpi, Hpt.
  destruct (getParentId p store); [|reflexivity].
  change (eqb (js "BODY") (js "BODY")) with true. cbn [negb].
  rewrite andb_false_r. reflexivity.
Qed.

End SoleChild.


Section PhaseOneShape.
Import Phase1.

Lemma storeSet_fresh k v (st : ElementStore) :
  ~ In k (List.map fst st) -> storeSet k v st = st ++ [(k, v)].
Proof.
  induction st as [|[k0 v0] st IH]; cbn; [reflexivity|].
  intros Hn. destruct (Z.eqb_spec k0 k); [tauto|]. f_equal. apply IH. tauto.
Qed.

Lemma WfStore_keys M st k : WfStore M st -> In k (List.map fst st) -> (0 < k <= M)%Z.
Proof.
  intros [_ W] Hin. apply in_map_iff in Hin as ([k' i] & E & Hin). cbn in E. subst.
  apply (W k i Hin).
Qed.

Lemma WfStore_storeSet M st v :
  (0 <= M)%Z -> WfStore M st ->
  (forall p, parentId v = Some p -> (0 < p <= M)%Z) ->
  WfStore (M + 1) (storeSet (M + 1) v st).
Proof.
  intros HM W Hv.
  assert (Hfresh : ~ In (M + 1)%Z (List.map fst st)).
  { intros Hin. pose proof (WfStore_keys M st _ W Hin). lia. }
  rewrite storeSet_fresh by exact Hfresh.
  destruct W as [Hnd W]. split.
  - rewrite map_app. cbn. apply NoDup_app. repeat split; auto.
    + intros x Hx Hx'. apply list_elem_of_In in Hx, Hx'. cbn in Hx'.
      destruct Hx' as [<-|[]]. contradiction.
    + apply NoDup_singleton.
  - intros k i Hin. apply in_app_or in Hin as [Hin|[E|[]]].
    + destruct (W k i Hin) as [Hr Hp]. split; [lia|exact Hp].
    + inversion E; subst. split; [lia|].
      intros p Hp. specialize (Hv p Hp). lia.
Qed.

Lemma parentId_newElementInfo k parent tag el :
  parentId (newElementInfo k parent tag el) = parent.
Proof. reflexivity. Qed.

Lemma element_phaseInv el h : phaseInv h -> phaseInv (element el h).
Proof.
  intros (W & Hs & Hc). unfold element.
  destruct (_ && _); [exact (conj W (conj Hs Hc))|].
  cbn [setCount elementCount elementStore maxElemsToParse elementCounter
       elementStack lastTextChunkMap metadataStore].
  destruct (isSkipped _ _); [exact (conj W (conj Hs Hc))|].
  match goal with |- context [storeSet _ ?i _] => set (info := i) end.
  assert (W' : WfStore (elementCounter h + 1)
                 (storeSet (elementCounter h + 1) info (elementStore h))).
  { apply WfStore_storeSet; auto. intros p Hp.
    unfold info in Hp. rewrite parentId_newElementInfo in Hp.
    unfold getCurrentElementIdFromStack in Hp. cbn [elementStack setCount] in Hp.
    destruct (elementStack h) as [|top rest]; [discriminate|].
    inversion Hp; subst. inversion Hs; subst. assumption. }
  assert (Hs' : Forall (fun k => (0 < k <= elementCounter h + 1)%Z) (elementStack h)).
  { eapply Forall_impl; [exact Hs|]. cbn. intros; lia. }
  destruct (negb _); [destruct (Host.onEndTagThrows el)|];
    (split; [|split]); cbn [elementStore elementCounter elementStack];
    try exact W'; try exact Hs'; try lia.
  - constructor; [lia|exact Hs'].
  - apply WfStore_storeUpdate; [reflexivity|exact W'].
Qed.

Lemma text_phaseInv c h : phaseInv h -> phaseInv (text c h).
Proof.
  intros (W & Hs & Hc).
  unfold text. destruct (getCurrentElementIdFromStack h) as [cur|]; [|exact (conj W (conj Hs Hc))].
  destruct (_ <? _)%Z; [|exact (conj W (conj Hs Hc))].
  destruct (storeGet cur (elementStore h)) as [info|]; [|exact (conj W (conj Hs Hc))].
  destruct (negb _); [|exact (conj W (conj Hs Hc))].
  destruct (differs _ _); [|exact (conj W (conj Hs Hc))].
  split; [|split]; cbn [elementStore elementCounter elementStack]; auto.
  apply WfStore_storeUpdate; [reflexivity|exact W].
Qed.

Lemma onEndTag_phaseInv h : phaseInv h -> phaseInv (onEndTag h).
Proof.
  intros (W & Hs & Hc). unfold onEndTag.
  destruct (elementStack h) as [|top rest] eqn:E; [rewrite <- E in Hs; exact (conj W (conj Hs Hc))|].
  inversion Hs; subst.
  destruct (storeGet top (elementStore h)) as [info|];
    (split; [|split]); cbn [elementStore elementCounter elementStack]; auto.
  apply WfStore_storeUpdate; [reflexivity|exact W].
Qed.

Lemma step_phaseInv h e : phaseInv h -> phaseInv (step h e).
Proof.
  intros Hi. destruct e; cbn [step].
  - apply element_phaseInv; auto.
  - apply text_phaseInv; auto.
  - apply onEndTag_phaseInv; auto.
  - exact Hi.
Qed.

Lemma run_phaseInv events : forall h, phaseInv h -> phaseInv (run events h).
Proof.
  induction events as [|e events IH]; intros h Hi; cbn [run fold_left]; auto.
  apply IH. apply step_phaseInv. exact Hi.
Qed.

Lemma new_phaseInv meta maxElems : phaseInv (new [] meta 0 maxElems).
Proof.
  split; [|split]; cbn; [|constructor|lia].
  split; [constructor|]. intros k i [].
Qed.

End PhaseOneShape.

Section Pipeline.
Import Readability.

Lemma runPhase1_phaseInv events r :
  WfStore (elementCounter (runPhase1 events r)) (elementStore (runPhase1 events r))
  /\ (0 <= elementCounter (runPhase1 events r))%Z.
Proof.
  unfold runPhase1. cbn [elementStore elementCounter resetState metadataStore options].
  destruct (run_phaseInv events _ (new_phaseInv emptyMetadata
              (maxElemsToParse (options r)))) as (W & _ & Hc).
  split; assumption.
Qed.

Lemma process_no_positive fuel events r store' scores :
  Phase2.candidateScores fuel (elementStore (runPhase1 events r))
    = Some (store', scores) ->
  (forall e, In e scores -> (0 <? snd e)%float = false) ->
  process fuel events r
  = Some (None, withStore store' (elementsToKeepIdsSet (runPhase1 events r))
                  (runPhase1 events r)).
Proof.
  intros E H. unfold process, runPhase2.
  rewrite (scorer_no_positive fuel _ _ store' scores E H).
  reflexivity.
Qed.

Lemma process_reset fuel events r1 r2 :
  options r1 = options r2 -> baseURI r1 = baseURI r2 ->
  process fuel events r1 = process fuel events r2.
Proof.
  intros Ho Hb. unfold process, runPhase1, resetState. rewrite Ho, Hb. reflexivity.
Qed.

Lemma process_config fuel events r out r' :
  process fuel events r = Some (out, r') ->
  options r' = options r /\ baseURI r' = baseURI r.
Proof.
  unfold process, runPhase2.
  destruct (Phase2.calculateScoresAndFindBestCandidate _ _ _) as [[res st]|];
    cbn [mbind option_bind fst snd]; [|discriminate].
  destruct (_ || _).
  - intros [= <- <-]. split; reflexivity.
  - destruct (convertToMarkdown _ _ _); cbn [mbind option_bind]; [|discriminate].
    intros [= <- <-]. split; reflexivity.
Qed.

Lemma process_threshold fuel events r out r' :
  process fuel events r = Some (Some out, r') ->
  (default CHAR_THRESHOLD (charThreshold (options r))
   <= Phase2.totalTextLength (elementStore r') (elementsToKeepIdsSet r'))%Z.
Proof.
  unfold process, runPhase2.
  destruct (Phase2.calculateScoresAndFindBestCandidate _ _ _) as [[res st]|] eqn:E;
    cbn [mbind option_bind fst snd]; [|discriminate].
  destruct (_ || _) eqn:Hn; [discriminate|].
  destruct (convertToMarkdown _ _ _); cbn [mbind option_bind]; [|discriminate].
  intros [= <- <-]. cbn [withStore elementStore elementsToKeepIdsSet].
  apply gate_result in E as [->|(c & _ & Hc)].
  - cbn in Hn. discriminate.
  - exact Hc.
Qed.

End Pipeline.

Section FuelMonotone.

(** Peels the first bind of a hypothesis [x ← m; k = Some r]. *)
Ltac bind_in H E :=
  cbv beta in H;
  match type of H with
  | (?m ≫= _) = Some _ =>
      destruct m eqn:E; cbn [mbind option_bind] in H; [|discriminate H]
  end.

Lemma foldM_mono {A B} (f g : B -> A -> option B) l :
  (forall acc x r, In x l -> f acc x = Some r -> g acc x = Some r) ->
  forall acc r, foldM f l acc = Some r -> foldM g l acc = Some r.
Proof.
  induction l as [|x l IH]; intros Hfg acc r H; cbn [foldM] in *; [exact H|].
  bind_in H E. rewrite (Hfg _ _ _ (or_introl eq_refl) E). cbn [mbind option_bind].
  apply IH; auto. intros a y r' Hy. apply Hfg. right. exact Hy.
Qed.

Lemma ancestorsLoop_mono store maxDepth : forall fuel fuel' k depth l,
  (fuel <= fuel')%nat ->
  ancestorsLoop fuel store maxDepth k depth = Some l ->
  ancestorsLoop fuel' store maxDepth k depth = Some l.
Proof.
  induction fuel as [|fuel IH]; intros fuel' k depth l Hle H.
  - destruct fuel'; [exact H|]. cbn [ancestorsLoop] in *.
    destruct (_ || _); [|exact H].
    destruct (getParentId k store); [discriminate|exact H].
  - destruct fuel' as [|fuel']; [lia|]. cbn [ancestorsLoop] in *.
    destruct (_ || _); [|exact H].
    destruct (getParentId k store) as [p|]; [|exact H].
    bind_in H E. rewrite (IH fuel' p _ _ ltac:(lia) E). exact H.
Qed.

Lemma getAncestorIds_mono store fuel fuel' k maxDepth l :
  (fuel <= fuel')%nat ->
  getAncestorIds fuel k store maxDepth = Some l ->
  getAncestorIds fuel' k store maxDepth = Some l.
Proof. apply ancestorsLoop_mono. Qed.

Lemma getDescendantIds_mono store : forall fuel fuel' k l,
  (fuel <= fuel')%nat ->
  getDescendantIds fuel k store = Some l ->
  getDescendantIds fuel' k store = Some l.
Proof.
  induction fuel as [|fuel IH]; intros fuel' k l Hle H; [discriminate|].
  destruct fuel' as [|fuel']; [lia|]. cbn [getDescendantIds] in *.
  revert H. apply foldM_mono. intros acc x r _ H; cbv beta in H |- *.
  bind_in H E. rewrite (IH fuel' x _ ltac:(lia) E). exact H.
Qed.

Lemma getTotalVisibleInnerText_mono store norm : forall fuel fuel' k t,
  (fuel <= fuel')%nat ->
  getTotalVisibleInnerText fuel k store norm = Some t ->
  getTotalVisibleInnerText fuel' k store norm = Some t.
Proof.
  induction fuel as [|fuel IH]; intros fuel' k t Hle H; [discriminate|].
  destruct fuel' as [|fuel']; [lia|]. cbn [getTotalVisibleInnerText] in *.
  cbv zeta in *. bind_in H E.
  erewrite foldM_mono; [exact H| |exact E].
  intros acc x r _ Hx; cbv beta in Hx |- *. bind_in Hx Ex.
  rewrite (IH fuel' x _ ltac:(lia) Ex). exact Hx.
Qed.

Lemma getLinkDensity_mono store fuel fuel' k d :
  (fuel <= fuel')%nat ->
  getLinkDensity fuel k store = Some d ->
  getLinkDensity fuel' k store = Some d.
Proof.
  intros Hle H. unfold getLinkDensity in *.
  bind_in H E. rewrite (getTotalVisibleInnerText_mono _ _ _ _ _ _ Hle E).
  cbn [mbind option_bind].
  destruct (Z.eqb _ 0); [exact H|].
  bind_in H Ed. rewrite (getDescendantIds_mono _ _ _ _ _ Hle Ed).
  cbn [mbind option_bind].
  bind_in H Ef.
  erewrite foldM_mono; [exact H| |exact Ef].
  intros acc x r _ Hx; cbv beta in Hx |- *.
  destruct (getElementInfo x store); [|exact Hx].
  destruct (_ && _); [|exact Hx].
  bind_in Hx Et. rewrite (getTotalVisibleInnerText_mono _ _ _ _ _ _ Hle Et).
  exact Hx.
Qed.


Section ScorerMonotone.
Import Phase2.

Lemma scoreElement_mono fuel fuel' st k r :
  (fuel <= fuel')%nat ->
  scoreElement fuel st k = Some r -> scoreElement fuel' st k = Some r.
Proof.
  intros Hle H. unfold scoreElement in *.
  destruct (getElementInfo k (fst st)); [|exact H].
  destruct (negb _); [exact H|].
  destruct (_ <? _)%Z; [exact H|].
  bind_in H E. rewrite (getAncestorIds_mono _ _ _ _ _ _ Hle E). exact H.
Qed.

Lemma scoreElements_mono fuel fuel' store r :
  (fuel <= fuel')%nat ->
  scoreElements fuel store = Some r -> scoreElements fuel' store = Some r.
Proof.
  intros Hle. unfold scoreElements. apply foldM_mono.
  intros acc x r' _. apply scoreElement_mono. exact Hle.
Qed.

Lemma adjustCandidate_mono fuel fuel' st k r :
  (fuel <= fuel')%nat ->
  adjustCandidate fuel st k = Some r -> adjustCandidate fuel' st k = Some r.
Proof.
  intros Hle H. unfold adjustCandidate in *. destruct st as [store scores].
  destruct (getElementInfo k store) as [info|]; [|exact H].
  destruct (readability info); [|exact H].
  bind_in H E. rewrite (getLinkDensity_mono _ _ _ _ _ Hle E). exact H.
Qed.

Lemma candidateScores_mono fuel fuel' store r :
  (fuel <= fuel')%nat ->
  candidateScores fuel store = Some r -> candidateScores fuel' store = Some r.
Proof.
  intros Hle H. unfold candidateScores in *.
  bind_in H E. rewrite (scoreElements_mono _ _ _ _ Hle E).
  cbn [mbind option_bind]. revert H. unfold adjustCandidates.
  apply foldM_mono. intros acc x r' _. apply adjustCandidate_mono. exact Hle.
Qed.

Lemma climbByScore_mono store : forall fuel fuel' c s parent r,
  (fuel <= fuel')%nat ->
  climbByScore fuel store c s parent = Some r ->
  climbByScore fuel' store c s parent = Some r.
Proof.
  induction fuel as [|fuel IH]; intros fuel' c s parent r Hle H.
  - destruct fuel'; [exact H|]. cbn [climbByScore] in *.
    destruct parent as [p|]; [|exact H].
    destruct (negb _); [|exact H].
    destruct (_ <? _)%float; [exact H|].
    destruct (_ <? _)%float; [discriminate|exact H].
  - destruct fuel' as [|fuel']; [lia|]. cbn [climbByScore] in *.
    destruct parent as [p|]; [|exact H].
    destruct (negb _); [|exact H].
    destruct (_ <? _)%float; [exact H|].
    destruct (_ <? _)%float; [|exact H].
    apply IH; [lia|exact H].
Qed.

Lemma climbSoleChild_mono store : forall fuel fuel' c parent info r,
  (fuel <= fuel')%nat ->
  climbSoleChild fuel store c parent info = Some r ->
  climbSoleChild fuel' store c parent info = Some r.
Proof.
  induction fuel as [|fuel IH]; intros fuel' c parent info r Hle H.
  - destruct fuel'; [exact H|]. cbn [climbSoleChild] in *.
    destruct parent as [p|]; [|exact H]. destruct info as [i|]; [|exact H].
    destruct (_ && _); [|exact H].
    destruct (Nat.eqb _ _); [discriminate|exact H].
  - destruct fuel' as [|fuel']; [lia|]. cbn [climbSoleChild] in *.
    destruct parent as [p|]; [|exact H]. destruct info as [i|]; [|exact H].
    destruct (_ && _); [|exact H].
    destruct (Nat.eqb _ _); [|exact H].
    apply IH; [lia|exact H].
Qed.

Lemma keepSubtree_mono fuel fuel' store keep k r :
  (fuel <= fuel')%nat ->
  keepSubtree fuel store keep k = Some r ->
  keepSubtree fuel' store keep k = Some r.
Proof.
  intros Hle H. unfold keepSubtree in *.
  bind_in H E. rewrite (getDescendantIds_mono _ _ _ _ _ Hle E). exact H.
Qed.

Lemma combineSiblings_mono fuel fuel' store c s r :
  (fuel <= fuel')%nat ->
  combineSiblings fuel store c s = Some r ->
  combineSiblings fuel' store c s = Some r.
Proof.
  intros Hle H. unfold combineSiblings in *.
  destruct (getParentId c store) as [p|].
  - destruct (_ && _).
    + revert H. apply foldM_mono. intros acc x r' _ H; cbv beta in H |- *.
      destruct (getElementInfo x store); [|exact H].
      destruct (negb _); [exact H|].
      match goal with |- context [if ?b then _ else _] => destruct b end;
        [|exact H].
      apply (keepSubtree_mono _ _ _ _ _ _ Hle H).
    + destruct (negb _); [|exact H]. apply (keepSubtree_mono _ _ _ _ _ _ Hle H).
  - destruct (negb _); [|exact H]. apply (keepSubtree_mono _ _ _ _ _ _ Hle H).
Qed.

Lemma selectCandidate_mono fuel fuel' store scores r :
  (fuel <= fuel')%nat ->
  selectCandidate fuel store scores = Some r ->
  selectCandidate fuel' store scores = Some r.
Proof.
  intros Hle H. unfold selectCandidate in *.
  destruct (sortedCandidates scores) as [|[topId topScore] rest]; [exact H|].
  bind_in H E1. rewrite (climbByScore_mono _ _ _ _ _ _ _ Hle E1).
  cbn [mbind option_bind]. destruct p as [c s].
  bind_in H E2. rewrite (climbSoleChild_mono _ _ _ _ _ _ _ Hle E2).
  cbn [mbind option_bind].
  bind_in H E3. rewrite (combineSiblings_mono _ _ _ _ _ _ Hle E3). exact H.
Qed.

Lemma calculate_mono fuel fuel' store opts r :
  (fuel <= fuel')%nat ->
  calculateScoresAndFindBestCandidate fuel store opts = Some r ->
  calculateScoresAndFindBestCandidate fuel' store opts = Some r.
Proof.
  intros Hle H. unfold calculateScoresAndFindBestCandidate in *. cbv zeta in *.
  bind_in H E1. rewrite (candidateScores_mono _ _ _ _ Hle E1).
  cbn [mbind option_bind]. destruct p as [s sc].
  bind_in H E2. rewrite (selectCandidate_mono _ _ _ _ _ Hle E2). exact H.
Qed.

End ScorerMonotone.

Section ConverterMonotone.
Import Markdown.

Lemma forEachChild_mono (f g : Z -> Z -> option jsstring) children :
  (forall c i r, In c children -> f c i = Some r -> g c i = Some r) ->
  forall index acc r,
    forEachChild f children index acc = Some r ->
    forEachChild g children index acc = Some r.
Proof.
  induction children as [|c rest IH]; intros Hfg index acc r H;
    cbn [forEachChild] in *; [exact H|].
  bind_in H E. rewrite (Hfg _ _ _ (or_introl eq_refl) E). cbn [mbind option_bind].
  apply IH; auto. intros c' i r' Hc. apply Hfg. right. exact Hc.
Qed.

Lemma convertNodeRecursive_mono store keep base :
  forall fuel fuel' k level ordered number r,
    (fuel <= fuel')%nat ->
    convertNodeRecursive store keep base fuel k level ordered number = Some r ->
    convertNodeRecursive store keep base fuel' k level ordered number = Some r.
Proof.
  induction fuel as [|fuel IH]; intros fuel' k level ordered number r Hle H;
    [discriminate|].
  destruct fuel' as [|fuel']; [lia|]. cbn [convertNodeRecursive] in *.
  destruct (storeGet k store) as [info|]; [|exact H].
  destruct (negb _); [exact H|]. cbv zeta in *.
  bind_in H E.
  erewrite forEachChild_mono; [exact H| |exact E].
  intros c i r' _ Hc; cbv beta in Hc |- *. apply (IH fuel'); [lia|exact Hc].
Qed.

Lemma convert_mono store keep base fuel fuel' root r :
  (fuel <= fuel')%nat ->
  convert store keep base fuel root = Some r ->
  convert store keep base fuel' root = Some r.
Proof.
  intros Hle H. unfold convert in *. destruct root as [root|]; [|exact H].
  bind_in H E.
  erewrite foldM_mono; [exact H| |exact E].
  intros acc x r' _ Hx; cbv beta in Hx |- *.
  bind_in Hx Ex. rewrite (convertNodeRecursive_mono _ _ _ _ _ _ _ _ _ _ Hle Ex).
  exact Hx.
Qed.

End ConverterMonotone.

Section ProcessMonotone.
Import Readability.

Lemma process_mono fuel fuel' events r res :
  (fuel <= fuel')%nat ->
  process fuel events r = Some res -> process fuel' events r = Some res.
Proof.
  intros Hle H. unfold process in *.
  generalize dependent (runPhase1 events r). intros r1 H.
  unfold runPhase2 in *. cbv zeta in *.
  bind_in H E1. bind_in E1 E0. injection E1 as <-.
  rewrite (calculate_mono _ _ _ _ _ Hle E0). cbn [mbind option_bind].
  destruct p0 as [result st]. cbn [fst snd] in H |- *.
  destruct (_ || _); [exact H|].
  bind_in H E2. unfold convertToMarkdown in *.
  match type of E2 with
  | match ?root with _ => _ end = _ => destruct root as [rootId|]
  end; cbv iota in E2 |- *.
  - rewrite (convert_mono _ _ _ _ _ _ _ Hle E2). exact H.
  - rewrite E2. exact H.
Qed.

End ProcessMonotone.

End FuelMonotone.

Section SelectionTotal.
Import Phase2.

Variable M : Z.
Variable store : ElementStore.
Hypothesis Hwf : WfStore M store.

Lemma climbByScore_total : forall fuel c s,
  (Z.min c M <= Z.of_nat fuel)%Z ->
  exists r, climbByScore fuel store c s (getParentId c store) = Some r.
Proof.
  induction fuel as [|fuel IH]; intros c s Hc; cbn [climbByScore];
    destruct (getParentId c store) as [p|] eqn:Hp; eauto;
    destruct (negb _); eauto;
    destruct (_ <? _)%float; eauto; destruct (_ <? _)%float; eauto;
    destruct (WfStore_parent M store c p Hwf Hp).
  - lia.
  - apply IH. lia.
Qed.

Lemma climbSoleChild_total_below : forall fuel c,
  (Z.min c M <= Z.of_nat fuel)%Z ->
  exists r, climbSoleChild fuel store c (getParentId c store)
              (getElementInfo c store) = Some r.
Proof.
  induction fuel as [|fuel IH]; intros c Hc;
    rewrite climbSoleChild_unfold;
    destruct (getParentId c store) as [p|] eqn:Hp; eauto;
    destruct (getElementInfo c store) as [i|]; eauto;
    destruct (_ && _); eauto; destruct (Nat.eqb _ _); eauto;
    destruct (WfStore_parent M store c p Hwf Hp).
  - lia.
  - apply IH. lia.
Qed.

Lemma keepSubtree_total fuel keep k :
  (Z.to_nat (M + 1) < fuel)%nat ->
  exists r, keepSubtree fuel store keep k = Some r.
Proof.
  intros Hf. unfold keepSubtree.
  destruct (getDescendantIds_total M store Hwf fuel k) as (l & E).
  { pose proof (depthBelow_le M k). lia. }
  rewrite E. cbn. eauto.
Qed.

Lemma combineSiblings_total fuel c s :
  (Z.to_nat (M + 1) < fuel)%nat ->
  exists r, combineSiblings fuel store c s = Some r.
Proof.
  intros Hf. unfold combineSiblings.
  destruct (getParentId c store) as [p|].
  - destruct (_ && _).
    + match goal with |- context [foldM ?f ?l ?a] =>
        destruct (foldM_invariant (fun _ => True) f l a I) as (r & E & _) end;
        [|eauto].
      intros acc x _ _.
      destruct (getElementInfo x store); [|eauto].
      destruct (negb _); [eauto|].
      match goal with |- context [if ?b then _ else _] => destruct b end;
        [|eauto].
      destruct (keepSubtree_total fuel acc x Hf) as (r & E). eauto.
    + destruct (negb _); [|eauto]. apply keepSubtree_total; auto.
  - destruct (negb _); [|eauto]. apply keepSubtree_total; auto.
Qed.

Lemma selectCandidate_total fuel scores :
  (Z.to_nat (M + 1) < fuel)%nat ->
  exists r, selectCandidate fuel store scores = Some r.
Proof.
  intros Hf. unfold selectCandidate.
  destruct (sortedCandidates scores) as [|[topId topScore] rest]; [eauto|].
  destruct (climbByScore_total fuel topId topScore) as ([c s] & E1); [lia|].
  rewrite E1. cbn [mbind option_bind].
  destruct (climbSoleChild_total_below fuel c) as (c' & E2); [lia|].
  rewrite E2. cbn [mbind option_bind].
  destruct (combineSiblings_total fuel c' s Hf) as (keep & E3).
  rewrite E3. cbn [mbind option_bind]. eauto.
Qed.

End SelectionTotal.

Section ScorerTotal.
Import Phase2.

Lemma calculate_total M store fuel opts :
  WfStore M store -> (5 <= fuel)%nat -> (Z.to_nat (M + 1) < fuel)%nat ->
  exists res store',
    calculateScoresAndFindBestCandidate fuel store opts = Some (res, store')
    /\ WfStore M store'.
Proof.
  intros W H5 Hf. unfold calculateScoresAndFindBestCandidate. cbv zeta.
  destruct (candidateScores_total M fuel store H5 Hf W) as (s & sc & E & W').
  rewrite E. cbn [mbind option_bind].
  destruct (selectCandidate_total M s W' fuel sc Hf) as (sel & E2).
  rewrite E2. cbn [mbind option_bind].
  destruct sel as [[top keep]|]; [destruct (_ <? _)%Z|]; eauto.
Qed.

End ScorerTotal.

Section ConverterTotal.
Import Markdown.

Lemma forEachChild_total (f : Z -> Z -> option jsstring) children :
  (forall c i, In c children -> exists r, f c i = Some r) ->
  forall index acc, exists r, forEachChild f children index acc = Some r.
Proof.
  induction children as [|c rest IH]; intros Hf index acc; cbn [forEachChild];
    [eauto|].
  destruct (Hf c index (or_introl eq_refl)) as (md & E). rewrite E.
  cbn [mbind option_bind]. apply IH. intros c' i Hc. apply Hf. right. exact Hc.
Qed.

Lemma convertNodeRecursive_total M store keep base :
  WfStore M store ->
  forall fuel k level ordered number,
    (depthBelow M k < fuel)%nat ->
    exists r,
      convertNodeRecursive store keep base fuel k level ordered number = Some r.
Proof.
  intros W. induction fuel as [|fuel IH]; intros k level ordered number Hf; [lia|].
  cbn [convertNodeRecursive].
  destruct (storeGet k store) as [info|]; [|eauto].
  destruct (negb _); [eauto|]. cbv zeta.
  match goal with |- context [forEachChild ?f ?l ?i ?a] =>
    destruct (forEachChild_total f l) with (index := i) (acc := a) as (md & E) end.
  { intros c i Hc. apply IH.
    pose proof (depthBelow_child M store W k c Hc). lia. }
  rewrite E. cbn [mbind option_bind]. eauto.
Qed.

Lemma convert_total M store keep base fuel root :
  WfStore M store -> (Z.to_nat (M + 1) < fuel)%nat ->
  exists r, convert store keep base fuel root = Some r.
Proof.
  intros W Hf. unfold convert. destruct root as [root|]; [|eauto].
  match goal with |- context [foldM ?f ?l ?a] =>
    destruct (foldM_invariant (fun _ => True) f l a I) as (r & E & _) end.
  { intros acc x _ _.
    destruct (convertNodeRecursive_total M store keep base W fuel x 0%Z false 1%Z)
      as (md & E).
    { pose proof (depthBelow_le M x). lia. }
    rewrite E. cbn. eauto. }
  rewrite E. cbn. eauto.
Qed.

End ConverterTotal.

Section ProcessTotal.
Import Readability.

Lemma step_counter h e :
  (Phase1.elementCounter (Phase1.step h e) <= Phase1.elementCounter h + 1)%Z.
Proof.
  destruct e; cbn [Phase1.step].
  - unfold Phase1.element. destruct (_ && _); [lia|].
    cbn [Phase1.setCount Phase1.elementCount Phase1.elementStore
         Phase1.maxElemsToParse Phase1.elementCounter Phase1.elementStack
         Phase1.lastTextChunkMap Phase1.metadataStore].
    destruct (Phase1.isSkipped _ _);
      cbn [Phase1.elementCounter Phase1.setCount]; [lia|].
    destruct (negb _); [destruct (Host.onEndTagThrows el)|];
      cbn [Phase1.elementCounter Phase1.setCount]; lia.
  - destruct (text_cases h chunk) as [E|(cur & rest & info & _ & _ & _ & _ & E)];
      rewrite E; [lia|]. unfold recorded. cbn [Phase1.elementCounter]. lia.
  - unfold Phase1.onEndTag. destruct (Phase1.elementStack h); [lia|].
    destruct (storeGet _ _); cbn [Phase1.elementCounter]; lia.
  - cbn [Phase1.end_ Phase1.elementCounter]. lia.
Qed.

Lemma run_counter events : forall h,
  (Phase1.elementCounter (Phase1.run events h)
   <= Phase1.elementCounter h + Z.of_nat (List.length events))%Z.
Proof.
  induction events as [|e events IH]; intros h; cbn [Phase1.run fold_left List.length].
  - lia.
  - pose proof (IH (Phase1.step h e)). pose proof (step_counter h e).
    unfold Phase1.run in *. lia.
Qed.

Lemma runPhase1_counter events r :
  (elementCounter (runPhase1 events r) <= Z.of_nat (List.length events))%Z.
Proof.
  unfold runPhase1. cbn [elementCounter].
  pose proof (run_counter events
    (Phase1.new (elementStore (resetState r)) (metadataStore (resetState r))
       (elementCounter (resetState r)) (maxElemsToParse (options (resetState r))))).
  cbn in H. exact H.
Qed.

Lemma process_total events r fuel :
  (List.length events + 5 <= fuel)%nat ->
  exists out r', process fuel events r = Some (out, r').
Proof.
  intros Hf. unfold process.
  pose proof (runPhase1_counter events r) as Hc.
  destruct (runPhase1_phaseInv events r) as [W H0].
  generalize dependent (runPhase1 events r). intros r1 Hc W H0.
  unfold runPhase2. cbv zeta.
  destruct (calculate_total _ _ fuel (scoringOptions (options r1)) W)
    as (res & st & E & W'); [lia|lia|].
  rewrite E. cbn [mbind option_bind fst snd].
  destruct (_ || _); [eauto|].
  unfold convertToMarkdown.
  match goal with |- context [match ?root with Some _ => _ | None => _ end ≫= _] =>
    destruct root as [rootId|] end.
  - cbn [withStore elementStore elementsToKeepIdsSet baseURI].
    destruct (convert_total _ st (Phase2.elementsToKeepIds res) (baseURI r1)
                fuel (Some rootId) W') as (md & Em); [lia|].
    rewrite Em. cbn [mbind option_bind]. eauto.
  - cbn [mbind option_bind]. eauto.
Qed.

End ProcessTotal.

Section ProcessStable.
Import Readability.

(** From a fuel that covers the document on, [process] returns, and returns
    the same value whatever the fuel and the state of the instance. *)
Lemma process_stable events r1 r2 :
  options r1 = options r2 -> baseURI r1 = baseURI r2 ->
  exists out r',
    forall fuel, (List.length events + 5 <= fuel)%nat ->
      process fuel events r1 = Some (out, r')
      /\ process fuel events r2 = Some (out, r').
Proof.
  intros Ho Hb.
  destruct (process_total events r1 (List.length events + 5) (Nat.le_refl _))
    as (out & r' & E).
  exists out, r'. intros fuel Hf.
  pose proof (process_mono _ fuel _ _ _ Hf E) as E'.
  split; [exact E'|]. rewrite <- (process_reset fuel events r1 r2 Ho Hb). exact E'.
Qed.

Lemma process_fuel_irrelevant fuel fuel' events r res res' :
  process fuel events r = Some res -> process fuel' events r = Some res' ->
  res = res'.
Proof.
  intros E E'. destruct (Nat.le_ge_cases fuel fuel') as [Hle|Hle].
  - rewrite (process_mono _ _ _ _ _ Hle E) in E'. congruence.
  - rewrite (process_mono _ _ _ _ _ Hle E') in E. congruence.
Qed.

End ProcessStable.

(* ===================================================================== *)
(** * Further properties: supporting lemmas *)
(* ===================================================================== *)

Section StringFacts.

Lemma trimStart_split s :
  exists w, s = w ++ trimStart s /\ forallb isWhiteSpace w = true.
Proof.
  induction s as [|c s IH]; cbn [trimStart].
  - exists []. auto.
  - destruct (isWhiteSpace c) eqn:E.
    + destruct IH as (w & Hs & Hw). exists (c :: w). cbn. rewrite E.
      split; [f_equal; exact Hs|exact Hw].
    + exists []. auto.
Qed.

Lemma startsClean_trimStart s : startsClean (trimStart s) = true.
Proof.
  induction s as [|c s IH]; cbn [trimStart]; [reflexivity|].
  destruct (isWhiteSpace c) eqn:E; [exact IH|]. cbn. rewrite E. reflexivity.
Qed.

Lemma trimEnd_split s :
  exists w, s = trimEnd s ++ w /\ forallb isWhiteSpace w = true.
Proof.
  unfold trimEnd. destruct (trimStart_split (rev s)) as (w & Hs & Hw).
  exists (rev w). split.
  - rewrite <- rev_app_distr, <- Hs, rev_involutive. reflexivity.
  - rewrite forallb_forall in *. intros x Hx. apply Hw. apply in_rev. exact Hx.
Qed.

Lemma endsClean_trimEnd s : endsClean (trimEnd s) = true.
Proof.
  unfold endsClean, trimEnd. rewrite rev_involutive. apply startsClean_trimStart.
Qed.

Lemma startsClean_prefix a b :
  startsClean (a ++ b) = true -> startsClean a = true.
Proof. destruct a; auto. Qed.

Lemma trim_clean s : startsClean (trim s) = true /\ endsClean (trim s) = true.
Proof.
  unfold trim. split; [|apply endsClean_trimEnd].
  destruct (trimEnd_split (trimStart s)) as (w & Hs & _).
  apply (startsClean_prefix _ w). rewrite <- Hs. apply startsClean_trimStart.
Qed.

Lemma trim_split s :
  exists a b, s = a ++ trim s ++ b
              /\ forallb isWhiteSpace a = true /\ forallb isWhiteSpace b = true.
Proof.
  destruct (trimStart_split s) as (a & Ha & Hwa).
  destruct (trimEnd_split (trimStart s)) as (b & Hb & Hwb).
  exists a, b. unfold trim. rewrite <- Hb. auto.
Qed.

Lemma trim_of_clean s :
  startsClean s = true -> endsClean s = true -> trim s = s.
Proof.
  intros Hs He. unfold trim.
  assert (E1 : trimStart s = s).
  { destruct s as [|c s]; [reflexivity|]. cbn in *.
    destruct (isWhiteSpace c); [discriminate|reflexivity]. }
  rewrite E1. unfold trimEnd, endsClean in *.
  assert (E2 : trimStart (rev s) = rev s).
  { destruct (rev s) as [|c r]; [reflexivity|]. cbn in *.
    destruct (isWhiteSpace c); [discriminate|reflexivity]. }
  rewrite E2. apply rev_involutive.
Qed.

Lemma trim_idempotent s : trim (trim s) = trim s.
Proof. destruct (trim_clean s). apply trim_of_clean; assumption. Qed.

Lemma runsBelow_cur_le p n s : forall cur cur',
  (cur' <= cur)%nat -> runsBelow p n cur s = true -> runsBelow p n cur' s = true.
Proof.
  induction s as [|c s IH]; intros cur cur' Hle H; cbn [runsBelow] in *; auto.
  destruct (p c); auto.
  apply andb_true_iff in H as [H1 H2]. apply andb_true_iff. split.
  - apply Nat.ltb_lt in H1. apply Nat.ltb_lt. lia.
  - apply (IH (S cur)); [lia|exact H2].
Qed.

Lemma runsBelow_prefix p n a b : forall cur,
  runsBelow p n cur (a ++ b) = true -> runsBelow p n cur a = true.
Proof.
  induction a as [|c a IH]; intros cur H; cbn [runsBelow app] in *; auto.
  destruct (p c); auto.
  apply andb_true_iff in H as [H1 H2]. rewrite H1. cbn. apply IH. exact H2.
Qed.

Lemma runsBelow_suffix p n a b : forall cur,
  runsBelow p n cur (a ++ b) = true -> runsBelow p n 0 b = true.
Proof.
  induction a as [|c a IH]; intros cur H; cbn [runsBelow app] in *.
  - apply (runsBelow_cur_le p n b cur 0); [lia|exact H].
  - destruct (p c); [|apply (IH 0%nat H)].
    apply andb_true_iff in H as [_ H2]. apply (IH _ H2).
Qed.

Lemma runsBelow_trim p n s :
  runsBelow p n 0 s = true -> runsBelow p n 0 (trim s) = true.
Proof.
  intros H. destruct (trim_split s) as (a & b & Hs & _ & _).
  rewrite Hs in H. apply runsBelow_suffix in H.
  apply (runsBelow_prefix p n _ b). exact H.
Qed.

(** A block of fewer than [n - cur] characters satisfying [p], followed by
    the end or by a character that does not satisfy [p]. *)
Lemma runsBelow_block p n b : forall cur rest,
  forallb p b = true -> (cur + List.length b < n)%nat ->
  match rest with
  | [] => True
  | c :: r => p c = false /\ runsBelow p n 0 r = true
  end ->
  runsBelow p n cur (b ++ rest) = true.
Proof.
  induction b as [|x b IH]; intros cur rest Hb Hlen Hrest; cbn [app].
  - destruct rest as [|c r]; [reflexivity|]. destruct Hrest as [Hc Hr].
    cbn [runsBelow]. rewrite Hc. exact Hr.
  - cbn [forallb] in Hb. apply andb_true_iff in Hb as [Hx Hb].
    cbn [runsBelow]. rewrite Hx. cbn [List.length] in Hlen.
    apply andb_true_iff. split; [apply Nat.ltb_lt; lia|].
    apply IH; auto. lia.
Qed.

Lemma flushRun_block p n by_ run :
  forallb p by_ = true -> (List.length by_ < n)%nat ->
  forallb p run = true ->
  forallb p (flushRun n by_ run) = true
  /\ (List.length (flushRun n by_ run) < n)%nat.
Proof.
  intros Hby Hlen Hrun. unfold flushRun.
  destruct (Nat.leb_spec n (List.length run)); auto.
Qed.

Lemma replaceRuns_runsBelow p n by_ :
  forallb p by_ = true -> (List.length by_ < n)%nat ->
  forall s run, forallb p run = true ->
    runsBelow p n 0 (replaceRuns p n by_ run s) = true.
Proof.
  intros Hby Hlen. induction s as [|c s IH]; intros run Hrun; cbn [replaceRuns].
  - destruct run as [|x run]; [reflexivity|].
    destruct (flushRun_block p n by_ (x :: run) Hby Hlen Hrun) as [Hf Hl].
    rewrite <- (app_nil_r (flushRun _ _ _)).
    apply runsBelow_block; auto.
  - destruct (p c) eqn:Hc.
    + apply IH. rewrite forallb_app, Hrun. cbn. rewrite Hc. reflexivity.
    + destruct run as [|x run].
      * cbn [runsBelow]. rewrite Hc. apply IH. reflexivity.
      * destruct (flushRun_block p n by_ (x :: run) Hby Hlen Hrun) as [Hf Hl].
        apply runsBelow_block; auto.
Qed.

Lemma collapseSpaces_runsBelow s :
  runsBelow isWhiteSpace 2 0 (collapseSpaces s) = true.
Proof. apply replaceRuns_runsBelow; auto. Qed.

Lemma collapseNewlines_runsBelow s :
  runsBelow (N.eqb 10) 3 0 (collapseNewlines s) = true.
Proof. apply replaceRuns_runsBelow; auto. Qed.

End StringFacts.

Section MarkdownStrings.
Import Markdown.

Lemma escapeMarkdown_cons c s :
  escapeMarkdown (c :: s)
  = (if isMarkdownSpecial c then [92%N; c] else [c]) ++ escapeMarkdown s.
Proof. reflexivity. Qed.

Lemma not_special_not_backslash c :
  isMarkdownSpecial c = false -> N.eqb c 92 = false.
Proof.
  intros H. destruct (N.eqb_spec c 92); [|reflexivity]. subst c.
  vm_compute in H. discriminate.
Qed.

Lemma unescape_escapeMarkdown s : unescapeMarkdown (escapeMarkdown s) = s.
Proof.
  induction s as [|c s IH]; [reflexivity|]. rewrite escapeMarkdown_cons.
  destruct (isMarkdownSpecial c) eqn:E.
  - cbn [app unescapeMarkdown]. rewrite N.eqb_refl. f_equal. exact IH.
  - cbn [app unescapeMarkdown]. rewrite (not_special_not_backslash c E).
    f_equal. exact IH.
Qed.

Lemma wellEscaped_escapeMarkdown s : wellEscaped (escapeMarkdown s) = true.
Proof.
  induction s as [|c s IH]; [reflexivity|]. rewrite escapeMarkdown_cons.
  destruct (isMarkdownSpecial c) eqn:E.
  - cbn [app wellEscaped]. rewrite N.eqb_refl. exact IH.
  - cbn [app wellEscaped]. rewrite (not_special_not_backslash c E), E. exact IH.
Qed.

Lemma escapeMarkdown_length s :
  (List.length s <= List.length (escapeMarkdown s) <= 2 * List.length s)%nat.
Proof.
  induction s as [|c s IH]; [cbn; lia|]. rewrite escapeMarkdown_cons.
  rewrite length_app. destruct (isMarkdownSpecial c); cbn [List.length]; lia.
Qed.

Lemma escapeMarkdown_plain s :
  forallb (fun c => negb (isMarkdownSpecial c)) s = true ->
  escapeMarkdown s = s.
Proof.
  induction s as [|c s IH]; [reflexivity|]. cbn [forallb].
  intros H. apply andb_true_iff in H as [Hc Hs]. rewrite escapeMarkdown_cons.
  apply negb_true_iff in Hc. rewrite Hc. cbn. f_equal. auto.
Qed.

Lemma takeNonSpace_spec s :
  forallb (fun c => negb (isWhiteSpace c)) (takeNonSpace s) = true
  /\ startsWith (takeNonSpace s) s = true.
Proof.
  induction s as [|c s [IH1 IH2]]; [auto|]. cbn [takeNonSpace].
  destruct (isWhiteSpace c) eqn:E; [auto|]. cbn. rewrite E, N.eqb_refl. auto.
Qed.

Lemma takeNonSpace_word tok rest :
  forallb (fun c => negb (isWhiteSpace c)) tok = true ->
  match rest with [] => True | c :: _ => isWhiteSpace c = true end ->
  takeNonSpace (tok ++ rest) = tok.
Proof.
  induction tok as [|c tok IH]; cbn [app forallb]; intros Ht Hr.
  - destruct rest as [|c r]; [reflexivity|]. cbn. rewrite Hr. reflexivity.
  - apply andb_true_iff in Ht as [Hc Ht]. apply negb_true_iff in Hc.
    cbn [takeNonSpace]. rewrite Hc. f_equal. auto.
Qed.

Lemma startsWith_app a b s :
  startsWith a s = true -> startsWith b (skipn (List.length a) s) = true ->
  startsWith (a ++ b) s = true.
Proof.
  revert s. induction a as [|x a IH]; intros s Ha Hb; cbn in *; [exact Hb|].
  destruct s as [|y s]; [discriminate|].
  apply andb_true_iff in Ha as [Hxy Ha]. rewrite Hxy. cbn. auto.
Qed.

Lemma startsWith_self_app a b : startsWith a (a ++ b) = true.
Proof. induction a as [|x a IH]; cbn; [reflexivity|]. rewrite N.eqb_refl. exact IH. Qed.

Lemma skipn_self_app (a b : jsstring) : skipn (List.length a) (a ++ b) = b.
Proof. induction a; cbn; auto. Qed.

Lemma includes_here p s : startsWith p s = true -> includes p s = true.
Proof. intros H. destruct s; cbn [includes]; rewrite H; reflexivity. Qed.

Lemma includes_later p c s : includes p s = true -> includes p (c :: s) = true.
Proof. intros H. cbn [includes]. rewrite H. apply orb_true_r. Qed.

Lemma matchLanguage_unfold s :
  matchLanguage s =
  match (if startsWith (js "language-") s
         then match takeNonSpace (skipn 9 s) with
              | [] => None
              | cap => Some cap
              end
         else None) with
  | Some cap => Some cap
  | None => match s with [] => None | _ :: r => matchLanguage r end
  end.
Proof. destruct s; reflexivity. Qed.

Lemma matchLanguage_sound s : forall cap,
  matchLanguage s = Some cap ->
  cap <> []
  /\ forallb (fun c => negb (isWhiteSpace c)) cap = true
  /\ includes (js "language-" ++ cap) s = true.
Proof.
  induction s as [|c s IH]; intros cap; rewrite matchLanguage_unfold.
  - change (startsWith (js "language-") []) with false. discriminate.
  - destruct (startsWith (js "language-") (c :: s)) eqn:Hs.
    + destruct (takeNonSpace (skipn 9 (c :: s))) as [|x t] eqn:Ht.
      * intros H. destruct (IH cap H) as (A & B & C).
        repeat split; auto. apply includes_later. exact C.
      * intros [= <-]. destruct (takeNonSpace_spec (skipn 9 (c :: s))) as [T1 T2].
        rewrite Ht in T1, T2. split; [discriminate|split; [exact T1|]].
        apply includes_here. apply startsWith_app; [exact Hs|exact T2].
    + intros H. destruct (IH cap H) as (A & B & C).
      repeat split; auto. apply includes_later. exact C.
Qed.

Lemma matchLanguage_token tok rest :
  tok <> [] ->
  forallb (fun c => negb (isWhiteSpace c)) tok = true ->
  match rest with [] => True | c :: _ => isWhiteSpace c = true end ->
  matchLanguage (js "language-" ++ tok ++ rest) = Some tok.
Proof.
  intros Hne Ht Hr. rewrite matchLanguage_unfold.
  rewrite startsWith_self_app.
  change 9%nat with (List.length (js "language-")). rewrite skipn_self_app.
  rewrite (takeNonSpace_word tok rest Ht Hr).
  destruct tok; [contradiction|reflexivity].
Qed.

End MarkdownStrings.

Section TextShapes.

Lemma getInnerText_shape k store :
  startsClean (getInnerText k store true) = true
  /\ endsClean (getInnerText k store true) = true
  /\ runsBelow isWhiteSpace 2 0 (getInnerText k store true) = true
  /\ startsClean (getInnerText k store false) = true
  /\ endsClean (getInnerText k store false) = true.
Proof.
  unfold getInnerText. cbv zeta.
  set (text := match getElementInfo k store with Some i => default [] (finalTextContent i) | None => [] end).
  destruct (trim_clean (collapseSpaces text)) as [A B].
  destruct (trim_clean text) as [C D].
  repeat split; auto.
  apply runsBelow_trim. apply collapseSpaces_runsBelow.
Qed.

Lemma convert_shape store keep base fuel root md :
  Markdown.convert store keep base fuel root = Some md ->
  startsClean md = true /\ endsClean md = true
  /\ runsBelow (N.eqb 10) 3 0 md = true.
Proof.
  unfold Markdown.convert. destruct root as [root|].
  - destruct (foldM _ _ _) as [out|]; cbn; [|discriminate].
    intros [= <-]. destruct (trim_clean (collapseNewlines out)) as [A B].
    repeat split; auto. apply runsBelow_trim. apply collapseNewlines_runsBelow.
  - intros [= <-]. auto.
Qed.

End TextShapes.

Section BuilderIds.
Import Phase1.

Lemma Forall_storeUpdate (P : Z * ElementInfo -> Prop) k f (st : ElementStore) :
  (forall i, P (k, i) -> P (k, f i)) ->
  Forall P st -> Forall P (storeUpdate k f st).
Proof.
  intros Hf H. unfold storeUpdate. apply Forall_map.
  eapply Forall_impl; [exact H|]. intros [k0 i0] Hp. cbn.
  destruct (Z.eqb_spec k0 k); [subst; cbn; auto|exact Hp].
Qed.

Lemma seqZ_snoc n : (0 <= n)%Z -> seqZ 1 (n + 1) = seqZ 1 n ++ [(n + 1)%Z].
Proof.
  intros Hn. rewrite seqZ_app by lia. f_equal.
  rewrite seqZ_cons by lia. replace (Z.pred 1) with 0%Z by lia.
  rewrite Z.add_comm. reflexivity.
Qed.

Lemma idsInv_fresh h : idsInv h ->
  ~ In (elementCounter h + 1)%Z (List.map fst (elementStore h)).
Proof.
  intros (_ & Hk & _) Hin. rewrite Hk in Hin.
  apply list_elem_of_In, elem_of_seqZ in Hin. lia.
Qed.

Lemma recordOk_new k parent tag el : recordOk (k, newElementInfo k parent tag el).
Proof. repeat split; cbn; [discriminate|constructor]. Qed.

Lemma element_idsInv el h : idsInv h -> idsInv (element el h).
Proof.
  intros Hi. pose proof (idsInv_fresh h Hi) as Hfresh.
  destruct Hi as (Hc & Hk & Hr). unfold element.
  destruct (_ && _); [exact (conj Hc (conj Hk Hr))|].
  cbn [setCount elementCount elementStore maxElemsToParse elementCounter
       elementStack lastTextChunkMap metadataStore].
  destruct (isSkipped _ _); [exact (conj Hc (conj Hk Hr))|].
  match goal with |- context [storeSet _ ?i _] => set (info := i) end.
  rewrite storeSet_fresh by exact Hfresh.
  assert (Hk' : List.map fst (elementStore h ++ [((elementCounter h + 1)%Z, info)])
                = seqZ 1 (elementCounter h + 1)).
  { rewrite map_app, Hk, seqZ_snoc by lia. reflexivity. }
  assert (Hr' : Forall recordOk (elementStore h ++ [((elementCounter h + 1)%Z, info)])).
  { apply Forall_app. split; [exact Hr|]. constructor; [|constructor].
    apply recordOk_new. }
  destruct (negb _); [destruct (Host.onEndTagThrows el)|];
    (split; [|split]); cbn [elementStore elementCounter]; try lia; auto.
  - rewrite storeUpdate_fst. exact Hk'.
  - apply Forall_storeUpdate; [|exact Hr'].
    intros i (A & B & C & D). repeat split; cbn; auto.
Qed.

Lemma text_idsInv c h : idsInv h -> idsInv (text c h).
Proof.
  intros (Hc & Hk & Hr).
  destruct (text_cases h c) as [E|(cur & rest & info & Hs & Hg & Hv & Hsig & E)];
    rewrite E; [exact (conj Hc (conj Hk Hr))|].
  split; [|split]; cbn [recorded elementStore elementCounter]; auto.
  - rewrite storeUpdate_fst. exact Hk.
  - apply Forall_storeUpdate; [|exact Hr].
    intros i (A & B & C & D). repeat split; cbn; auto.
    apply Forall_app. split; [exact D|]. constructor; [exact Hsig|constructor].
Qed.

Lemma onEndTag_idsInv h : idsInv h -> idsInv (onEndTag h).
Proof.
  intros (Hc & Hk & Hr). unfold onEndTag.
  destruct (elementStack h) as [|top rest]; [exact (conj Hc (conj Hk Hr))|].
  destruct (storeGet top (elementStore h)) as [info|];
    (split; [|split]); cbn [elementStore elementCounter]; auto.
  - rewrite storeUpdate_fst. exact Hk.
  - apply Forall_storeUpdate; [|exact Hr].
    intros i (A & B & C & D). repeat split; cbn; auto; discriminate.
Qed.

Lemma step_idsInv h e : idsInv h -> idsInv (step h e).
Proof.
  intros Hi. destruct e; cbn [step].
  - apply element_idsInv; auto.
  - apply text_idsInv; auto.
  - apply onEndTag_idsInv; auto.
  - exact Hi.
Qed.

Lemma run_idsInv events : forall h, idsInv h -> idsInv (run events h).
Proof.
  induction events as [|e events IH]; intros h Hi; cbn [run fold_left]; auto.
  apply IH. apply step_idsInv. exact Hi.
Qed.

Lemma new_idsInv meta maxElems : idsInv (new [] meta 0 maxElems).
Proof. split; [|split]; cbn; [lia|reflexivity|constructor]. Qed.

Lemma storeGet_Some_key k (st : ElementStore) :
  (exists i, storeGet k st = Some i) <-> In k (List.map fst st).
Proof.
  unfold storeGet. induction st as [|[k0 v0] st IH]; cbn.
  - split; [intros [i H]; discriminate|tauto].
  - destruct (Z.eqb_spec k0 k); cbn.
    + split; eauto.
    + rewrite IH. tauto.
Qed.

End BuilderIds.

Section BuilderStack.
Import Phase1.

Lemma openChain_ext (st st' : ElementStore) stack :
  (forall k, In k stack -> storeGet k st' = storeGet k st) ->
  openChain st stack -> openChain st' stack.
Proof.
  induction stack as [|k rest IH]; cbn [openChain]; [auto|].
  intros Hext [(info & Hg & Hrest) Hc]. split.
  - exists info. rewrite Hext by (left; reflexivity). auto.
  - apply IH; auto. intros k' Hk'. apply Hext. right. exact Hk'.
Qed.

Lemma openChain_below M st : WfStore M st -> forall stack k,
  openChain st (k :: stack) -> Forall (fun x => (x < k)%Z) stack.
Proof.
  intros W. induction stack as [|p rest IH]; intros k Hc; [constructor|].
  destruct Hc as [(info & Hg & Hp & _) Hc']. cbn in Hp.
  assert (Hlt : (0 < p < k)%Z).
  { destruct W as [_ W]. apply storeGet_In in Hg.
    destruct (W k info Hg) as [_ Hpar]. apply Hpar. exact Hp. }
  constructor; [lia|].
  eapply Forall_impl; [apply (IH p Hc')|]. cbn. intros; lia.
Qed.

Lemma openChain_top_fresh M st k stack :
  WfStore M st -> openChain st (k :: stack) -> ~ In k stack.
Proof.
  intros W Hc Hin. pose proof (openChain_below M st W stack k Hc) as Hb.
  rewrite List.Forall_forall in Hb. specialize (Hb k Hin). lia.
Qed.

Lemma openChain_In st stack k :
  openChain st stack -> In k stack -> exists info, storeGet k st = Some info.
Proof.
  induction stack as [|x rest IH]; cbn [openChain]; [intros _ []|].
  intros [(info & Hg & _) Hc] [->|Hin]; eauto.
Qed.

Lemma element_openInv el h : phaseInv h -> openInv h -> openInv (element el h).
Proof.
  intros (W & Hs & Hc) (Hch & Hmap & Hcl). unfold element.
  destruct (_ && _); [exact (conj Hch (conj Hmap Hcl))|].
  cbn [setCount elementCount elementStore maxElemsToParse elementCounter
       elementStack lastTextChunkMap metadataStore getCurrentElementIdFromStack].
  destruct (isSkipped _ _); [exact (conj Hch (conj Hmap Hcl))|].
  set (new := (elementCounter h + 1)%Z).
  match goal with |- context [storeSet _ ?i _] => set (info := i) end.
  assert (Hold : forall k i, storeGet k (elementStore h) = Some i -> k <> new).
  { intros k i Hg. apply storeGet_In in Hg.
    destruct W as [_ W]. destruct (W k i Hg) as [Hr _]. unfold new. lia. }
  assert (Hstack : forall k, In k (elementStack h) -> k <> new).
  { intros k Hin. rewrite List.Forall_forall in Hs. specialize (Hs k Hin).
    unfold new. lia. }
  assert (Hch' : forall f, openChain (storeUpdate new f (storeSet new info (elementStore h)))
                     (elementStack h)
                   /\ openChain (storeSet new info (elementStore h)) (elementStack h)).
  { intros f. split; (eapply openChain_ext; [|exact Hch]); intros k Hin;
      specialize (Hstack k Hin).
    - rewrite storeGet_storeUpdate_ne, storeGet_storeSet_ne by auto. reflexivity.
    - rewrite storeGet_storeSet_ne by auto. reflexivity. }
  destruct (has VOID_ELEMENTS (toUpperCase (Host.tagName el))) eqn:Hv; cbn [negb];
    [|destruct (Host.onEndTagThrows el)];
    (split; [|split]); cbn [elementStore elementStack lastTextChunkMap].
  - (* void *) apply Hch'.
  - intros k c Hl. rewrite !lookup_delete_Some in Hl. destruct Hl as (Hne & _ & Hl).
    destruct (Hmap k c Hl) as (Hin & i & Hg & Hlast). split; [exact Hin|].
    exists i. rewrite storeGet_storeUpdate_ne, storeGet_storeSet_ne by auto. auto.
  - intros k i Hg Hn. destruct (Z.eq_dec k new) as [->|Hne].
    + rewrite (storeGet_storeUpdate_eq new _ _ info) in Hg
        by apply storeGet_storeSet_eq.
      inversion Hg; subst. left. reflexivity.
    + rewrite storeGet_storeUpdate_ne, storeGet_storeSet_ne in Hg by auto.
      apply (Hcl k i Hg Hn).
  - (* registration failed *) apply (Hch' (fun i => i)).
  - intros k c Hl. rewrite !lookup_delete_Some in Hl. destruct Hl as (Hne & _ & Hl).
    destruct (Hmap k c Hl) as (Hin & i & Hg & Hlast). split; [exact Hin|].
    exists i. rewrite storeGet_storeSet_ne by auto. auto.
  - intros k i Hg Hn. destruct (Z.eq_dec k new) as [->|Hne].
    + rewrite storeGet_storeSet_eq in Hg. inversion Hg; subst. right. auto.
    + rewrite storeGet_storeSet_ne in Hg by auto. apply (Hcl k i Hg Hn).
  - (* pushed *) cbn [openChain]. split; [|apply (Hch' (fun i => i))].
    exists info. rewrite storeGet_storeSet_eq.
    split; [reflexivity|].
    split; [reflexivity|].
    split; [exact Hv|]. split; [discriminate|reflexivity].
  - intros k c Hl. rewrite lookup_delete_Some in Hl. destruct Hl as (Hne & Hl).
    destruct (Hmap k c Hl) as (Hin & i & Hg & Hlast). split; [right; exact Hin|].
    exists i. rewrite storeGet_storeSet_ne by auto. auto.
  - intros k i Hg Hn. destruct (Z.eq_dec k new) as [->|Hne].
    + exfalso. apply Hn. left. reflexivity.
    + rewrite storeGet_storeSet_ne in Hg by auto. apply (Hcl k i Hg).
      intros Hin. apply Hn. right. exact Hin.
Qed.

Lemma text_openInv c h : phaseInv h -> openInv h -> openInv (text c h).
Proof.
  intros (W & Hs & Hc) (Hch & Hmap & Hcl).
  destruct (text_cases h c) as [E|(cur & rest & info & Hst & Hg & Hv & Hsig & E)];
    rewrite E; [exact (conj Hch (conj Hmap Hcl))|].
  rewrite Hst in Hch.
  pose proof (openChain_top_fresh _ _ _ _ W Hch) as Hfresh.
  split; [|split]; cbn [recorded elementStore elementStack lastTextChunkMap];
    rewrite ?Hst.
  - destruct Hch as [(i & Hgi & Hp & Hvi & Ht & Hf) Hch]. cbn [openChain]. split.
    + exists (appendChunk c i). rewrite (storeGet_storeUpdate_eq cur _ _ i Hgi).
      split; [reflexivity|]. split; [exact Hp|]. split; [exact Hvi|].
      split; [discriminate|exact Hf].
    + eapply openChain_ext; [|exact Hch]. intros k Hin.
      apply storeGet_storeUpdate_ne. intros ->. contradiction.
  - intros k l Hl. destruct (Z.eq_dec k cur) as [->|Hne].
    + rewrite lookup_insert_eq in Hl. inversion Hl; subst. split; [left; reflexivity|].
      exists (appendChunk l info). rewrite (storeGet_storeUpdate_eq cur _ _ info Hg).
      split; [reflexivity|]. cbn. apply last_snoc.
    + rewrite lookup_insert_ne in Hl by auto.
      destruct (Hmap k l Hl) as (Hin & i & Hgi & Hlast). rewrite Hst in Hin.
      split; [exact Hin|]. exists i. rewrite storeGet_storeUpdate_ne by auto. auto.
  - intros k i Hgi Hn. assert (Hne : cur <> k) by (intros ->; apply Hn; left; reflexivity).
    rewrite storeGet_storeUpdate_ne in Hgi by auto. apply (Hcl k i Hgi).
    rewrite Hst. exact Hn.
Qed.

Lemma onEndTag_openInv h : phaseInv h -> openInv h -> openInv (onEndTag h).
Proof.
  intros (W & Hs & Hc) Hi. unfold onEndTag.
  destruct (elementStack h) as [|top rest] eqn:Hst; [exact Hi|].
  destruct Hi as (Hch & Hmap & Hcl). rewrite Hst in Hch, Hmap, Hcl.
  pose proof (openChain_top_fresh _ _ _ _ W Hch) as Hfresh.
  destruct Hch as [(i & Hgi & Hp & Hvi & Ht & Hf) Hch]. rewrite Hgi.
  split; [|split]; cbn [elementStore elementStack lastTextChunkMap].
  - eapply openChain_ext; [|exact Hch]. intros k Hin.
    apply storeGet_storeUpdate_ne. intros ->. contradiction.
  - intros k l Hl. rewrite lookup_delete_Some in Hl. destruct Hl as [Hne Hl].
    destruct (Hmap k l Hl) as (Hin & j & Hgj & Hlast).
    destruct Hin as [->|Hin]; [contradiction|]. split; [exact Hin|].
    exists j. rewrite storeGet_storeUpdate_ne by auto. auto.
  - intros k j Hgj Hn. destruct (Z.eq_dec k top) as [->|Hne].
    + rewrite (storeGet_storeUpdate_eq top _ _ i Hgi) in Hgj.
      inversion Hgj; subst. left. reflexivity.
    + rewrite storeGet_storeUpdate_ne in Hgj by auto. apply (Hcl k j Hgj).
      intros [->|Hin]; [contradiction|]. contradiction.
Qed.

Lemma end_openInv h : openInv h -> openInv (end_ h).
Proof.
  intros (Hch & Hmap & Hcl). split; [|split]; cbn; auto.
  intros k c Hl. rewrite lookup_empty in Hl. discriminate.
Qed.

Lemma step_openInv h e : phaseInv h -> openInv h -> openInv (step h e).
Proof.
  intros Hp Hi. destruct e; cbn [step].
  - apply element_openInv; auto.
  - apply text_openInv; auto.
  - apply onEndTag_openInv; auto.
  - apply end_openInv; auto.
Qed.

Lemma run_openInv events : forall h,
  phaseInv h -> openInv h -> openInv (run events h).
Proof.
  induction events as [|e events IH]; intros h Hp Hi; cbn [run fold_left]; auto.
  apply IH; [apply step_phaseInv|apply step_openInv]; auto.
Qed.

Lemma new_openInv meta maxElems : openInv (new [] meta 0 maxElems).
Proof.
  split; [|split]; cbn; auto.
  - intros k c Hl. rewrite lookup_empty in Hl. discriminate.
  - intros k i Hg. discriminate.
Qed.

Lemma openChain_ancestors st : forall stack top fuel depth,
  openChain st (top :: stack) -> (List.length stack <= fuel)%nat ->
  ancestorsLoop fuel st 0 top depth = Some stack.
Proof.
  induction stack as [|p rest IH]; intros top fuel depth [(i & Hg & Hp & _) Hc] Hf.
  - destruct fuel; cbn [ancestorsLoop]; unfold getParentId, getElementInfo;
      rewrite Hg; cbn in Hp; rewrite Hp; reflexivity.
  - destruct fuel as [|fuel]; [cbn in Hf; lia|].
    cbn [ancestorsLoop]. unfold getParentId, getElementInfo.
    rewrite Hg. cbn in Hp. rewrite Hp. cbn [Z.leb orb Z.compare].
    rewrite (IH p fuel (depth + 1)%Z Hc) by (cbn in Hf; lia). reflexivity.
Qed.

End BuilderStack.

Section BuilderFrame.
Import Phase1.

Lemma sameShape_refl i : sameShape i i.
Proof. repeat split. Qed.

Lemma sameShape_trans i j k : sameShape i j -> sameShape j k -> sameShape i k.
Proof.
  intros (A1 & A2 & A3 & A4 & A5 & A6 & A7 & A8)
         (B1 & B2 & B3 & B4 & B5 & B6 & B7 & B8).
  repeat split; congruence.
Qed.

Lemma sameShape_withText cs f i : sameShape i (withText cs f i).
Proof. repeat split. Qed.

Lemma storeGet_storeUpdate k k' f (st : ElementStore) i :
  storeGet k' st = Some i ->
  storeGet k' (storeUpdate k f st) = Some (if Z.eqb k k' then f i else i).
Proof.
  intros Hg. destruct (Z.eqb_spec k k') as [->|Hne].
  - apply storeGet_storeUpdate_eq. exact Hg.
  - rewrite storeGet_storeUpdate_ne by auto. exact Hg.
Qed.

(** One callback keeps every record in the store and leaves the fields
    describing the element alone; the record of an element that is not open
    is not touched at all, and no such element is opened again. *)
Lemma step_frame h e k info :
  phaseInv h -> storeGet k (elementStore h) = Some info ->
  (exists info', storeGet k (elementStore (step h e)) = Some info'
                 /\ sameShape info info')
  /\ (~ In k (elementStack h) ->
      storeGet k (elementStore (step h e)) = Some info
      /\ ~ In k (elementStack (step h e))).
Proof.
  intros (W & Hs & Hc) Hg.
  assert (Hk : k <> (elementCounter h + 1)%Z).
  { apply storeGet_In in Hg. destruct W as [_ W].
    destruct (W k info Hg) as [Hr _]. lia. }
  destruct e as [el|c| |]; cbn [step].
  - destruct (element_frame h el k Hk) as [E _]. rewrite E. split.
    + exists info. split; [exact Hg|apply sameShape_refl].
    + intros Hn. split; [exact Hg|]. intros Hin. apply Hn.
      revert Hin. unfold element.
      destruct (_ && _); [auto|].
      cbn [setCount elementCount elementStore maxElemsToParse elementCounter
           elementStack lastTextChunkMap metadataStore].
      destruct (isSkipped _ _); [auto|].
      destruct (negb _); [destruct (Host.onEndTagThrows el)|];
        cbn [elementStack]; auto.
      intros [E'|Hin]; [congruence|exact Hin].
  - destruct (text_cases h c) as [E|(cur & rest & i & Hst & Hgi & Hv & Hsig & E)];
      rewrite E.
    + split; [exists info; split; [exact Hg|apply sameShape_refl]|auto].
    + cbn [recorded elementStore elementStack]. split.
      * rewrite (storeGet_storeUpdate cur k _ _ info Hg).
        destruct (Z.eqb cur k); eexists; split; try reflexivity;
          [apply sameShape_withText|apply sameShape_refl].
      * intros Hn. split; [|exact Hn].
        rewrite storeGet_storeUpdate_ne; [exact Hg|].
        intros ->. apply Hn. rewrite Hst. left. reflexivity.
  - unfold onEndTag. destruct (elementStack h) as [|top rest] eqn:Hst.
    + rewrite Hst. split; [exists info; split; [exact Hg|apply sameShape_refl]|auto].
    + destruct (storeGet top (elementStore h)) as [i|] eqn:Hgi;
        cbn [elementStore elementStack].
      * split.
        -- rewrite (storeGet_storeUpdate top k _ _ info Hg).
           destruct (Z.eqb top k); eexists; split; try reflexivity;
             [apply sameShape_withText|apply sameShape_refl].
        -- intros Hn. split.
           ++ rewrite storeGet_storeUpdate_ne; [exact Hg|].
              intros ->. apply Hn. left. reflexivity.
           ++ intros Hin. apply Hn. right. exact Hin.
      * split; [exists info; split; [exact Hg|apply sameShape_refl]|].
        intros Hn. split; [exact Hg|]. intros Hin. apply Hn. right. exact Hin.
  - split; [exists info; split; [exact Hg|apply sameShape_refl]|auto].
Qed.

Lemma run_shape events : forall h k info,
  phaseInv h -> storeGet k (elementStore h) = Some info ->
  exists info', storeGet k (elementStore (run events h)) = Some info'
                /\ sameShape info info'.
Proof.
  induction events as [|e events IH]; intros h k info Hp Hg; cbn [run fold_left].
  - exists info. split; [exact Hg|apply sameShape_refl].
  - destruct (step_frame h e k info Hp Hg) as [(i1 & Hg1 & S1) _].
    destruct (IH (step h e) k i1 (step_phaseInv h e Hp) Hg1) as (i2 & Hg2 & S2).
    exists i2. split; [exact Hg2|]. eapply sameShape_trans; eauto.
Qed.

Lemma run_frozen events : forall h k info,
  phaseInv h -> storeGet k (elementStore h) = Some info ->
  ~ In k (elementStack h) ->
  storeGet k (elementStore (run events h)) = Some info
  /\ ~ In k (elementStack (run events h)).
Proof.
  induction events as [|e events IH]; intros h k info Hp Hg Hn; cbn [run fold_left].
  - auto.
  - destruct (step_frame h e k info Hp Hg) as [_ Hf].
    destruct (Hf Hn) as [Hg1 Hn1].
    apply (IH (step h e) k info (step_phaseInv h e Hp) Hg1 Hn1).
Qed.

End BuilderFrame.

Section BuilderText.
Import Phase1.

Lemma run_app a b h : run (a ++ b) h = run b (run a h).
Proof. unfold run. apply fold_left_app. Qed.

(** A run of text callbacks on an open element appends the chunks that
    survive the filter, and nothing else changes. *)
Lemma run_texts cs : forall h cur rest info,
  elementStack h = cur :: rest ->
  storeGet cur (elementStore h) = Some info ->
  has VOID_ELEMENTS (tagName info) = false ->
  let kept := dedupe (lastTextChunkMap h !! cur) cs in
  let h' := run (List.map Text cs) h in
  elementStack h' = cur :: rest
  /\ storeGet cur (elementStore h')
     = Some (match kept with
             | [] => info
             | _ => withText (Some (default [] (textChunks info) ++ kept))
                      (finalTextContent info) info
             end)
  /\ metadataStore h' = metadataStore h
  /\ elementCounter h' = elementCounter h.
Proof.
  induction cs as [|c cs IH]; intros h cur rest info Hst Hg Hv; cbn zeta.
  - cbn. auto.
  - cbn [List.map run fold_left step dedupe].
    change (fold_left step (List.map Text cs) (text c h))
      with (run (List.map Text cs) (text c h)).
    destruct (significant c) eqn:Hsig; cbn [andb].
    + rewrite (text_open h cur rest info c Hst Hg Hv Hsig).
      destruct (differs (lastTextChunkMap h !! cur) c) eqn:Hd.
      * destruct (IH (recorded cur c h) cur rest (appendChunk c info)) as (A & B & C & D).
        { exact Hst. }
        { cbn [recorded elementStore]. apply storeGet_storeUpdate_eq. exact Hg. }
        { exact Hv. }
        cbn [recorded lastTextChunkMap] in B. rewrite lookup_insert_eq in B.
        split; [exact A|]. split; [|split; [exact C|exact D]].
        rewrite B. f_equal.
        destruct (dedupe (Some c) cs) as [|d ds]; cbn.
        -- reflexivity.
        -- unfold withText. cbn. rewrite <- app_assoc. reflexivity.
      * apply (IH h cur rest info Hst Hg Hv).
    + rewrite (text_insignificant h c Hsig). apply (IH h cur rest info Hst Hg Hv).
Qed.

End BuilderText.

Section BuilderLeaf.
Import Phase1.

Lemma leaf_text h el cs :
  handled el h = true ->
  has VOID_ELEMENTS (toUpperCase (Host.tagName el)) = false ->
  Host.onEndTagThrows el = false ->
  let k := (elementCounter h + 1)%Z in
  let h' := run (StartTag el :: List.map Text cs ++ [EndTag]) h in
  elementStack h' = elementStack h
  /\ exists info,
       storeGet k (elementStore h') = Some info
       /\ finalTextContent info = Some (List.concat (dedupe None cs))
       /\ textChunks info = None.
Proof.
  intros Hh Hv Ht. cbv zeta.
  change (StartTag el :: List.map Text cs ++ [EndTag])
    with ([StartTag el] ++ List.map Text cs ++ [EndTag]).
  rewrite !run_app. change (run [StartTag el] h) with (element el h).
  set (k := (elementCounter h + 1)%Z).
  set (info0 := newElementInfo k (getCurrentElementIdFromStack h)
                  (toUpperCase (Host.tagName el)) el).
  assert (E : elementStack (element el h) = k :: elementStack h
              /\ storeGet k (elementStore (element el h)) = Some info0
              /\ lastTextChunkMap (element el h) !! k = None).
  { unfold handled in Hh. apply andb_true_iff in Hh as [Hcap Hskip].
    apply negb_true_iff in Hcap. apply negb_true_iff in Hskip.
    unfold element. rewrite Hcap.
    cbn [setCount elementCount elementStore maxElemsToParse elementCounter
         elementStack lastTextChunkMap metadataStore].
    rewrite Hskip, Hv, Ht. cbn [negb elementStack elementStore lastTextChunkMap].
    split; [reflexivity|]. split; [apply storeGet_storeSet_eq|].
    apply lookup_delete_eq. }
  destruct E as (Es & Eg & El).
  destruct (run_texts cs (element el h) k (elementStack h) info0 Es Eg Hv)
    as (A & B & _ & _).
  rewrite El in B.
  change (run [EndTag] ?x) with (onEndTag x).
  unfold onEndTag. rewrite A, B. cbn [elementStack elementStore].
  split; [reflexivity|].
  eexists. split; [apply storeGet_storeUpdate_eq; exact B|].
  split; [|reflexivity]. cbn [withText finalTextContent]. f_equal. f_equal.
  destruct (dedupe None cs); reflexivity.
Qed.

End BuilderLeaf.

Section TreeFacts.

Lemma insertAsc_sorted x l :
  StronglySorted Z.le l -> StronglySorted Z.le (insertAsc x l).
Proof.
  induction 1 as [|y l Hs IH Hy]; cbn [insertAsc].
  - repeat constructor.
  - destruct (Z.ltb_spec x y).
    + constructor; [constructor; assumption|].
      constructor; [lia|]. eapply Forall_impl; [exact Hy|]. cbn. intros; lia.
    + constructor; [exact IH|].
      apply List.Forall_forall. intros z Hz. apply In_insertAsc in Hz as [->|Hz]; [lia|].
      rewrite List.Forall_forall in Hy. auto.
Qed.

Lemma fold_insertAsc_sorted l : forall acc,
  StronglySorted Z.le acc ->
  StronglySorted Z.le (fold_left (fun acc x => insertAsc x acc) l acc).
Proof.
  induction l as [|x l IH]; intros acc Ha; cbn [fold_left]; auto.
  apply IH. apply insertAsc_sorted. exact Ha.
Qed.

Lemma sortAsc_sorted l : StronglySorted Z.le (sortAsc l).
Proof. apply fold_insertAsc_sorted. constructor. Qed.

Lemma insertAsc_perm x l : Permutation (x :: l) (insertAsc x l).
Proof.
  induction l as [|y l IH]; cbn [insertAsc]; [reflexivity|].
  destruct (x <? y)%Z; [reflexivity|].
  rewrite perm_swap. constructor. exact IH.
Qed.

Lemma fold_insertAsc_perm l : forall acc,
  Permutation (l ++ acc) (fold_left (fun acc x => insertAsc x acc) l acc).
Proof.
  induction l as [|x l IH]; intros acc; cbn [fold_left app]; [reflexivity|].
  rewrite <- IH. rewrite <- insertAsc_perm. apply Permutation_middle.
Qed.

Lemma sortAsc_perm l : Permutation l (sortAsc l).
Proof.
  unfold sortAsc. rewrite <- fold_insertAsc_perm. rewrite app_nil_r. reflexivity.
Qed.

Lemma NoDup_map_filter {A B} (f : A -> B) (p : A -> bool) (l : list A) :
  NoDup (List.map f l) -> NoDup (List.map f (List.filter p l)).
Proof.
  induction l as [|x l IH]; cbn; [auto|]. intros H.
  apply NoDup_cons in H as [Hx H].
  destruct (p x); cbn; auto. apply NoDup_cons. split; auto.
  intros Hin. apply Hx. apply list_elem_of_In. apply list_elem_of_In in Hin.
  apply in_map_iff in Hin as (y & E & Hy).
  apply filter_In in Hy as [Hy _]. apply in_map_iff. eauto.
Qed.

Lemma In_storeGet k i (st : ElementStore) :
  NoDup (List.map fst st) -> In (k, i) st -> storeGet k st = Some i.
Proof.
  unfold storeGet. induction st as [|[k0 v0] st IH]; cbn; [tauto|].
  intros Hnd [E|Hin].
  - inversion E; subst. rewrite Z.eqb_refl. reflexivity.
  - apply NoDup_cons in Hnd as [Hx Hnd]. destruct (Z.eqb_spec k0 k).
    + subst. exfalso. apply Hx. apply list_elem_of_In.
      apply in_map_iff. exists (k, i). auto.
    + apply IH; auto.
Qed.

Lemma getChildrenIds_spec parent (st : ElementStore) :
  StronglySorted Z.le (getChildrenIds parent st)
  /\ (forall c, In c (getChildrenIds parent st) <->
                exists info, In (c, info) st /\ parentId info = Some parent)
  /\ (NoDup (List.map fst st) ->
      NoDup (getChildrenIds parent st)
      /\ StronglySorted Z.lt (getChildrenIds parent st)
      /\ forall c, In c (getChildrenIds parent st) <->
                   getParentId c st = Some parent).
Proof.
  split; [apply sortAsc_sorted|]. split; [intros c; apply In_getChildrenIds|].
  intros Hnd.
  assert (Hn : NoDup (getChildrenIds parent st)).
  { unfold getChildrenIds. rewrite <- sortAsc_perm.
    apply NoDup_map_filter. exact Hnd. }
  split; [exact Hn|]. split.
  - pose proof (sortAsc_sorted
      (List.map fst
         (List.filter
            (fun p => match parentId (snd p) with
                      | Some q => Z.eqb q parent
                      | None => false
                      end) st))) as Hs.
    fold (getChildrenIds parent st) in Hs.
    induction Hs as [|y l Hs IH Hy]; [constructor|].
    apply NoDup_cons in Hn as [Hx Hn]. constructor; [apply IH; assumption|].
    apply List.Forall_forall. intros z Hz.
    rewrite List.Forall_forall in Hy. specialize (Hy z Hz).
    assert (z <> y) by (intros ->; apply Hx; apply list_elem_of_In; exact Hz). lia.
  - intros c. rewrite In_getChildrenIds. unfold getParentId, getElementInfo. split.
    + intros (info & Hin & Hp). rewrite (In_storeGet c info st Hnd Hin). exact Hp.
    + destruct (storeGet c st) as [info|] eqn:E; [|discriminate].
      intros Hp. exists info. split; [apply storeGet_In; exact E|exact Hp].
Qed.

Lemma last_cons_default (l : list Z) : forall x a,
  List.last (x :: l) a = List.last l x.
Proof.
  induction l as [|y l IH]; intros x a; [reflexivity|].
  change (List.last (x :: y :: l) a) with (List.last (y :: l) a).
  rewrite (IH y a), (IH y x). reflexivity.
Qed.

Lemma ancestorsLoop_spec st maxDepth : forall fuel k depth l,
  ancestorsLoop fuel st maxDepth k depth = Some l ->
  parentChain st k l
  /\ ((0 < maxDepth)%Z -> (depth <= maxDepth)%Z ->
      (Z.of_nat (List.length l) <= maxDepth - depth)%Z)
  /\ (((maxDepth <= 0)%Z \/ (Z.of_nat (List.length l) < maxDepth - depth)%Z) ->
      getParentId (List.last l k) st = None).
Proof.
  induction fuel as [|fuel IH]; intros k depth l; cbn [ancestorsLoop].
  - destruct ((maxDepth <=? 0)%Z || (depth <? maxDepth)%Z) eqn:Hc.
    + destruct (getParentId k st) as [p|] eqn:Hp; [discriminate|].
      intros [= <-]. cbn. repeat split; auto. lia.
    + intros [= <-]. cbn. apply orb_false_iff in Hc as [H1 H2].
      apply Z.leb_gt in H1. apply Z.ltb_ge in H2. repeat split; try lia.
  - destruct ((maxDepth <=? 0)%Z || (depth <? maxDepth)%Z) eqn:Hc.
    + destruct (getParentId k st) as [p|] eqn:Hp.
      * destruct (ancestorsLoop fuel st maxDepth p (depth + 1)) as [rest|] eqn:E;
          cbn; [|discriminate].
        intros [= <-]. destruct (IH p (depth + 1)%Z rest E) as (A & B & C).
        split; [cbn; auto|]. split.
        -- intros H0 Hd. apply orb_true_iff in Hc as [Hc|Hc];
             [apply Z.leb_le in Hc; lia|apply Z.ltb_lt in Hc].
           specialize (B H0 ltac:(lia)). cbn [List.length]. lia.
        -- intros Hcase.
           rewrite last_cons_default. apply C. cbn [List.length] in Hcase. lia.
      * intros [= <-]. cbn. repeat split; auto. lia.
    + intros [= <-]. cbn. apply orb_false_iff in Hc as [H1 H2].
      apply Z.leb_gt in H1. apply Z.ltb_ge in H2. repeat split; try lia.
Qed.

(** With no depth bound the ancestor list is closed under taking parents,
    and every member is the parent of the start or of another member. *)
Lemma ancestors_up st : forall fuel d depth l,
  ancestorsLoop fuel st 0 d depth = Some l ->
  forall c k, c = d \/ In c l -> getParentId c st = Some k -> In k l.
Proof.
  induction fuel as [|fuel IH]; intros d depth l; cbn [ancestorsLoop]; cbn [Z.leb orb Z.compare].
  - destruct (getParentId d st) as [p|] eqn:Hp; [discriminate|].
    intros [= <-] c k [->|[]] Hk. congruence.
  - destruct (getParentId d st) as [p|] eqn:Hp.
    + destruct (ancestorsLoop fuel st 0 p (depth + 1)) as [rest|] eqn:E;
        cbn; [|discriminate].
      intros [= <-] c k Hc Hk. destruct Hc as [->|[<-|Hin]].
      * left. congruence.
      * right. apply (IH p _ rest E p k); auto.
      * right. apply (IH p _ rest E c k); auto.
    + intros [= <-] c k [->|[]] Hk. congruence.
Qed.

Lemma ancestors_down st : forall fuel d depth l,
  ancestorsLoop fuel st 0 d depth = Some l ->
  forall k, In k l -> exists c, (c = d \/ In c l) /\ getParentId c st = Some k.
Proof.
  induction fuel as [|fuel IH]; intros d depth l; cbn [ancestorsLoop]; cbn [Z.leb orb Z.compare].
  - destruct (getParentId d st) as [p|] eqn:Hp; [discriminate|].
    intros [= <-] k [].
  - destruct (getParentId d st) as [p|] eqn:Hp.
    + destruct (ancestorsLoop fuel st 0 p (depth + 1)) as [rest|] eqn:E;
        cbn; [|discriminate].
      intros [= <-] k [<-|Hin].
      * exists d. auto.
      * destruct (IH p _ rest E k Hin) as (c & Hc & Hk).
        exists c. split; [|exact Hk]. right. destruct Hc as [->|Hc]; [left|right]; auto.
    + intros [= <-] k [].
Qed.

Lemma foldM_collect (g : Z -> option (list Z)) cs : forall acc l,
  foldM (fun descendants childId =>
           sub ← g childId; Some (descendants ++ childId :: sub)) cs acc = Some l ->
  (forall c, In c cs -> exists sub, g c = Some sub)
  /\ forall d, In d l <->
       In d acc \/ exists c sub, In c cs /\ g c = Some sub /\ (d = c \/ In d sub).
Proof.
  induction cs as [|c cs IH]; intros acc l; cbn [foldM].
  - intros [= <-]. split; [intros c []|]. intros d. split; [auto|].
    intros [H|(c & sub & [] & _)]. exact H.
  - destruct (g c) as [sub|] eqn:Eg; cbn; [|discriminate].
    intros E. destruct (IH _ _ E) as [Hall Hin]. split.
    + intros c' [<-|Hc']; eauto.
    + intros d. rewrite Hin. rewrite in_app_iff. cbn [In]. split.
      * intros [[H|[<-|H]]|(c' & sub' & Hc' & Eg' & Hd)]; eauto 8.
      * intros [H|(c' & sub' & [<-|Hc'] & Eg' & Hd)]; eauto 8.
        rewrite Eg in Eg'. inversion Eg'; subst.
        left. right. destruct Hd as [->|Hd]; auto.
Qed.

Lemma descendants_ancestors st :
  NoDup (List.map fst st) ->
  forall fuel k ds, getDescendantIds fuel k st = Some ds ->
  forall d fuel' l, getAncestorIds fuel' d st 0 = Some l ->
  (In d ds <-> In k l).
Proof.
  intros Hnd. induction fuel as [|fuel IH]; intros k ds; cbn [getDescendantIds];
    [discriminate|].
  intros E d fuel' l El. unfold getAncestorIds in El.
  destruct (foldM_collect _ _ _ _ E) as [Hall Hin].
  destruct (getChildrenIds_spec k st) as (_ & _ & Hch).
  destruct (Hch Hnd) as (_ & _ & Hchild).
  rewrite Hin. split.
  - intros [[]|(c & sub & Hc & Eg & Hd)].
    apply Hchild in Hc. destruct Hd as [->|Hd].
    + apply (ancestors_up st _ _ _ _ El c k); auto.
    + apply (ancestors_up st _ _ _ _ El c k); auto. right.
      apply (IH c sub Eg d fuel' l El). exact Hd.
  - intros Hk. destruct (ancestors_down st _ _ _ _ El k Hk) as (c & Hc & Hp).
    apply Hchild in Hp. destruct (Hall c Hp) as [sub Eg].
    right. exists c, sub. split; [exact Hp|]. split; [exact Eg|].
    destruct Hc as [->|Hc]; [left; reflexivity|right].
    apply (IH c sub Eg d fuel' l El). exact Hc.
Qed.

End TreeFacts.

Section ScorerFrame.
Import Phase2.

Lemma eraseScores_storeUpdate k f st :
  (forall i, withReadability None (f i) = withReadability None i) ->
  eraseScores (storeUpdate k f st) = eraseScores st.
Proof.
  intros Hf. unfold eraseScores, storeUpdate. rewrite map_map.
  apply map_ext. intros [k0 i0]. cbn. destruct (Z.eqb k0 k); cbn; [|reflexivity].
  rewrite Hf. reflexivity.
Qed.

Lemma initializeNodeScore_erase k st :
  eraseScores (fst (initializeNodeScore k st)) = eraseScores st.
Proof.
  unfold initializeNodeScore. destruct (getElementInfo k st) as [info|]; [|reflexivity].
  destruct (readability info); [reflexivity|]. cbn [fst].
  apply eraseScores_storeUpdate. reflexivity.
Qed.

Lemma propagate_erase score st a level :
  eraseScores (fst (propagate score st a level)) = eraseScores (fst st).
Proof.
  destruct st as [store cands]. unfold propagate.
  destruct (getElementInfo a store) as [info|]; [|reflexivity].
  destruct (_ || _); [reflexivity|].
  destruct (readability info) as [s|].
  - cbn [fst]. apply eraseScores_storeUpdate.
    intros i. destruct (readability i); reflexivity.
  - pose proof (initializeNodeScore_erase a store) as Hi.
    destruct (initializeNodeScore a store) as [store' s0]. cbn [fst] in Hi.
    assert (E : eraseScores (storeUpdate a
                (fun i => match readability i with
                          | Some s => withReadability
                              (Some (s + ofZ score / ofZ (scoreDivider level))%float) i
                          | None => i end) store') = eraseScores store).
    { rewrite eraseScores_storeUpdate; [exact Hi|].
      intros i. destruct (readability i); reflexivity. }
    destruct s0 as [s|]; [destruct (0 <=? s)%float|]; cbn [fst]; exact E.
Qed.

Lemma forEachLevel_erase score ancestors : forall st level,
  eraseScores (fst (forEachLevel score st ancestors level)) = eraseScores (fst st).
Proof.
  induction ancestors as [|a rest IH]; intros st level; cbn [forEachLevel]; [reflexivity|].
  rewrite IH. apply propagate_erase.
Qed.

Lemma scoreElement_erase fuel st k st' :
  scoreElement fuel st k = Some st' -> eraseScores (fst st') = eraseScores (fst st).
Proof.
  unfold scoreElement. destruct (getElementInfo k (fst st)) as [info|]; [|congruence].
  destruct (negb _); [congruence|]. cbv zeta.
  destruct (_ <? _)%Z; [congruence|].
  destruct (getAncestorIds fuel k (fst st) 5) as [l|];
    cbn [mbind option_bind]; [|discriminate].
  destruct l; [congruence|]. intros [= <-].
  rewrite forEachLevel_erase. apply propagate_erase.
Qed.

Lemma scoreElements_erase fuel store st' :
  scoreElements fuel store = Some st' -> eraseScores (fst st') = eraseScores store.
Proof.
  unfold scoreElements. intros E.
  apply (foldM_Some_invariant
           (fun st => eraseScores (fst st) = eraseScores store) _ _ _ _ E).
  - reflexivity.
  - intros acc x acc' Ha Hs. rewrite (scoreElement_erase _ _ _ _ Hs). exact Ha.
Qed.

Lemma adjustCandidate_erase fuel st k st' :
  adjustCandidate fuel st k = Some st' -> eraseScores (fst st') = eraseScores (fst st).
Proof.
  destruct st as [store scores]. unfold adjustCandidate.
  destruct (getElementInfo k store) as [info|]; [|congruence].
  destruct (readability info); [|congruence].
  destruct (getLinkDensity fuel k store); cbn; [|discriminate].
  intros [= <-]. cbn [fst]. apply eraseScores_storeUpdate. reflexivity.
Qed.

Lemma candidateScores_erase fuel store st' :
  candidateScores fuel store = Some st' -> eraseScores (fst st') = eraseScores store.
Proof.
  unfold candidateScores.
  destruct (scoreElements fuel store) as [st1|] eqn:E1; cbn; [|discriminate].
  intros E2. rewrite <- (scoreElements_erase _ _ _ E1).
  unfold adjustCandidates in E2.
  apply (foldM_Some_invariant
           (fun st => eraseScores (fst st) = eraseScores (fst st1)) _ _ _ _ E2).
  - reflexivity.
  - intros acc x acc' Ha Hs. rewrite (adjustCandidate_erase _ _ _ _ Hs). exact Ha.
Qed.

Lemma calculate_erase fuel store opts res store' :
  calculateScoresAndFindBestCandidate fuel store opts = Some (res, store') ->
  eraseScores store' = eraseScores store.
Proof.
  unfold calculateScoresAndFindBestCandidate. cbv zeta.
  destruct (candidateScores fuel store) as [[st sc]|] eqn:E; cbn; [|discriminate].
  apply candidateScores_erase in E. cbn [fst] in E.
  destruct (selectCandidate fuel st sc) as [sel|]; cbn; [|discriminate].
  destruct sel as [[top keep]|]; [destruct (_ <? _)%Z|]; intros [= <- <-]; exact E.
Qed.

Lemma eraseScores_get k st st' :
  eraseScores st' = eraseScores st ->
  withReadability None <$> storeGet k st' = withReadability None <$> storeGet k st.
Proof.
  assert (H : forall s, withReadability None <$> storeGet k s = storeGet k (eraseScores s)).
  { intros s. unfold storeGet, eraseScores.
    induction s as [|[k0 v0] s IH]; cbn; [reflexivity|].
    destruct (Z.eqb k0 k); cbn; [reflexivity|exact IH]. }
  intros E. rewrite !H, E. reflexivity.
Qed.

Lemma eraseScores_keys st st' :
  eraseScores st' = eraseScores st -> List.map fst st' = List.map fst st.
Proof.
  intros E. apply (f_equal (List.map fst)) in E. unfold eraseScores in E.
  rewrite !map_map in E. exact E.
Qed.

End ScorerFrame.

Section KeptIds.
Import Phase2.

Lemma setAdd_NoDup x l : NoDup l -> NoDup (setAdd x l).
Proof.
  intros H. unfold setAdd. destruct (existsb (Z.eqb x) l) eqn:E; [exact H|].
  apply NoDup_app. repeat split; auto.
  - intros y Hy Hy'. apply list_elem_of_In in Hy, Hy'. cbn in Hy'.
    destruct Hy' as [Hxy|[]]. subst y.
    assert (existsb (Z.eqb x) l = true)
      by (apply existsb_exists; exists x; split; [auto|apply Z.eqb_refl]).
    congruence.
  - apply NoDup_singleton.
Qed.

Lemma In_setAdd x y l : In y (setAdd x l) <-> y = x \/ In y l.
Proof.
  unfold setAdd. destruct (existsb (Z.eqb x) l) eqn:E.
  - apply existsb_exists in E as (z & Hz & Ez). apply Z.eqb_eq in Ez. subst z.
    split; [auto|]. intros [->|H]; auto.
  - rewrite in_app_iff. cbn. intuition.
Qed.

Lemma fold_setAdd l : forall acc,
  (NoDup acc -> NoDup (fold_left (fun acc d => setAdd d acc) l acc))
  /\ forall y, In y (fold_left (fun acc d => setAdd d acc) l acc) <-> In y l \/ In y acc.
Proof.
  induction l as [|x l IH]; intros acc; cbn [fold_left].
  - split; [auto|]. intros y. cbn. intuition.
  - destruct (IH (setAdd x acc)) as [A B]. split.
    + intros H. apply A. apply setAdd_NoDup. exact H.
    + intros y. rewrite B, In_setAdd. cbn. intuition.
Qed.

Lemma keepSubtree_spec fuel st keep k keep' :
  keepSubtree fuel st keep k = Some keep' ->
  exists ds, getDescendantIds fuel k st = Some ds
    /\ (NoDup keep -> NoDup keep')
    /\ forall y, In y keep' <-> In y keep \/ y = k \/ In y ds.
Proof.
  unfold keepSubtree. destruct (getDescendantIds fuel k st) as [ds|]; cbn; [|discriminate].
  intros [= <-]. exists ds. split; [reflexivity|].
  destruct (fold_setAdd ds (setAdd k keep)) as [A B]. split.
  - intros H. apply A. apply setAdd_NoDup. exact H.
  - intros y. rewrite B, In_setAdd. intuition.
Qed.

Lemma foldM_Some_invariant_In {A B} (P : B -> Prop) (f : B -> A -> option B) l :
  forall acc r,
    foldM f l acc = Some r ->
    P acc ->
    (forall acc x acc', In x l -> P acc -> f acc x = Some acc' -> P acc') ->
    P r.
Proof.
  induction l as [|x l IH]; intros acc r E HP Hstep; cbn [foldM] in E.
  - congruence.
  - destruct (f acc x) as [acc'|] eqn:Ef; cbn in E; [|discriminate].
    eapply IH; [exact E| |].
    + eapply Hstep; [left; reflexivity|exact HP|exact Ef].
    + intros a y a' Hy. apply Hstep. right. exact Hy.
Qed.

(** The elements kept by [combineSiblings] are listed once each, and each
    lies in the subtree of the top candidate or of one of its siblings. *)
Lemma combineSiblings_spec fuel st top score keep :
  NoDup (List.map fst st) ->
  combineSiblings fuel st top score = Some keep ->
  NoDup keep
  /\ forall y, In y keep ->
       forall fuel' l, getAncestorIds fuel' y st 0 = Some l ->
       match getParentId top st with
       | Some p => if negb (Z.eqb p 0) then In p l else y = top \/ In top l
       | None => y = top \/ In top l
       end.
Proof.
  intros Hnd. unfold combineSiblings. cbv zeta.
  assert (Hsub : forall keep', keepSubtree fuel st [] top = Some keep' ->
            NoDup keep'
            /\ forall y, In y keep' -> forall fuel' l,
                 getAncestorIds fuel' y st 0 = Some l -> y = top \/ In top l).
  { intros keep' E. destruct (keepSubtree_spec _ _ _ _ _ E) as (ds & Ed & Hn & Hin).
    split; [apply Hn; constructor|].
    intros y Hy fuel' l El. apply Hin in Hy as [[]|[->|Hy]]; [auto|right].
    apply (descendants_ancestors st Hnd fuel top ds Ed y fuel' l El). exact Hy. }
  destruct (getParentId top st) as [p|] eqn:Hp.
  - destruct (negb (Z.eqb p 0)) eqn:Hp0; cbn [andb].
    + destruct (negb (Z.eqb top 0)) eqn:Ht0.
      * intros E.
        apply (foldM_Some_invariant_In
          (fun keep => NoDup keep
             /\ forall y, In y keep -> forall fuel' l,
                  getAncestorIds fuel' y st 0 = Some l -> In p l) _ _ _ _ E).
        -- split; [constructor|intros y []].
        -- intros acc x acc' Hx [Hn Hin] Hstep.
           destruct (getChildrenIds_spec p st) as (_ & _ & Hch).
           destruct (Hch Hnd) as (_ & _ & Hchild). apply Hchild in Hx.
           assert (Hkeep : keepSubtree fuel st acc x = Some acc' ->
                     NoDup acc'
                     /\ forall y, In y acc' -> forall fuel' l,
                          getAncestorIds fuel' y st 0 = Some l -> In p l).
           { intros Ek.
             destruct (keepSubtree_spec _ _ _ _ _ Ek) as (ds & Ed & Hn' & Hin').
             split; [auto|]. intros y Hy fuel' l El.
             apply Hin' in Hy as [Hy|[->|Hy]].
             - apply (Hin y Hy fuel' l El).
             - apply (ancestors_up st _ _ _ _ El x p); auto.
             - apply (ancestors_up st _ _ _ _ El x p); auto. right.
               apply (descendants_ancestors st Hnd fuel x ds Ed y fuel' l El).
               exact Hy. }
           destruct (getElementInfo x st) as [xi|];
             [|inversion Hstep; subst; auto].
           destruct (negb (isVisibleBasedOnAttrs xi));
             [inversion Hstep; subst; auto|].
           destruct (if Z.eqb x top then true else _);
             [auto|inversion Hstep; subst; auto].
      * intros [= <-]. split; [constructor|intros y []].
    + destruct (negb (Z.eqb top 0)); [apply Hsub|].
      intros [= <-]. split; [constructor|intros y []].
  - destruct (negb (Z.eqb top 0)); [apply Hsub|].
    intros [= <-]. split; [constructor|intros y []].
Qed.

End KeptIds.

Section MoreTermination.

Lemma ancestorsLoop_total_wf M st maxDepth :
  WfStore M st ->
  forall fuel k depth,
    (getParentId k st <> None -> (Z.to_nat k <= fuel)%nat) ->
    exists l, ancestorsLoop fuel st maxDepth k depth = Some l.
Proof.
  intros W. induction fuel as [|fuel IH]; intros k depth Hf; cbn [ancestorsLoop].
  - destruct (_ || _); [|eauto].
    destruct (getParentId k st) as [p|] eqn:Hp; [|eauto].
    destruct (WfStore_parent M st k p W Hp). specialize (Hf ltac:(discriminate)). lia.
  - destruct (_ || _); [|eauto].
    destruct (getParentId k st) as [p|] eqn:Hp; [|eauto].
    destruct (WfStore_parent M st k p W Hp). specialize (Hf ltac:(discriminate)).
    destruct (IH p (depth + 1)%Z) as (l & E); [intros _; lia|].
    rewrite E. cbn. eauto.
Qed.

Lemma getAncestorIds_total_wf M st maxDepth fuel k :
  WfStore M st -> (Z.to_nat (M + 1) < fuel)%nat ->
  exists l, getAncestorIds fuel k st maxDepth = Some l.
Proof.
  intros W Hf. apply (ancestorsLoop_total_wf M st maxDepth W).
  intros Hp. destruct (getParentId k st) as [p|] eqn:E; [|contradiction].
  destruct (WfStore_parent M st k p W E). lia.
Qed.

End MoreTermination.

Section ClimbByScore.
Import Phase2.

Variable store : ElementStore.



End ClimbByScore.

Section TextShape.

Lemma getTotalVisibleInnerText_shape fuel k store norm t :
  getTotalVisibleInnerText fuel k store norm = Some t ->
  startsClean t = true /\ endsClean t = true
  /\ (norm = true -> runsBelow isWhiteSpace 2 0 t = true).
Proof.
  destruct fuel as [|fuel]; cbn [getTotalVisibleInnerText]; [discriminate|].
  cbv zeta. destruct (foldM _ _ _) as [total|]; cbn [mbind option_bind]; [|discriminate].
  intros [= <-]. destruct norm.
  - destruct (trim_clean (collapseSpaces total)) as [A B].
    repeat split; auto. intros _. apply runsBelow_trim. apply collapseSpaces_runsBelow.
  - destruct (trim_clean total) as [A B]. repeat split; auto. discriminate.
Qed.

End TextShape.

Section LinkText.
Import Markdown.

Lemma link_text_twice store keep base fuel k info lvl ord n :
  storeGet k store = Some info ->
  existsb (Z.eqb k) keep = true ->
  tagName info = js "A" ->
  getChildrenIds k store = [] ->
  exists target,
    convertNodeRecursive store keep base (S fuel) k lvl ord n
    = Some (js "[" ++ escapeMarkdown (escapeMarkdown (getInnerText k store false))
              ++ js "](" ++ target ++ js ")")
    /\ (target = default [] (attributes info !! js "href")
        \/ target = resolveOrKeep base (default [] (attributes info !! js "href"))).
Proof.
  intros Hg Hk Ht Hc. cbn [convertNodeRecursive]. rewrite Hg, Hk. cbn [negb].
  cbv zeta. rewrite Hc. cbn [forEachChild mbind option_bind].
  unfold renderTag. cbv zeta. rewrite Ht.
  change (eqb (js "A") (js "P")) with false.
  change (eqb (js "A") (js "H1")) with false.
  change (eqb (js "A") (js "H2")) with false.
  change (eqb (js "A") (js "H3")) with false.
  change (eqb (js "A") (js "H4")) with false.
  change (eqb (js "A") (js "H5")) with false.
  change (eqb (js "A") (js "H6")) with false.
  change (eqb (js "A") (js "UL")) with false.
  change (eqb (js "A") (js "OL")) with false.
  change (eqb (js "A") (js "LI")) with false.
  change (eqb (js "A") (js "A")) with true.
  cbn [orb]. cbv iota.
  change (truthy (trim [])) with false. cbv iota.
  eexists. split.
  - f_equal. f_equal. f_equal.
    destruct (truthy (getInnerText k store false)) eqn:E; [reflexivity|].
    destruct (getInnerText k store false); [reflexivity|discriminate].
  - destruct (_ && _); auto.
Qed.

End LinkText.

Section ScorerResult.
Import Phase2.

Lemma In_eraseScores k i st :
  In (k, i) st -> In (k, withReadability None i) (eraseScores st).
Proof.
  intros H. unfold eraseScores. apply in_map_iff. exists (k, i). auto.
Qed.

Lemma WfStore_erase M st st' :
  eraseScores st' = eraseScores st -> WfStore M st -> WfStore M st'.
Proof.
  intros E [Hnd W]. split.
  - rewrite (eraseScores_keys _ _ E). exact Hnd.
  - intros k i Hin. apply In_eraseScores in Hin. rewrite E in Hin.
    unfold eraseScores in Hin. apply in_map_iff in Hin as ([k0 i0] & Heq & Hin0).
    pose proof (f_equal fst Heq) as Hk. pose proof (f_equal snd Heq) as Hi.
    cbn [fst snd] in Hk, Hi. subst k0.
    apply (f_equal parentId) in Hi. cbn [parentId withReadability] in Hi.
    destruct (W k i0 Hin0) as [Hr Hp]. split; [exact Hr|].
    intros p Hpi. apply Hp. rewrite Hi. exact Hpi.
Qed.

Lemma calculate_inv fuel store opts res store' top :
  calculateScoresAndFindBestCandidate fuel store opts = Some (res, store') ->
  topCandidateId res = Some top ->
  exists scores firstId firstScore rest climbed score,
    candidateScores fuel store = Some (store', scores)
    /\ sortedCandidates scores = (firstId, firstScore) :: rest
    /\ climbByScore fuel store' firstId firstScore (getParentId firstId store')
       = Some (climbed, score)
    /\ climbSoleChild fuel store' climbed (getParentId climbed store')
         (getElementInfo climbed store') = Some top
    /\ combineSiblings fuel store' top score = Some (elementsToKeepIds res).
Proof.
  unfold calculateScoresAndFindBestCandidate. cbv zeta.
  destruct (candidateScores fuel store) as [[st sc]|] eqn:E;
    cbn [mbind option_bind]; [|discriminate].
  unfold selectCandidate.
  destruct (sortedCandidates sc) as [|[fid fsc] rest] eqn:Es.
  - cbn [mbind option_bind]. intros [= <- <-]. discriminate.
  - destruct (climbByScore fuel st fid fsc (getParentId fid st)) as [[c s]|] eqn:Ec;
      cbn [mbind option_bind]; [|discriminate].
    destruct (climbSoleChild fuel st c (getParentId c st) (getElementInfo c st))
      as [t|] eqn:Et; cbn [mbind option_bind]; [|discriminate].
    destruct (combineSiblings fuel st t s) as [keep|] eqn:Ek;
      cbn [mbind option_bind]; [|discriminate].
    destruct (_ <? _)%Z; intros [= <- <-]; [discriminate|].
    cbn. intros [= <-]. exists sc, fid, fsc, rest, c, s. auto.
Qed.

Lemma kept_ids M fuel store opts res store' top :
  WfStore M store ->
  calculateScoresAndFindBestCandidate fuel store opts = Some (res, store') ->
  topCandidateId res = Some top ->
  NoDup (elementsToKeepIds res)
  /\ forall y, In y (elementsToKeepIds res) ->
       forall fuel' l, getAncestorIds fuel' y store' 0 = Some l ->
       let root := default top (getParentId top store') in
       y = root \/ In root l.
Proof.
  intros W E Ht. pose proof (calculate_erase _ _ _ _ _ E) as Her.
  pose proof (WfStore_erase M store store' Her W) as W'.
  destruct (calculate_inv _ _ _ _ _ _ E Ht)
    as (sc & fid & fsc & rest & c & s & _ & _ & _ & _ & Ek).
  destruct (combineSiblings_spec fuel store' top s _ (proj1 W') Ek) as [Hn Hin].
  split; [exact Hn|]. intros y Hy fuel' l El. cbv zeta.
  specialize (Hin y Hy fuel' l El).
  destruct (getParentId top store') as [p|] eqn:Hp; cbn [default]; [|exact Hin].
  destruct (WfStore_parent M store' top p W' Hp) as [Hp0 _].
  destruct (Z.eqb_spec p 0); [lia|]. cbn [negb] in Hin. right. exact Hin.
Qed.

End ScorerResult.

Section ProcessOutput.
Import Readability.

Lemma withReadability_None_id i : readability i = None -> withReadability None i = i.
Proof. destruct i; cbn. intros ->. reflexivity. Qed.

Lemma eraseScores_unscored st :
  Forall (fun p => readability (snd p) = None) st -> eraseScores st = st.
Proof.
  induction 1 as [|[k i] st Hi _ IH]; [reflexivity|].
  cbn in *. rewrite withReadability_None_id by exact Hi. f_equal. exact IH.
Qed.

Lemma process_output fuel events r out r' :
  process fuel events r = Some (Some out, r') ->
  let h := Phase1.run events
             (Phase1.new [] emptyMetadata 0 (Types.maxElemsToParse (options r))) in
  metadata out = Phase1.metadataStore h
  /\ metadataStore r' = Phase1.metadataStore h
  /\ elementCounter r' = Phase1.elementCounter h
  /\ eraseScores (elementStore r') = Phase1.elementStore h
  /\ NoDup (elementsToKeepIdsSet r')
  /\ elementsToKeepIdsSet r' <> []
  /\ startsClean (markdown out) = true
  /\ endsClean (markdown out) = true
  /\ runsBelow (N.eqb 10) 3 0 (markdown out) = true.
Proof.
  cbv zeta. unfold process, runPhase2.
  destruct (runPhase1_phaseInv events r) as [W _].
  destruct (Phase2.calculateScoresAndFindBestCandidate _ _ _) as [[res st]|] eqn:E;
    cbn [mbind option_bind fst snd]; [|discriminate].
  destruct (negb (Phase2.truthyId (Phase2.topCandidateId res))) eqn:Ht;
    cbn [orb]; [discriminate|].
  destruct (Nat.eqb_spec (List.length (Phase2.elementsToKeepIds res)) 0) as [|Hlen];
    [discriminate|].
  cbn [withStore elementStore elementsToKeepIdsSet metadataStore baseURI].
  destruct (Phase2.topCandidateId res) as [top|] eqn:Htop; [|discriminate].
  unfold convertToMarkdown.
  cbn [withStore elementStore elementsToKeepIdsSet metadataStore baseURI].
  set (root := match getParentId top st with Some parent => Some parent | None => Some top end).
  assert (Hroot : exists x, root = Some x) by (unfold root; destruct (getParentId top st); eauto).
  destruct Hroot as [x Hx]. rewrite Hx.
  destruct (Markdown.convert _ _ _ _ _) as [md|] eqn:Emd; cbn [mbind option_bind];
    [|discriminate].
  intros [= <- <-].
  cbn [markdown metadata withStore elementStore elementsToKeepIdsSet metadataStore
       elementCounter].
  destruct (kept_ids _ _ _ _ _ _ top W E Htop) as [Hn _].
  pose proof (calculate_erase _ _ _ _ _ E) as Her.
  destruct (convert_shape _ _ _ _ _ _ Emd) as (A & B & C).
  unfold runPhase1 in *.
  cbn [resetState elementStore metadataStore elementCounter options] in *.
  repeat split; auto.
  - rewrite Her. apply eraseScores_unscored.
    destruct (run_idsInv events _ (new_idsInv emptyMetadata
                (Types.maxElemsToParse (options r)))) as (_ & _ & Hr).
    eapply Forall_impl; [exact Hr|]. intros p (_ & Hp & _). exact Hp.
  - intros Hnil. apply Hlen. rewrite Hnil. reflexivity.
Qed.

End ProcessOutput.

Section Initialisers.

Ltac by_tag tag lit :=
  let E := fresh "E" in
  destruct (eqb tag (js lit)) eqn:E;
  [apply eqb_eq in E; subst tag; vm_compute; reflexivity|].

Lemma tagBias_agree tag :
  Phase2.tagBias tag
  = if has penalisedByUtilsOnly tag then 0%float else Utils.tagBias tag.
Proof.
  by_tag tag "ARTICLE"%string. by_tag tag "DIV"%string.
  by_tag tag "PRE"%string. by_tag tag "TD"%string.
  by_tag tag "BLOCKQUOTE"%string. by_tag tag "ADDRESS"%string.
  by_tag tag "H1"%string.
  by_tag tag "OL"%string. by_tag tag "UL"%string. by_tag tag "DL"%string.
  by_tag tag "DD"%string. by_tag tag "DT"%string. by_tag tag "LI"%string.
  by_tag tag "FORM"%string.
  by_tag tag "H2"%string. by_tag tag "H3"%string. by_tag tag "H4"%string.
  by_tag tag "H5"%string. by_tag tag "H6"%string. by_tag tag "TH"%string.
  unfold Phase2.tagBias, Utils.tagBias, penalisedByUtilsOnly, has.
  cbn [List.map existsb].
  rewrite E, E0, E1, E2, E3, E4, E5, E6, E7, E8, E9, E10, E11, E12, E13, E14,
    E15, E16, E17, E18.
  reflexivity.
Qed.

End Initialisers.

Section ScoreLocality.
Import Phase2.

Lemma initializeNodeScore_other a k st :
  a <> k -> storeGet k (fst (initializeNodeScore a st)) = storeGet k st.
Proof.
  intros Hne. unfold initializeNodeScore.
  destruct (getElementInfo a st) as [info|]; [|reflexivity].
  destruct (readability info); [reflexivity|]. cbn [fst].
  apply storeGet_storeUpdate_ne. exact Hne.
Qed.

Lemma propagate_other score st a level k :
  a <> k -> storeGet k (fst (propagate score st a level)) = storeGet k (fst st).
Proof.
  intros Hne. destruct st as [store cands]. unfold propagate.
  destruct (getElementInfo a store) as [info|]; [|reflexivity].
  destruct (_ || _); [reflexivity|].
  destruct (readability info) as [s|].
  - cbn [fst]. apply storeGet_storeUpdate_ne. exact Hne.
  - pose proof (initializeNodeScore_other a k store Hne) as Hi.
    destruct (initializeNodeScore a store) as [store' s0]. cbn [fst] in Hi.
    destruct s0 as [s|]; [destruct (0 <=? s)%float|]; cbn [fst];
      rewrite storeGet_storeUpdate_ne by exact Hne; exact Hi.
Qed.

Lemma forEachLevel_other score k ancestors : forall st level,
  ~ In k ancestors ->
  storeGet k (fst (forEachLevel score st ancestors level)) = storeGet k (fst st).
Proof.
  induction ancestors as [|a rest IH]; intros st level Hn; cbn [forEachLevel];
    [reflexivity|].
  rewrite IH by (intros H; apply Hn; right; exact H).
  apply propagate_other. intros ->. apply Hn. left. reflexivity.
Qed.

Lemma parentChain_below M st : WfStore M st -> forall l k,
  parentChain st k l -> Forall (fun a => (0 < a < k)%Z) l.
Proof.
  intros W. induction l as [|p l IH]; intros k Hc; [constructor|].
  destruct Hc as [Hp Hc]. destruct (WfStore_parent M st k p W Hp) as [Hlt _].
  constructor; [exact Hlt|].
  eapply Forall_impl; [apply (IH p Hc)|]. cbn. intros; lia.
Qed.

Lemma scoreElement_local fuel st k st' :
  scoreElement fuel st k = Some st' ->
  forall j, (forall l, getAncestorIds fuel k (fst st) 5 = Some l -> ~ In j l) ->
  storeGet j (fst st') = storeGet j (fst st).
Proof.
  unfold scoreElement. destruct (getElementInfo k (fst st)) as [info|]; [|congruence].
  destruct (negb _); [congruence|]. cbv zeta.
  destruct (_ <? _)%Z; [congruence|].
  destruct (getAncestorIds fuel k (fst st) 5) as [l|];
    cbn [mbind option_bind]; [|discriminate].
  intros E j Hj. specialize (Hj l eq_refl).
  destruct l as [|a l]; [congruence|].
  assert (E' : forEachLevel (contentScore (getInnerText k (fst st) true)) st
                 (a :: l) 0 = st') by congruence.
  rewrite <- E'. apply forEachLevel_other. exact Hj.
Qed.

Lemma scoreElement_own M fuel st k st' :
  WfStore M (fst st) -> scoreElement fuel st k = Some st' ->
  storeGet k (fst st') = storeGet k (fst st).
Proof.
  intros W E. apply (scoreElement_local fuel st k st' E).
  intros l El Hin. unfold getAncestorIds in El.
  destruct (ancestorsLoop_spec _ _ _ _ _ _ El) as (Hc & _).
  pose proof (parentChain_below M (fst st) W l k Hc) as Hb.
  rewrite List.Forall_forall in Hb. specialize (Hb k Hin). lia.
Qed.

End ScoreLocality.

Section SampleFacts.

Lemma articleDoc_wf : WfStore 4 (storeOf articleDoc).
Proof.
  exact (proj1 (run_phaseInv articleDoc _ (new_phaseInv emptyMetadata None))).
Qed.

End SampleFacts.

Section ParagraphText.
Import Markdown.

Lemma escapeMarkdown_app a b :
  escapeMarkdown (a ++ b) = escapeMarkdown a ++ escapeMarkdown b.
Proof. unfold escapeMarkdown. rewrite map_app, concat_app. reflexivity. Qed.

Lemma startsClean_escapeMarkdown s :
  startsClean s = true -> startsClean (escapeMarkdown s) = true.
Proof.
  destruct s as [|c s]; [auto|]. rewrite escapeMarkdown_cons. cbn [startsClean].
  intros Hc. destruct (isMarkdownSpecial c); cbn; [reflexivity|exact Hc].
Qed.

Lemma endsClean_escapeMarkdown s :
  endsClean s = true -> endsClean (escapeMarkdown s) = true.
Proof.
  unfold endsClean. destruct s as [|c s] using rev_ind; [auto|].
  rewrite escapeMarkdown_app, !rev_app_distr. cbn [rev app startsClean].
  intros Hc. change (escapeMarkdown [c])
    with ((if isMarkdownSpecial c then [92%N; c] else [c]) ++ []).
  destruct (isMarkdownSpecial c); cbn; exact Hc.
Qed.

Lemma trim_escapeMarkdown_trim s :
  trim (escapeMarkdown (trim s)) = escapeMarkdown (trim s).
Proof.
  destruct (trim_clean s) as [A B].
  apply trim_of_clean;
    [apply startsClean_escapeMarkdown|apply endsClean_escapeMarkdown]; assumption.
Qed.

Lemma getInnerText_raw k store :
  exists text, getInnerText k store false = trim text.
Proof. unfold getInnerText. eexists. reflexivity. Qed.

Lemma paragraph_leaf store keep base fuel k info lvl ord n :
  storeGet k store = Some info ->
  existsb (Z.eqb k) keep = true ->
  tagName info = js "P" ->
  getChildrenIds k store = [] ->
  convertNodeRecursive store keep base (S fuel) k lvl ord n
  = Some (match getInnerText k store false with
          | [] => []
          | t => repeat (js "  ")
                   (Z.to_nat (if (0 <? lvl)%Z then lvl - 1 else 0))
                 ++ escapeMarkdown t ++ NL ++ NL
          end).
Proof.
  intros Hg Hk Ht Hc. cbn [convertNodeRecursive]. rewrite Hg, Hk. cbn [negb].
  cbv zeta. rewrite Hc. cbn [forEachChild mbind option_bind].
  unfold renderTag. cbv zeta. rewrite Ht.
  change (eqb (js "P") (js "P")) with true. cbv iota.
  rewrite app_nil_r.
  destruct (getInnerText_raw k store) as [text Et]. rewrite Et.
  destruct (trim text) as [|c t] eqn:E.
  - reflexivity.
  - cbn [truthy]. rewrite <- E. rewrite trim_escapeMarkdown_trim.
    rewrite E. rewrite escapeMarkdown_cons.
    destruct (isMarkdownSpecial c); reflexivity.
Qed.

End ParagraphText.

Section BuilderKeys.
Import Phase1.

Lemma builder_keys events meta maxElems :
  let h := run events (new [] meta 0 maxElems) in
  (forall k info, In (k, info) (elementStore h) ->
     forall p, parentId info = Some p ->
     (0 < p < k)%Z /\ exists pinfo, storeGet p (elementStore h) = Some pinfo)
  /\ (forall k, In k (elementStack h) ->
        exists info, storeGet k (elementStore h) = Some info).
Proof.
  intros h.
  destruct (run_idsInv events _ (new_idsInv meta maxElems)) as (Hc & Hk & _).
  destruct (run_phaseInv events _ (new_phaseInv meta maxElems)) as ((_ & W) & Hs & _).
  fold h in Hc, Hk, W, Hs.
  assert (Hkey : forall k, (0 < k <= elementCounter h)%Z ->
                   exists info, storeGet k (elementStore h) = Some info).
  { intros k Hr. apply storeGet_Some_key. rewrite Hk.
    apply list_elem_of_In, elem_of_seqZ. lia. }
  split.
  - intros k info Hin p Hp. destruct (W k info Hin) as [Hr Hpar].
    specialize (Hpar p Hp). split; [exact Hpar|]. apply Hkey. lia.
  - intros k Hin. apply Hkey. rewrite List.Forall_forall in Hs. apply Hs. exact Hin.
Qed.

End BuilderKeys.
(* ===================================================================== *)
(** * The claims *)
(* ===================================================================== *)

Section TreeBuilderClaims.
Import Phase1.

(** C10. With a cap [N > 0] on the number of elements, every start tag that
    arrives below the cap consumes one unit of it, whether the tag is then
    skipped (script, style, noscript, iframe, stylesheet link: the store
    stays as it is) or recorded, and a start tag that arrives at the cap is
    ignored; hence a store filled
    from empty never holds more than [N] records, and it can hold strictly
    fewer although more than [N] recordable start tags arrived. *)
Theorem max_elems_cap (N : Z) (HN : (0 < N)%Z) :
  (forall h el, maxElemsToParse h = N -> (elementCount h < N)%Z ->
     elementCount (element el h) = (elementCount h + 1)%Z)
  /\ (forall h el,
        isSkipped (toUpperCase (Host.tagName el)) el = true ->
        elementStore (element el h) = elementStore h)
  /\ (forall h el, maxElemsToParse h = N -> (N <= elementCount h)%Z ->
        element el h = h)
  /\ (forall events meta counter,
        (Z.of_nat (List.length
           (elementStore (run events (new [] meta counter (Some N))))) <= N)%Z)
  /\ (exists events,
        (N < Z.of_nat (List.length (List.filter recordable events)))%Z
        /\ (Z.of_nat (List.length
              (elementStore (run events (new [] emptyMetadata 0 (Some N)))))
            < N)%Z).
Proof.
  split.
  { intros h el Hm Hc. unfold element. rewrite Hm.
    destruct (Z.leb_spec N (elementCount h)); [lia|]. rewrite andb_false_r.
    cbn [setCount elementCount elementStore maxElemsToParse elementCounter
         elementStack lastTextChunkMap metadataStore].
    destruct (isSkipped _ _); [reflexivity|].
    destruct (negb _); [destruct (Host.onEndTagThrows el)|]; reflexivity. }
  split.
  { intros h el Hs. unfold element. destruct (_ && _); [reflexivity|].
    cbn [setCount elementCount elementStore maxElemsToParse elementCounter
         elementStack lastTextChunkMap metadataStore].
    rewrite Hs. reflexivity. }
  split.
  { intros h el Hm Hc. unfold element. rewrite Hm.
    destruct (Z.ltb_spec 0 N); [|lia].
    destruct (Z.leb_spec N (elementCount h)); [reflexivity|lia]. }
  split.
  { intros events meta counter.
    assert (Hi : capInv N 0 (new [] meta counter (Some N))).
    { unfold capInv; cbn. lia. }
    destruct (run_capInv N 0 events _ HN Hi) as (_ & A & B). lia. }
  exists (plainTag "script" :: List.repeat (plainTag "p") (Z.to_nat N + 1)).
  split.
  { cbn [List.filter]. change (recordable (plainTag "script")) with false.
    cbn match. rewrite filter_recordable_repeat, repeat_length. lia. }
  assert (Hi : capInv N 1
    (element {| Host.tagName := js "script"; Host.attributes := [];
                Host.onEndTagThrows := false |}
             (new [] emptyMetadata 0 (Some N)))).
  { unfold element.
    change (maxElemsToParse (new [] emptyMetadata 0 (Some N))) with N.
    change (elementCount (new [] emptyMetadata 0 (Some N))) with 0%Z.
    replace ((0 <? N)%Z && (N <=? 0)%Z) with false
      by (symmetry; apply andb_false_iff; right; apply Z.leb_gt; lia).
    match goal with |- context [isSkipped ?t ?e] =>
      change (isSkipped t e) with true end.
    unfold capInv, setCount, new. cbn [maxElemsToParse elementCount elementStore
      List.length default from_option Datatypes.id]. lia. }
  destruct (run_capInv N 1 (List.repeat (plainTag "p") (Z.to_nat N + 1)) _ HN Hi)
    as (_ & A & B).
  change (run (plainTag "script" :: ?l) ?h0) with (run l (step h0 (plainTag "script"))).
  change (step ?h0 (plainTag "script")) with
    (element {| Host.tagName := js "script"; Host.attributes := [];
                Host.onEndTagThrows := false |} h0).
  lia.
Qed.

Lemma max_elems_cap_witness :
  (0 < 2)%Z
  /\ (forall events meta counter,
        (Z.of_nat (List.length
           (elementStore (run events (new [] meta counter (Some 2%Z))))) <= 2)%Z).
Proof.
  split; [lia|]. exact (proj1 (proj2 (proj2 (proj2 (max_elems_cap 2 eq_refl))))).
Defined.

(** X1. The tree invariant of the data model: after any sequence of
    callbacks on a store that started empty with the counter at 0, the keys
    of the store are pairwise distinct, positive and not above the id
    counter; the parent id of every record is a smaller positive id and is
    itself a key of the store, so it refers to a record created before;
    and every id on the stack of open elements is a key of the store. *)
Theorem builder_tree_invariant :
  forall events meta maxElems,
    let h := run events (new [] meta 0 maxElems) in
    phaseInv h
    /\ (forall k info, In (k, info) (elementStore h) ->
          forall p, parentId info = Some p ->
          (0 < p < k)%Z
          /\ exists pinfo, storeGet p (elementStore h) = Some pinfo)
    /\ (forall k, In k (elementStack h) ->
          exists info, storeGet k (elementStore h) = Some info).
Proof.
  intros events meta maxElems h. split.
  - apply run_phaseInv. apply new_phaseInv.
  - apply builder_keys.
Qed.

(** C4. Code bug in [element]. What holds as claimed, for an open,
    recorded, non-void element: a chunk delivered twice in a row is recorded
    once, a chunk repeated after a different non-blank chunk is recorded
    both times, and the element's last-chunk entry is deleted when the
    element closes. A whitespace-only chunk is ignored before the duplicate
    test (the code records the last chunk "only if not whitespace"), so it
    does not separate two repeats. Against the claim, and against the
    comment of [element] ("delete entry from Map when new element starts"),
    the suppression state is not discarded when a new element opens inside:
    the start tag deletes the entry of the fresh id it has just created,
    which never exists, and leaves every other entry, so a chunk repeated
    right after a child element opened is dropped. In [<p>x<br>x</p>] and in
    [<p>x<b>y</b>x</p>] the paragraph keeps the last chunk [x] after the
    child's start tag and ends with the text [x], the second [x] lost. *)
Theorem text_chunk_suppression :
  (forall h c, text c (text c h) = text c h)
  /\ (forall h cur rest info c d,
        elementStack h = cur :: rest ->
        storeGet cur (elementStore h) = Some info ->
        has VOID_ELEMENTS (tagName info) = false ->
        significant c = true -> significant d = true -> c <> d ->
        exists info1 info3,
          storeGet cur (elementStore (text c h)) = Some info1
          /\ storeGet cur (elementStore (run [Text c; Text d; Text c] h))
             = Some info3
          /\ textChunks info3 = Some (default [] (textChunks info1) ++ [d; c]))
  /\ (forall h c w, significant w = false ->
        run [Text c; Text w; Text c] h = text c h)
  /\ (forall h cur rest, elementStack h = cur :: rest ->
        lastTextChunkMap (onEndTag h) !! cur = None)
  /\ (forall h el k, k <> (elementCounter h + 1)%Z ->
        lastTextChunkMap (element el h) !! k = lastTextChunkMap h !! k)
  /\ (forall h cur rest info c el,
        elementStack h = cur :: rest ->
        storeGet cur (elementStore h) = Some info ->
        has VOID_ELEMENTS (tagName info) = false ->
        significant c = true ->
        cur <> (elementCounter h + 1)%Z ->
        has VOID_ELEMENTS (toUpperCase (Host.tagName el)) = true ->
        storeGet cur (elementStore (run [Text c; StartTag el; Text c] h))
        = storeGet cur (elementStore (text c h)))
  /\ lastTextChunkMap
       (run [plainTag "p"; textOf "x"; plainTag "br"] freshHandler) !! 1%Z
     = Some (js "x")
  /\ (finalTextContent <$>
        storeGet 1%Z
          (storeOf [plainTag "p"; textOf "x"; plainTag "br"; textOf "x"; EndTag]))
     = Some (Some (js "x"))
  /\ lastTextChunkMap
       (run [plainTag "p"; textOf "x"; plainTag "b"; textOf "y"; EndTag]
          freshHandler) !! 1%Z
     = Some (js "x")
  /\ (finalTextContent <$>
        storeGet 1%Z
          (storeOf [plainTag "p"; textOf "x"; plainTag "b"; textOf "y"; EndTag;
                    textOf "x"; EndTag]))
     = Some (Some (js "x")).
Proof.
  split; [exact text_idempotent|].
  split.
  { intros h cur rest info c d Hs Hg Hv Hc Hd Hne.
    destruct (text_open_post h cur rest info c Hs Hg Hv Hc)
      as (info1 & Hs1 & Hg1 & Ht1 & Hl1 & _).
    exists info1, (appendChunk c (appendChunk d info1)).
    split; [exact Hg1|].
    cbn [run fold_left step].
    rewrite (text_open_new (text c h) cur rest info1 d c); auto; [|congruence].
    rewrite (text_open_new (recorded cur d (text c h)) cur rest
               (appendChunk d info1) c d); auto.
    - split.
      + cbn. apply storeGet_storeUpdate_eq. apply storeGet_storeUpdate_eq. exact Hg1.
      + cbn. rewrite <- app_assoc. reflexivity.
    - cbn. apply storeGet_storeUpdate_eq. exact Hg1.
    - rewrite tagName_appendChunk. congruence.
    - cbn. apply lookup_insert_eq. }
  split.
  { intros h c w Hw. cbn [run fold_left step].
    rewrite (text_insignificant _ w Hw). apply text_idempotent. }
  split.
  { intros h cur rest Hs. unfold onEndTag. rewrite Hs.
    destruct (storeGet cur (elementStore h)); cbn; apply lookup_delete_eq. }
  split.
  { intros h el k Hk. apply element_frame; auto. }
  split; [|repeat split; vm_compute; reflexivity].
  intros h cur rest info c el Hs Hg Hv Hc Hk Hvoid.
  destruct (text_open_post h cur rest info c Hs Hg Hv Hc)
    as (info1 & Hs1 & Hg1 & Ht1 & Hl1 & Hc1).
  cbn [run fold_left step].
  assert (Hk1 : cur <> (elementCounter (text c h) + 1)%Z) by (rewrite Hc1; auto).
  destruct (element_frame (text c h) el cur Hk1) as [Hf1 Hf2].
  rewrite (text_open (element el (text c h)) cur rest info1 c); auto.
  - rewrite Hf2, Hl1. cbn. rewrite eqb_refl. cbn. exact Hf1.
  - rewrite element_stack_void; auto.
  - rewrite Hf1; auto.
  - congruence.
Qed.

Lemma text_chunk_suppression_witness :
  let h := run [plainTag "p"] freshHandler in
  elementStack h = [1%Z]
  /\ significant (js "x") = true /\ significant (js "y") = true
  /\ exists info1 info3,
       storeGet 1%Z (elementStore (text (js "x") h)) = Some info1
       /\ storeGet 1%Z
            (elementStore (run [Text (js "x"); Text (js "y"); Text (js "x")] h))
          = Some info3
       /\ textChunks info3 = Some (default [] (textChunks info1) ++ [js "y"; js "x"]).
Proof.
  cbv zeta. split; [reflexivity|]. split; [reflexivity|]. split; [reflexivity|].
  refine (proj1 (proj2 text_chunk_suppression)
            (run [plainTag "p"] freshHandler) 1%Z []
            (newElementInfo 1%Z None (js "P")
               {| Host.tagName := js "p"; Host.attributes := [];
                  Host.onEndTagThrows := false |})
            (js "x") (js "y") _ _ _ _ _ _);
    try reflexivity.
  vm_compute. discriminate.
Defined.

(** C8. Code bug in [element]. Title, byline, excerpt, site name and
    published time are first-writer-wins as claimed: the META and TITLE
    paths write a field only while it is empty, so a field that holds a
    non-empty string is changed by no later callback, and in an extraction,
    which starts from the empty record, a field that holds a value keeps
    it; the structured-data slot is never written. Against the claim, the
    HTML path has no such guard: every handled [html] start tag assigns
    language and direction from its own attributes, so a second [html]
    start tag replaces the language the first one stored, and one without
    attributes erases it. *)
Theorem metadata_first_writer_wins :
  (forall events h,
     keepsSetFields (metadataStore h) (metadataStore (run events h)))
  /\ (forall events1 events2 store counter maxElems,
        keepsValues
          (metadataStore
             (run events1 (new store emptyMetadata counter maxElems)))
          (metadataStore
             (run events2
                (run events1 (new store emptyMetadata counter maxElems)))))
  /\ (forall h el, handled el h = true ->
        toUpperCase (Host.tagName el) = js "HTML" ->
        lang (metadataStore (element el h)) = Host.getAttribute (js "lang") el
        /\ dir (metadataStore (element el h)) = Host.getAttribute (js "dir") el)
  /\ lang (metadataStore (run [tagWith "html" [attr "lang" "en"]] freshHandler))
     = Some (js "en")
  /\ lang (metadataStore
             (run [tagWith "html" [attr "lang" "en"];
                   tagWith "html" [attr "lang" "fr"]] freshHandler))
     = Some (js "fr")
  /\ lang (metadataStore
             (run [tagWith "html" [attr "lang" "en"; attr "dir" "ltr"];
                   plainTag "body"; plainTag "html"] freshHandler))
     = None
  /\ dir (metadataStore
            (run [tagWith "html" [attr "lang" "en"; attr "dir" "ltr"];
                  plainTag "body"; plainTag "html"] freshHandler))
     = None.
Proof.
  split; [exact run_keeps|]. split; [exact run_keepsValues|].
  split; [exact element_html|]. repeat split; vm_compute; reflexivity.
Qed.

Lemma metadata_first_writer_wins_witness :
  let first := [plainTag "head";
                tagWith "meta" [attr "property" "og:title"; attr "content" "One"]] in
  let later := [tagWith "meta" [attr "name" "twitter:title"; attr "content" "Two"];
                plainTag "title"; textOf "Three"; EndTag] in
  title (metadataStore (run first freshHandler)) = Some (js "One")
  /\ title (metadataStore (run later (run first freshHandler))) = Some (js "One").
Proof.
  cbv zeta. split; [vm_compute; reflexivity|].
  apply (proj1 (proj1 (proj2 metadata_first_writer_wins) _ _ [] 0%Z None)).
  vm_compute. reflexivity.
Defined.

End TreeBuilderClaims.

Section ScorerClaims.
Import Phase2.

(** C1. Whenever the scorer returns, its result is either the empty result
    or a candidate with a retained set whose visible text (summed over the
    retained, visible elements of the store the scorer leaves) is at least
    the configured threshold, 500 by default; a selection whose sum is below
    the threshold is discarded for the empty result; when [process] returns
    an output, the retained set it serialises meets the threshold; and every
    extraction completes once the fuel covers the document. *)
Theorem threshold_gate :
  CHAR_THRESHOLD = 500%Z
  /\ (forall fuel store opts res store',
        calculateScoresAndFindBestCandidate fuel store opts = Some (res, store') ->
        res = emptyResult
        \/ exists c, topCandidateId res = Some c
             /\ (default CHAR_THRESHOLD (charThreshold opts)
                 <= totalTextLength store' (elementsToKeepIds res))%Z)
  /\ (forall fuel store opts store' scores top keep,
        candidateScores fuel store = Some (store', scores) ->
        selectCandidate fuel store' scores = Some (Some (top, keep)) ->
        (totalTextLength store' keep
         < default CHAR_THRESHOLD (charThreshold opts))%Z ->
        calculateScoresAndFindBestCandidate fuel store opts
        = Some (emptyResult, store'))
  /\ (forall fuel events r out r',
        Readability.process fuel events r = Some (Some out, r') ->
        (default CHAR_THRESHOLD (Types.charThreshold (Readability.options r))
         <= totalTextLength (Readability.elementStore r')
              (Readability.elementsToKeepIdsSet r'))%Z)
  /\ (forall events r fuel,
        (List.length events + 5 <= fuel)%nat ->
        exists out r', Readability.process fuel events r = Some (out, r')).
Proof.
  split; [reflexivity|]. split; [exact gate_result|].
  split; [exact gate_discards|]. split; [exact process_threshold|].
  exact process_total.
Qed.

Lemma threshold_gate_witness :
  exists out r',
    Readability.process 10 articleDoc
      (Readability.new exampleURL (optionsWithThreshold 30)) = Some (Some out, r')
    /\ Readability.elementsToKeepIdsSet r' = [2; 3; 4]%Z
    /\ (30 <= totalTextLength (Readability.elementStore r')
                (Readability.elementsToKeepIdsSet r'))%Z.
Proof.
  destruct (Readability.process 10 articleDoc
              (Readability.new exampleURL (optionsWithThreshold 30)))
    as [[[out|] r']|] eqn:E; try (vm_compute in E; discriminate).
  exists out, r'. split; [reflexivity|]. split.
  - vm_compute in E. injection E as _ <-. reflexivity.
  - exact (proj1 (proj2 (proj2 (proj2 threshold_gate))) _ _ _ _ _ E).
Defined.

(** C2. When no candidate has a positive link-density-adjusted score the
    scorer returns the empty result, and [process] returns [null]. This is a
    regular return: on every store that satisfies the tree invariant of the
    data model (keys positive and distinct, parent links pointing to smaller
    keys), and so on every store the builder produces, the scoring passes
    complete once the fuel exceeds the largest key, which the length of
    the document bounds. *)
Theorem no_positive_candidate_no_result :
  (forall fuel store opts store' scores,
     candidateScores fuel store = Some (store', scores) ->
     (forall e, In e scores -> (0 <? snd e)%float = false) ->
     calculateScoresAndFindBestCandidate fuel store opts
     = Some (emptyResult, store'))
  /\ (forall M store fuel,
        WfStore M store -> (5 <= fuel)%nat -> (Z.to_nat (M + 1) < fuel)%nat ->
        exists store' scores, candidateScores fuel store = Some (store', scores))
  /\ (forall events r fuel,
        (List.length events + 5 <= fuel)%nat ->
        exists store' scores,
          candidateScores fuel
            (Readability.elementStore (Readability.runPhase1 events r))
          = Some (store', scores)
          /\ ((forall e, In e scores -> (0 <? snd e)%float = false) ->
              exists r', Readability.process fuel events r = Some (None, r'))).
Proof.
  split; [exact scorer_no_positive|]. split.
  - intros M store fuel W H5 Hf.
    destruct (candidateScores_total M fuel store H5 Hf W) as (s & sc & E & _).
    eauto.
  - intros events r fuel Hf.
    destruct (runPhase1_phaseInv events r) as [W H0].
    pose proof (runPhase1_counter events r) as Hc.
    destruct (candidateScores_total
                (Readability.elementCounter (Readability.runPhase1 events r))
                fuel _ ltac:(lia) ltac:(lia) W) as (s & sc & E & _).
    exists s, sc. split; [exact E|]. intros Hn.
    eexists. apply (process_no_positive fuel events r s sc E Hn).
Qed.

Lemma no_positive_candidate_no_result_witness :
  exists r',
    Readability.process 20 linkDoc
      (Readability.new exampleURL (optionsWithThreshold 30))
    = Some (None, r').
Proof.
  destruct (proj2 (proj2 no_positive_candidate_no_result) linkDoc
              (Readability.new exampleURL (optionsWithThreshold 30)) 20%nat)
    as (store' & scores & E & H).
  - apply Nat.leb_le. vm_compute. reflexivity.
  - apply H. vm_compute in E. injection E as _ <-.
    intros e [<-|[<-|[]]]; reflexivity.
Defined.

End ScorerClaims.

Section ScoreClaims.
Import Phase2.

(** C3 (amended). The base content score of a scored element with own
    (normalised) text [t] is [1 + (commas + 1) + min(floor(len/100), 3)]:
    the middle term is the number of pieces into which the commas split the
    text, one more than the number of commas. This is the score
    [scoreElement] hands to the ancestors of a visible element with at least
    25 characters of own text and at least one ancestor, and an eligible
    ancestor at level [level] gains that score divided by the divider of its
    level, on top of its current (or, on first visit, its initial) score. *)
Theorem content_score_formula :
  (forall t,
     contentScore t = (1 + (commaCount t + 1) + Z.min (length t / 100) 3)%Z)
  /\ (forall fuel store cands k info a rest,
        getElementInfo k store = Some info ->
        isVisibleBasedOnAttrs info = true ->
        (25 <= length (getInnerText k store true))%Z ->
        getAncestorIds fuel k store 5 = Some (a :: rest) ->
        scoreElement fuel (store, cands) k
        = Some (forEachLevel
                  (2 + commaCount (getInnerText k store true)
                   + Z.min (length (getInnerText k store true) / 100) 3)
                  (store, cands) (a :: rest) 0))
  /\ (forall score store cands a level info,
        getElementInfo a store = Some info ->
        isVisibleBasedOnAttrs info = true ->
        isUnlikelyCandidate a store = false ->
        getElementInfo a (fst (propagate score (store, cands) a level))
        = Some (withReadability
                  (Some (match readability info with
                         | Some s => s
                         | None => initialScore a info store
                         end + ofZ score / ofZ (scoreDivider level))%float)
                  info)).
Proof.
  split; [exact contentScore_formula|].
  split; [exact scoreElement_scores|exact propagate_adds].
Qed.

Lemma content_score_formula_witness :
  exists info,
    getElementInfo 2%Z (storeOf plainDoc) = Some info
    /\ scoreElement 5 (storeOf plainDoc, []) 2%Z
       = Some (forEachLevel 2 (storeOf plainDoc, []) [1%Z] 0).
Proof.
  destruct (getElementInfo 2%Z (storeOf plainDoc)) as [info|] eqn:E;
    [|vm_compute in E; discriminate].
  exists info. split; [reflexivity|].
  refine (proj1 (proj2 content_score_formula) 5%nat (storeOf plainDoc) []
            2%Z info 1%Z [] E _ _ _).
  - vm_compute in E. injection E as <-. reflexivity.
  - vm_compute. discriminate.
  - vm_compute. reflexivity.
Defined.

(** C3, the claim as stated fails: a paragraph of 44 characters without a
    comma scores 2, not 1, and its parent [div] ends the propagation pass
    with 5 + 2 = 7. *)
Lemma content_score_formula_counterexample :
  let t := getInnerText 2%Z (storeOf plainDoc) true in
  (25 <= length t)%Z
  /\ commaCount t = 0%Z
  /\ contentScore t = 2%Z
  /\ contentScore t <> (1 + commaCount t + Z.min (length t / 100) 3)%Z
  /\ (s ← scoreElements 5 (storeOf plainDoc);
      i ← getElementInfo 1%Z (fst s); readability i) = Some 7%float.
Proof.
  cbv zeta. split; [vm_compute; discriminate|].
  split; [vm_compute; reflexivity|]. split; [vm_compute; reflexivity|].
  split; [vm_compute; discriminate|]. vm_compute. reflexivity.
Qed.

(** C7 (amended). After the climb by score, the candidate is replaced by its
    parent exactly while the candidate itself is not the body element, has a
    parent (with a non-zero id) and is the only child of that parent: the
    result is reached through such steps and admits no further one. The
    loop ends on every tree-shaped store. It tests the tag of the candidate,
    not of the parent, so an only child of body is replaced by body, where
    the climb stops. *)
Theorem sole_child_climb :
  (forall store fuel c r,
     climbSoleChild fuel store c (getParentId c store) (getElementInfo c store)
     = Some r ->
     rtc (soleChildStep store) c r /\ forall p, ~ soleChildStep store r p)
  /\ (forall store M, WfStore M store ->
        forall fuel c, (c <= Z.of_nat fuel)%Z ->
        exists r, climbSoleChild fuel store c (getParentId c store)
                    (getElementInfo c store) = Some r)
  /\ (forall store fuel c p info pinfo,
        getParentId c store = Some p -> p <> 0%Z ->
        eqb (tagName info) (js "BODY") = false ->
        List.length (getChildrenIds p store) = 1%nat ->
        getElementInfo p store = Some pinfo ->
        tagName pinfo = js "BODY" ->
        climbSoleChild (S fuel) store c (Some p) (Some info) = Some p).
Proof.
  split; [exact climbSoleChild_sound|].
  split; [exact climbSoleChild_total|exact climbSoleChild_into_body].
Qed.

Lemma sole_child_climb_witness :
  climbSoleChild 5 (storeOf articleDoc) 3%Z
    (getParentId 3%Z (storeOf articleDoc))
    (getElementInfo 3%Z (storeOf articleDoc)) = Some 2%Z
  /\ rtc (soleChildStep (storeOf articleDoc)) 3%Z 2%Z
  /\ forall p, ~ soleChildStep (storeOf articleDoc) 2%Z p.
Proof.
  assert (E : climbSoleChild 5 (storeOf articleDoc) 3%Z
                (getParentId 3%Z (storeOf articleDoc))
                (getElementInfo 3%Z (storeOf articleDoc)) = Some 2%Z)
    by (vm_compute; reflexivity).
  split; [exact E|].
  exact (proj1 sole_child_climb (storeOf articleDoc) 5%nat 3%Z 2%Z E).
Defined.

(** C7, the claim as stated fails: in [html > body > div > p] the candidate
    [div] (3) is the only child of [body] (2); the claim stops the climb
    there, the loop replaces the candidate by [body], and the scorer returns
    [body] as the candidate. *)
Lemma sole_child_climb_counterexample :
  (tagName <$> getElementInfo 2%Z (storeOf articleDoc)) = Some (js "BODY")
  /\ getParentId 3%Z (storeOf articleDoc) = Some 2%Z
  /\ getChildrenIds 2%Z (storeOf articleDoc) = [3%Z]
  /\ climbSoleChild 5 (storeOf articleDoc) 3%Z
       (getParentId 3%Z (storeOf articleDoc))
       (getElementInfo 3%Z (storeOf articleDoc)) = Some 2%Z
  /\ (fst <$> calculateScoresAndFindBestCandidate 10 (storeOf articleDoc)
                {| nbTopCandidates := None; charThreshold := Some 30%Z;
                   linkDensityModifier := None |})
     = Some {| topCandidateId := Some 2%Z; elementsToKeepIds := [2; 3; 4]%Z |}.
Proof.
  repeat split; vm_compute; reflexivity.
Qed.

End ScoreClaims.

Section PipelineClaims.
Import Readability.

(** C9. [process] begins by clearing the element store, the kept-id set,
    the metadata record and the id counter, so its whole result (Markdown,
    metadata and the state it leaves) depends only on the callbacks, the
    options and the base URI, never on what an earlier run left in the
    instance; in particular running it again on the state it left gives the
    same Markdown and the same metadata. Every run completes once the fuel
    covers the document, with one and the same result for every such fuel. *)
Theorem pipeline_deterministic :
  (forall r,
     elementStore (resetState r) = []
     /\ elementsToKeepIdsSet (resetState r) = []
     /\ metadataStore (resetState r) = emptyMetadata
     /\ elementCounter (resetState r) = 0%Z)
  /\ (forall fuel events r1 r2,
        options r1 = options r2 -> baseURI r1 = baseURI r2 ->
        process fuel events r1 = process fuel events r2)
  /\ (forall fuel events r out r',
        process fuel events r = Some (out, r') ->
        process fuel events r' = Some (out, r'))
  /\ (forall events r1 r2,
        options r1 = options r2 -> baseURI r1 = baseURI r2 ->
        exists out r',
          forall fuel, (List.length events + 5 <= fuel)%nat ->
            process fuel events r1 = Some (out, r')
            /\ process fuel events r2 = Some (out, r'))
  /\ (forall fuel fuel' events r res res',
        process fuel events r = Some res ->
        process fuel' events r = Some res' -> res = res').
Proof.
  split; [intros r; repeat split|]. split; [exact process_reset|].
  split; [|split; [exact process_stable|exact process_fuel_irrelevant]].
  intros fuel events r out r' E.
  destruct (process_config fuel events r out r' E) as [Ho Hb].
  rewrite (process_reset fuel events r' r Ho Hb). exact E.
Qed.

Lemma pipeline_deterministic_witness :
  exists out r',
    process 10 articleDoc (new exampleURL (optionsWithThreshold 30))
    = Some (Some out, r')
    /\ markdown out = js "The quick brown fox, jumps over the lazy dog\."
    /\ process 10 articleDoc r' = Some (Some out, r').
Proof.
  destruct (process 10 articleDoc (new exampleURL (optionsWithThreshold 30)))
    as [[[out|] r']|] eqn:E; try (vm_compute in E; discriminate).
  exists out, r'. split; [reflexivity|]. split.
  - vm_compute in E. injection E as <- _. reflexivity.
  - exact (proj1 (proj2 (proj2 pipeline_deterministic)) _ _ _ _ _ E).
Defined.

End PipelineClaims.

Section SerializerClaims.
Import Markdown.

(** C5. The builder sets [isCodeBlock] on [pre] elements only, so a [code]
    element directly under [pre] has the flag unset and
    [convertNodeRecursive] renders it as an inline span (with its text
    escaped) instead of nothing; the enclosing [pre] does emit the fence
    with the language token and the raw text, and drops what its children
    rendered, but when the conversion starts at the [pre] the span is what
    comes out. *)
Theorem code_under_pre_renders_inline :
  (forall k parent tag el,
     isCodeBlock (Phase1.newElementInfo k parent tag el) = eqb tag (js "PRE"))
  /\ (tagName <$> storeGet 2%Z (storeOf codeDoc)) = Some (js "PRE")
  /\ (tagName <$> storeGet 3%Z (storeOf codeDoc)) = Some (js "CODE")
  /\ getParentId 3%Z (storeOf codeDoc) = Some 2%Z
  /\ (isCodeBlock <$> storeGet 3%Z (storeOf codeDoc)) = Some false
  /\ convertNodeRecursive (storeOf codeDoc) [1; 2; 3]%Z exampleURL 5 3%Z 0 false 1
     = Some (js "`let x = a\*b;`")
  /\ convertNodeRecursive (storeOf codeDoc) [1; 2; 3]%Z exampleURL 5 2%Z 0 false 1
     = Some (js "```js" ++ NL ++ js "let x = a*b;" ++ NL ++ js "```" ++ NL ++ NL)
  /\ convert (storeOf codeDoc) [1; 2; 3]%Z exampleURL 5 (Some 2%Z)
     = Some (js "`let x = a\*b;`").
Proof.
  split; [reflexivity|]. repeat split; vm_compute; reflexivity.
Qed.

(** C6. In a three-level ordered list the items are numbered by their
    position among the children of their container, but the nesting levels
    are not indented by two further spaces each: an item of the third level
    is rendered with eight leading spaces, its parent item re-indents it to
    six, and the top item re-indents every continuation line to two, so the
    second and the third level come out with the same indentation. *)
Theorem nested_ordered_list_rendering :
  convertNodeRecursive (storeOf nestedListDoc) [1; 2; 3; 4; 5; 6; 7; 8; 9]%Z
    exampleURL 9 7%Z 5 true 1
  = Some (js "        1. c" ++ NL)
  /\ convertNodeRecursive (storeOf nestedListDoc) [1; 2; 3; 4; 5; 6; 7; 8; 9]%Z
       exampleURL 9 5%Z 3 true 1
     = Some (js "    1. b" ++ NL ++ js "      1. c" ++ NL)
  /\ convert (storeOf nestedListDoc) [1; 2; 3; 4; 5; 6; 7; 8; 9]%Z exampleURL 9
       (Some 1%Z)
     = Some (join NL [js "1. a"; js "  1. b"; js "  1. c"; js "  2. b2";
                      js "2. a2"]).
Proof.
  repeat split; vm_compute; reflexivity.
Qed.

(** X2. The rendering of a retained paragraph without child elements: its
    own text (trimmed) with a backslash before every Markdown special
    character, after the indentation of the list level and followed by two
    line breaks; a paragraph without text renders as nothing. For the own
    text [a*b] this is [a\*b]. (An enclosing link escapes the rendering of
    its children once more.) *)
Theorem paragraph_text_is_escaped store keep base fuel k info lvl ord n
    (Hget : storeGet k store = Some info)
    (Hkept : existsb (Z.eqb k) keep = true)
    (Htag : tagName info = js "P")
    (Hleaf : getChildrenIds k store = []) :
  convertNodeRecursive store keep base (S fuel) k lvl ord n
  = Some (match getInnerText k store false with
          | [] => []
          | t => repeat (js "  ")
                   (Z.to_nat (if (0 <? lvl)%Z then lvl - 1 else 0))
                 ++ escapeMarkdown t ++ NL ++ NL
          end).
Proof. apply (paragraph_leaf store keep base fuel k info); assumption. Qed.

Lemma paragraph_text_is_escaped_witness :
  convertNodeRecursive
    (storeOf [plainTag "div"; plainTag "p"; textOf "a*b";
              Phase1.EndTag; Phase1.EndTag])
    [1; 2]%Z exampleURL 1 2 0 false 1
  = Some (js "a\*b" ++ NL ++ NL).
Proof.
  destruct (storeGet 2%Z
              (storeOf [plainTag "div"; plainTag "p"; textOf "a*b";
                        Phase1.EndTag; Phase1.EndTag])) as [info|] eqn:Hg;
    [|vm_compute in Hg; discriminate].
  rewrite (paragraph_text_is_escaped _ [1; 2]%Z exampleURL 0 2 info 0 false 1 Hg).
  - vm_compute. reflexivity.
  - reflexivity.
  - vm_compute in Hg. injection Hg as <-. reflexivity.
  - vm_compute. reflexivity.
Defined.

End SerializerClaims.

(* ===================================================================== *)
(** * Further properties *)
(* ===================================================================== *)

Section SerializerExtras.
Import Markdown.

(** X3. Escaping is reversible and complete: removing the escaping
    backslashes from the escaped text gives the text back (so escaping is
    injective), no special character of the escaped text stands without a
    backslash before it, the escaped text is at least as long as the text
    and at most twice as long, and a text without special characters is
    left as it is. *)
Theorem escape_markdown_round_trip :
  forall s,
    unescapeMarkdown (escapeMarkdown s) = s
    /\ wellEscaped (escapeMarkdown s) = true
    /\ (List.length s <= List.length (escapeMarkdown s) <= 2 * List.length s)%nat
    /\ (forallb (fun c => negb (isMarkdownSpecial c)) s = true ->
        escapeMarkdown s = s)
    /\ forall t, escapeMarkdown s = escapeMarkdown t -> s = t.
Proof.
  intros s. split; [apply unescape_escapeMarkdown|].
  split; [apply wellEscaped_escapeMarkdown|].
  split; [apply escapeMarkdown_length|].
  split; [apply escapeMarkdown_plain|].
  intros t E. rewrite <- (unescape_escapeMarkdown s), E.
  apply unescape_escapeMarkdown.
Qed.

(** X4. The language of a fenced code block: when the class attribute
    matches, the captured token is not empty, holds no white space and
    follows an occurrence of [language-] in the attribute; a class that
    begins with [language-] and a token ended by white space or by the end
    of the attribute yields exactly that token. *)
Theorem language_class_token :
  (forall s cap,
     matchLanguage s = Some cap ->
     cap <> []
     /\ forallb (fun c => negb (isWhiteSpace c)) cap = true
     /\ includes (js "language-" ++ cap) s = true)
  /\ (forall tok rest,
        tok <> [] ->
        forallb (fun c => negb (isWhiteSpace c)) tok = true ->
        match rest with [] => True | c :: _ => isWhiteSpace c = true end ->
        matchLanguage (js "language-" ++ tok ++ rest) = Some tok).
Proof. split; [exact matchLanguage_sound|exact matchLanguage_token]. Qed.

(** X5. A link without child elements has its own text escaped twice:
    once as the element's text and once more as link text. The target is
    the [href] attribute or its resolution against the base URI. *)
Theorem link_text_is_escaped_twice store keep base fuel k info lvl ord n
    (Hget : storeGet k store = Some info)
    (Hkept : existsb (Z.eqb k) keep = true)
    (Htag : tagName info = js "A")
    (Hleaf : getChildrenIds k store = []) :
  exists target,
    convertNodeRecursive store keep base (S fuel) k lvl ord n
    = Some (js "[" ++ escapeMarkdown (escapeMarkdown (getInnerText k store false))
              ++ js "](" ++ target ++ js ")")
    /\ (target = default [] (attributes info !! js "href")
        \/ target = resolveOrKeep base (default [] (attributes info !! js "href"))).
Proof. apply link_text_twice; assumption. Qed.

Lemma link_text_is_escaped_twice_witness :
  exists target,
    convertNodeRecursive (storeOf anchorDoc) [1; 2]%Z exampleURL 1 2 0 false 1
    = Some (js "[" ++ escapeMarkdown (escapeMarkdown (js "v1.0"))
              ++ js "](" ++ target ++ js ")")
    /\ escapeMarkdown (escapeMarkdown (js "v1.0")) = js "v1\\\.0".
Proof.
  destruct (storeGet 2%Z (storeOf anchorDoc)) as [info|] eqn:Hg;
    [|vm_compute in Hg; discriminate].
  destruct (link_text_is_escaped_twice (storeOf anchorDoc) [1; 2]%Z exampleURL
              0 2 info 0 false 1 Hg eq_refl) as (target & E & _).
  - vm_compute in Hg. injection Hg as <-. reflexivity.
  - vm_compute. reflexivity.
  - exists target. split; [exact E|vm_compute; reflexivity].
Defined.

End SerializerExtras.

Section TextExtras.

(** X6. The text utilities return normalised strings: the own text of an
    element never begins or ends with white space, and with space
    normalisation it holds no two consecutive white-space characters; the
    same holds of the visible text gathered over a subtree. *)
Theorem inner_text_is_normalised :
  (forall k store,
     startsClean (getInnerText k store true) = true
     /\ endsClean (getInnerText k store true) = true
     /\ runsBelow isWhiteSpace 2 0 (getInnerText k store true) = true
     /\ startsClean (getInnerText k store false) = true
     /\ endsClean (getInnerText k store false) = true)
  /\ (forall fuel k store norm t,
        getTotalVisibleInnerText fuel k store norm = Some t ->
        startsClean t = true /\ endsClean t = true
        /\ (norm = true -> runsBelow isWhiteSpace 2 0 t = true)).
Proof. split; [exact getInnerText_shape|exact getTotalVisibleInnerText_shape]. Qed.

End TextExtras.

Section TreeExtras.

(** X7. The children of an element are listed in ascending id order and
    are exactly the records whose parent link names it; when the keys of
    the store are pairwise distinct no child is listed twice, the order is
    strict, and being listed is the same as having that parent. *)
Theorem children_are_sorted :
  forall parent (store : ElementStore),
    StronglySorted Z.le (getChildrenIds parent store)
    /\ (forall c, In c (getChildrenIds parent store) <->
                  exists info, In (c, info) store /\ parentId info = Some parent)
    /\ (NoDup (List.map fst store) ->
        NoDup (getChildrenIds parent store)
        /\ StronglySorted Z.lt (getChildrenIds parent store)
        /\ forall c, In c (getChildrenIds parent store) <->
                     getParentId c store = Some parent).
Proof. exact getChildrenIds_spec. Qed.

(** X8. The ancestor list is the chain of parent links starting at the
    element: each entry is the parent of the one before it. A positive
    depth bound limits its length, and a list that ends before the bound
    (or is unbounded) ends at an element without parent. *)
Theorem ancestors_are_the_parent_chain fuel k store maxDepth l
    (Hrun : getAncestorIds fuel k store maxDepth = Some l) :
  parentChain store k l
  /\ ((0 < maxDepth)%Z -> (Z.of_nat (List.length l) <= maxDepth)%Z)
  /\ ((maxDepth <= 0)%Z \/ (Z.of_nat (List.length l) < maxDepth)%Z ->
      getParentId (List.last l k) store = None).
Proof.
  destruct (ancestorsLoop_spec store maxDepth fuel k 0 l Hrun) as (A & B & C).
  split; [exact A|]. split.
  - intros H. specialize (B H ltac:(lia)). lia.
  - intros H. apply C. lia.
Qed.

Lemma ancestors_are_the_parent_chain_witness :
  getAncestorIds 5 4 (storeOf articleDoc) 2 = Some [3; 2]%Z
  /\ parentChain (storeOf articleDoc) 4 [3; 2]%Z
  /\ getAncestorIds 5 4 (storeOf articleDoc) 0 = Some [3; 2; 1]%Z
  /\ getParentId 1 (storeOf articleDoc) = None.
Proof.
  assert (E2 : getAncestorIds 5 4 (storeOf articleDoc) 2 = Some [3; 2]%Z)
    by (vm_compute; reflexivity).
  assert (E0 : getAncestorIds 5 4 (storeOf articleDoc) 0 = Some [3; 2; 1]%Z)
    by (vm_compute; reflexivity).
  split; [exact E2|].
  split; [exact (proj1 (ancestors_are_the_parent_chain 5 4 _ 2 _ E2))|].
  split; [exact E0|].
  apply (proj2 (proj2 (ancestors_are_the_parent_chain 5 4 _ 0 _ E0))).
  left. lia.
Defined.

(** X9. Descendants and ancestors agree: on a store with pairwise distinct
    keys, [d] is listed among the descendants of [k] exactly when [k] is
    listed among the (unbounded) ancestors of [d]. *)
Theorem descendants_match_ancestors store fuel k ds d fuel' l
    (Hkeys : NoDup (List.map fst store))
    (Hdown : getDescendantIds fuel k store = Some ds)
    (Hup : getAncestorIds fuel' d store 0 = Some l) :
  In d ds <-> In k l.
Proof. exact (descendants_ancestors store Hkeys fuel k ds Hdown d fuel' l Hup). Qed.

Lemma descendants_match_ancestors_witness :
  getDescendantIds 5 2 (storeOf articleDoc) = Some [3; 4]%Z
  /\ getAncestorIds 5 4 (storeOf articleDoc) 0 = Some [3; 2; 1]%Z
  /\ (In 4%Z [3; 4]%Z <-> In 2%Z [3; 2; 1]%Z).
Proof.
  split; [vm_compute; reflexivity|]. split; [vm_compute; reflexivity|].
  apply (descendants_match_ancestors (storeOf articleDoc) 5 2 _ 4 5 _).
  - apply (proj1 (proj1 (run_phaseInv articleDoc _
             (new_phaseInv emptyMetadata None)))).
  - vm_compute. reflexivity.
  - vm_compute. reflexivity.
Defined.

(** X10. On a store that satisfies the tree invariant with keys up to [M],
    every tree walk returns once the fuel exceeds [M + 1]: the descendants,
    the visible text of a subtree, the link density and the ancestors with
    any depth bound. *)
Theorem tree_walks_terminate M store fuel k
    (Hwf : WfStore M store) (Hfuel : (Z.to_nat (M + 1) < fuel)%nat) :
  (exists l, getDescendantIds fuel k store = Some l)
  /\ (forall norm, exists t, getTotalVisibleInnerText fuel k store norm = Some t)
  /\ (exists d, getLinkDensity fuel k store = Some d)
  /\ (forall maxDepth, exists l, getAncestorIds fuel k store maxDepth = Some l).
Proof.
  pose proof (depthBelow_le M k) as Hd.
  split; [apply (getDescendantIds_total M store Hwf); lia|].
  split; [intros norm; apply (getTotalVisibleInnerText_total M store Hwf); lia|].
  split; [apply (getLinkDensity_total M store Hwf); exact Hfuel|].
  intros maxDepth. apply (getAncestorIds_total_wf M store maxDepth fuel k Hwf Hfuel).
Qed.

Lemma tree_walks_terminate_witness :
  WfStore 4 (storeOf articleDoc)
  /\ (exists l, getDescendantIds 6 1 (storeOf articleDoc) = Some l)
  /\ (exists d, getLinkDensity 6 1 (storeOf articleDoc) = Some d).
Proof.
  assert (W : WfStore 4 (storeOf articleDoc))
    by exact (proj1 (run_phaseInv articleDoc _ (new_phaseInv emptyMetadata None))).
  split; [exact W|].
  destruct (tree_walks_terminate 4 (storeOf articleDoc) 6 1 W) as (A & _ & C & _).
  - vm_compute. lia.
  - split; [exact A|exact C].
Defined.

End TreeExtras.

Section BuilderExtras.
Import Phase1.

(** X11. Ids are handed out consecutively: after any sequence of callbacks
    on a store that started empty with the counter at 0, the keys of the
    store are [1 .. elementCounter] in the order of creation, so a record
    exists exactly for these ids; every record carries its key as id, has
    no score, has a string as final text, and holds only chunks with a
    non-blank character. Skipped and capped start tags consume no id. *)
Theorem ids_are_consecutive :
  forall events meta maxElems,
    let h := run events (new [] meta 0 maxElems) in
    List.map fst (elementStore h) = seqZ 1 (elementCounter h)
    /\ Z.of_nat (List.length (elementStore h)) = elementCounter h
    /\ (forall k, (exists info, getElementInfo k (elementStore h) = Some info)
                  <-> (1 <= k <= elementCounter h)%Z)
    /\ Forall recordOk (elementStore h).
Proof.
  intros events meta maxElems h.
  destruct (run_idsInv events _ (new_idsInv meta maxElems)) as (Hc & Hk & Hr).
  fold h in Hc, Hk, Hr. split; [exact Hk|]. split; [|split; [|exact Hr]].
  - rewrite <- (length_map fst), Hk, length_seqZ. lia.
  - intros k. unfold getElementInfo. rewrite storeGet_Some_key, Hk.
    rewrite <- list_elem_of_In, elem_of_seqZ. lia.
Qed.

(** X12. The stack of open elements is the ancestor chain of its top:
    every element on it is recorded, not void, still collecting chunks and
    not yet finalised, and its parent is the element right below it, so
    [getAncestorIds] of the top returns the rest of the stack. A last-chunk
    entry exists only for an open element and holds the chunk recorded last
    for it. An element that is not open holds no chunk list, unless the
    registration of its end tag handler failed, in which case its text
    stays empty. *)
Theorem open_stack_is_ancestor_chain :
  forall events meta maxElems,
    let h := run events (new [] meta 0 maxElems) in
    openChain (elementStore h) (elementStack h)
    /\ (forall top rest fuel,
          elementStack h = top :: rest -> (List.length rest <= fuel)%nat ->
          getAncestorIds fuel top (elementStore h) 0 = Some rest)
    /\ (forall k c, lastTextChunkMap h !! k = Some c ->
          In k (elementStack h)
          /\ exists info, storeGet k (elementStore h) = Some info
                          /\ last (default [] (textChunks info)) = Some c)
    /\ (forall k info, storeGet k (elementStore h) = Some info ->
          ~ In k (elementStack h) ->
          textChunks info = None
          \/ (textChunks info = Some [] /\ finalTextContent info = Some [])).
Proof.
  intros events meta maxElems h.
  destruct (run_openInv events _ (new_phaseInv meta maxElems)
              (new_openInv meta maxElems)) as (Hch & Hmap & Hcl).
  fold h in Hch, Hmap, Hcl. split; [exact Hch|]. split; [|split; assumption].
  intros top rest fuel Hs Hf. rewrite Hs in Hch.
  apply openChain_ancestors; assumption.
Qed.

(** X13. Records persist: a record, once written, stays in the store
    through every later callback, and the fields that describe the element
    (id, parent, tag, attributes, visibility, role, table and code flags)
    never change; when the element is not open, the whole record is left
    as it is and the element is never opened again. *)
Theorem records_persist events later meta maxElems k info
    (Hget : storeGet k (elementStore (run events (new [] meta 0 maxElems)))
            = Some info) :
  let h := run events (new [] meta 0 maxElems) in
  (exists info', storeGet k (elementStore (run later h)) = Some info'
                 /\ sameShape info info')
  /\ (~ In k (elementStack h) ->
      storeGet k (elementStore (run later h)) = Some info
      /\ ~ In k (elementStack (run later h))).
Proof.
  intros h.
  pose proof (run_phaseInv events _ (new_phaseInv meta maxElems)) as Hp.
  split.
  - apply run_shape; assumption.
  - intros Hn. apply run_frozen; assumption.
Qed.

Lemma records_persist_witness :
  exists info,
    storeGet 2 (elementStore (run openDoc (new [] emptyMetadata 0 None)))
    = Some info
    /\ storeGet 2
         (elementStore
            (run [plainTag "p"; textOf "y"; EndTag; EndTag]
               (run openDoc (new [] emptyMetadata 0 None))))
       = Some info.
Proof.
  destruct (storeGet 2 (elementStore (run openDoc (new [] emptyMetadata 0 None))))
    as [info|] eqn:Hg; [|vm_compute in Hg; discriminate].
  exists info. split; [reflexivity|].
  apply (records_persist openDoc [plainTag "p"; textOf "y"; EndTag; EndTag]
           emptyMetadata None 2 info Hg).
  vm_compute. intros [H|[]]. discriminate.
Defined.

(** X14. The text of an element without child elements: for a handled,
    non-void start tag whose end tag handler registers, followed by text
    chunks only and by its end tag, the final text is the concatenation of
    the chunks that have a non-blank character, a chunk equal to the one
    recorded just before being dropped; blank chunks are dropped without
    separating such repeats. The chunk list is removed and the stack is as
    before. *)
Theorem leaf_text_is_deduped_concatenation h el cs
    (Hhandled : handled el h = true)
    (Hnonvoid : has VOID_ELEMENTS (toUpperCase (Host.tagName el)) = false)
    (Hregisters : Host.onEndTagThrows el = false) :
  let k := (elementCounter h + 1)%Z in
  let h' := run (StartTag el :: List.map Text cs ++ [EndTag]) h in
  elementStack h' = elementStack h
  /\ exists info,
       storeGet k (elementStore h') = Some info
       /\ finalTextContent info = Some (List.concat (dedupe None cs))
       /\ textChunks info = None.
Proof. apply leaf_text; assumption. Qed.

Lemma leaf_text_is_deduped_concatenation_witness :
  exists info,
    storeGet 1
      (elementStore
         (run (StartTag (elementOf "p")
                 :: List.map Text [js "a"; js " "; js "a"; js "b"] ++ [EndTag])
            freshHandler)) = Some info
    /\ finalTextContent info = Some (js "ab").
Proof.
  destruct (leaf_text_is_deduped_concatenation freshHandler (elementOf "p")
              [js "a"; js " "; js "a"; js "b"])
    as (_ & info & Hg & Hf & _); try (vm_compute; reflexivity).
  exists info. split; [exact Hg|]. rewrite Hf. vm_compute. reflexivity.
Defined.

End BuilderExtras.

Section ScorerExtras.
Import Phase2.

(** X15. The scorer changes nothing but scores: the store it leaves has
    the same keys in the same order, and each record differs from the one
    it was given at most in its score. *)
Theorem scorer_changes_only_scores fuel store opts res store'
    (Hrun : calculateScoresAndFindBestCandidate fuel store opts
            = Some (res, store')) :
  eraseScores store' = eraseScores store
  /\ List.map fst store' = List.map fst store
  /\ forall k, withReadability None <$> storeGet k store'
               = withReadability None <$> storeGet k store.
Proof.
  pose proof (calculate_erase _ _ _ _ _ Hrun) as E.
  split; [exact E|]. split; [apply eraseScores_keys; exact E|].
  intros k. apply eraseScores_get. exact E.
Qed.

Lemma scorer_changes_only_scores_witness :
  exists res store',
    calculateScoresAndFindBestCandidate 10 (storeOf articleDoc)
      {| nbTopCandidates := None; charThreshold := Some 30%Z;
         linkDensityModifier := None |} = Some (res, store')
    /\ eraseScores store' = storeOf articleDoc
    /\ store' <> storeOf articleDoc.
Proof.
  destruct (calculateScoresAndFindBestCandidate 10 (storeOf articleDoc)
              {| nbTopCandidates := None; charThreshold := Some 30%Z;
                 linkDensityModifier := None |})
    as [[res store']|] eqn:E; [|vm_compute in E; discriminate].
  exists res, store'. split; [reflexivity|]. split.
  - rewrite (proj1 (scorer_changes_only_scores _ _ _ _ _ E)).
    vm_compute. reflexivity.
  - vm_compute in E. injection E as _ <-. vm_compute. discriminate.
Defined.

(** X16. The retained ids: when the scorer reports a candidate on a store
    that satisfies the tree invariant, no id is retained twice, and every
    retained element lies below the element from which the serialisation
    starts (the parent of the candidate, or the candidate itself when it
    has no parent): it is that element or has it among its ancestors. *)
Theorem retained_ids_lie_below_the_root M fuel store opts res store' top
    (Hwf : WfStore M store)
    (Hrun : calculateScoresAndFindBestCandidate fuel store opts
            = Some (res, store'))
    (Htop : topCandidateId res = Some top) :
  NoDup (elementsToKeepIds res)
  /\ forall y, In y (elementsToKeepIds res) ->
       forall fuel' l, getAncestorIds fuel' y store' 0 = Some l ->
       let root := default top (getParentId top store') in
       y = root \/ In root l.
Proof. exact (kept_ids M fuel store opts res store' top Hwf Hrun Htop). Qed.

Lemma retained_ids_lie_below_the_root_witness :
  exists res store',
    calculateScoresAndFindBestCandidate 10 (storeOf articleDoc)
      {| nbTopCandidates := None; charThreshold := Some 30%Z;
         linkDensityModifier := None |} = Some (res, store')
    /\ topCandidateId res = Some 2%Z
    /\ elementsToKeepIds res = [2; 3; 4]%Z
    /\ NoDup (elementsToKeepIds res).
Proof.
  destruct (calculateScoresAndFindBestCandidate 10 (storeOf articleDoc)
              {| nbTopCandidates := None; charThreshold := Some 30%Z;
                 linkDensityModifier := None |})
    as [[res store']|] eqn:E; [|vm_compute in E; discriminate].
  assert (Ht : topCandidateId res = Some 2%Z)
    by (vm_compute in E; injection E as <- _; reflexivity).
  exists res, store'. split; [reflexivity|]. split; [exact Ht|]. split.
  - vm_compute in E. injection E as <- _. reflexivity.
  - exact (proj1 (retained_ids_lie_below_the_root 4 10 (storeOf articleDoc) _
                    res store' 2 articleDoc_wf E Ht)).
Defined.



(** X18. The two score initialisers: the scorer's own [initializeNodeScore]
    gives a tag the bias of the exported one, except that it gives no
    penalty to OL, UL, DL, DD, DT, LI, FORM, H2 to H6 and TH; on every other
    element the two write the same store, and both leave alone an element
    that is missing or already scored. *)
Theorem score_initialisers_agree :
  (forall tag,
     Phase2.tagBias tag
     = if has penalisedByUtilsOnly tag then 0%float else Utils.tagBias tag)
  /\ (forall k store info,
        getElementInfo k store = Some info ->
        has penalisedByUtilsOnly (tagName info) = false ->
        Utils.initializeNodeScore k store
        = fst (Phase2.initializeNodeScore k store))
  /\ (forall k store,
        match getElementInfo k store with
        | Some info => readability info <> None
        | None => True
        end ->
        Utils.initializeNodeScore k store = store
        /\ Phase2.initializeNodeScore k store = (store, None)).
Proof.
  split; [exact tagBias_agree|]. split.
  - intros k store info Hg Hp.
    unfold Utils.initializeNodeScore, Phase2.initializeNodeScore. rewrite Hg.
    destruct (readability info); [reflexivity|]. cbn [fst]. cbv zeta.
    unfold initialScore. rewrite tagBias_agree, Hp. reflexivity.
  - intros k store H.
    unfold Utils.initializeNodeScore, Phase2.initializeNodeScore.
    destruct (getElementInfo k store) as [info|]; [|auto].
    destruct (readability info); [auto|contradiction].
Qed.

(** X19. Scoring one element touches only the ancestors it propagates to:
    every record outside the list of its first five ancestors is left as it
    is, and on a store that satisfies the tree invariant this includes the
    record of the element itself, whose text never adds to its own score. *)
Theorem scoring_is_local M fuel store candidates k st'
    (Hwf : WfStore M store)
    (Hrun : scoreElement fuel (store, candidates) k = Some st') :
  storeGet k (fst st') = storeGet k store
  /\ forall j,
       (forall l, getAncestorIds fuel k store 5 = Some l -> ~ In j l) ->
       storeGet j (fst st') = storeGet j store.
Proof.
  split; [exact (scoreElement_own M fuel (store, candidates) k st' Hwf Hrun)|].
  exact (scoreElement_local fuel (store, candidates) k st' Hrun).
Qed.

Lemma scoring_is_local_witness :
  exists st',
    scoreElement 5 (storeOf articleDoc, []) 4 = Some st'
    /\ storeGet 4 (fst st') = storeGet 4 (storeOf articleDoc).
Proof.
  destruct (scoreElement 5 (storeOf articleDoc, []) 4) as [st'|] eqn:E;
    [|vm_compute in E; discriminate].
  exists st'. split; [reflexivity|].
  exact (proj1 (scoring_is_local 4 5 (storeOf articleDoc) [] 4 st'
                  articleDoc_wf E)).
Defined.

End ScorerExtras.

Section PipelineExtras.
Import Readability.

(** X20. What [process] returns: the Markdown neither begins nor ends with
    white space and holds no three consecutive line breaks (as every result
    of [convert]); the metadata is the record the builder collected from
    the callbacks; the store left in the instance is the builder's store
    with scores added; the retained set is not empty and lists no id
    twice. *)
Theorem process_output_shape fuel events r out r'
    (Hrun : process fuel events r = Some (Some out, r')) :
  let h := Phase1.run events
             (Phase1.new [] emptyMetadata 0 (Types.maxElemsToParse (options r))) in
  metadata out = Phase1.metadataStore h
  /\ metadataStore r' = Phase1.metadataStore h
  /\ elementCounter r' = Phase1.elementCounter h
  /\ eraseScores (elementStore r') = Phase1.elementStore h
  /\ NoDup (elementsToKeepIdsSet r')
  /\ elementsToKeepIdsSet r' <> []
  /\ startsClean (markdown out) = true
  /\ endsClean (markdown out) = true
  /\ runsBelow (N.eqb 10) 3 0 (markdown out) = true.
Proof. exact (process_output fuel events r out r' Hrun). Qed.

Lemma process_output_shape_witness :
  exists out r',
    process 10 articleDoc (new exampleURL (optionsWithThreshold 30))
    = Some (Some out, r')
    /\ eraseScores (elementStore r') = storeOf articleDoc
    /\ startsClean (markdown out) = true.
Proof.
  destruct (process 10 articleDoc (new exampleURL (optionsWithThreshold 30)))
    as [[[out|] r']|] eqn:E; try (vm_compute in E; discriminate).
  exists out, r'. split; [reflexivity|].
  destruct (process_output_shape _ _ _ _ _ E) as (_ & _ & _ & A & _ & _ & B & _).
  split; [exact A|exact B].
Defined.

(** X21. Every result of [convert] is trimmed and holds no three
    consecutive line breaks; without a root it is the empty string. *)
Theorem markdown_is_trimmed store keep base fuel root md
    (Hrun : Markdown.convert store keep base fuel root = Some md) :
  startsClean md = true /\ endsClean md = true
  /\ runsBelow (N.eqb 10) 3 0 md = true
  /\ (root = None -> md = []).
Proof.
  destruct (convert_shape store keep base fuel root md Hrun) as (A & B & C).
  repeat split; auto. intros ->. cbn in Hrun. congruence.
Qed.

Lemma markdown_is_trimmed_witness :
  exists md,
    Markdown.convert (storeOf nestedListDoc) [1; 2; 3; 4; 5; 6; 7; 8; 9]%Z
      exampleURL 9 (Some 1%Z) = Some md
    /\ startsClean md = true /\ endsClean md = true.
Proof.
  destruct (Markdown.convert (storeOf nestedListDoc) [1; 2; 3; 4; 5; 6; 7; 8; 9]%Z
              exampleURL 9 (Some 1%Z)) as [md|] eqn:E;
    [|vm_compute in E; discriminate].
  exists md. split; [reflexivity|].
  destruct (markdown_is_trimmed _ _ _ _ _ _ E) as (A & B & _). split; assumption.
Defined.

End PipelineExtras.
